(** * MultiCactusTree: tree partitioning for the progressive aligner

    A shallow embedding of [progressive/multiCactusTree.py] (class
    [MultiCactusTree]) and of the task graph submitted by
    [progressive/bin/cactus_progressive.py].

    Node ids are Python integers ([Z]); the subtree-root set is a [gset Z],
    the name index a [gmap string Z].  Methods that mutate the tree live in a
    small state-and-exception monad: a raised exception leaves the tree in
    the state it had when it was raised. *)

From Stdlib Require Import ZArith Ascii String DecimalString DecimalPos DecimalZ.
From stdpp Require Import gmap strings list.

Open Scope Z_scope.

(** Exceptions raised by the modelled Python code.  [Conflict] is the
    condition of sections 4.1 and 7 (a name given to two nodes).  [Diverge]
    is not a Python exception: it marks a modelled loop or recursion that ran
    out of fuel. *)
Inductive exn : Set :=
| AssertionError
| KeyError
| UnboundLocalError
| Conflict
| Diverge.

(** What [getSubtreeRoot] hands back: the root's node id, an ancestor's name,
    or [None]. *)
Inductive answer : Set :=
| AnsNode (n : Z)
| AnsName (s : string)
| AnsNone.

(** [str.split(c)]: the pieces between the occurrences of [c], at least one. *)
Fixpoint split_on (c : ascii) (s : string) : list string :=
  match s with
  | EmptyString => [EmptyString]
  | String a s' =>
      if bool_decide (a = c) then EmptyString :: split_on c s'
      else match split_on c s' with
           | tok :: rest => String a tok :: rest
           | [] => [String a EmptyString]
           end
  end.

(** [dot_free s]: no ['.'] occurs in [s]. *)
Fixpoint dot_free (s : string) : bool :=
  match s with
  | EmptyString => true
  | String a s' => negb (bool_decide (a = "."%char)) && dot_free s'
  end.

(** ["%d" % count] *)
Definition fmt_d (count : Z) : string := NilZero.string_of_int (Z.to_int count).

(** Truth value of a node id in [if parent:]: zero is false. *)
Definition truthy (n : Z) : bool := negb (bool_decide (n = 0)).

Inductive result (A : Type) : Type :=
| Ok (a : A)
| Raise (e : exn).
Arguments Ok {A} a.
Arguments Raise {A} e.

Section Tree.

(** Branch lengths.  Python leaves their numeric type open (Newick weights
    are floats); [half] stands for the expression [distance / 2]. *)
Context {W : Type}.
Variable half : W -> W.

(** ** The graph underneath ([networkx.DiGraph]) *)

Record edge : Type := Edge { e_src : Z; e_dst : Z; e_weight : option W }.

(** Modelled from the spec: the [networkx] digraph held in [NXTree.nxDg]
    (section 3: integer node ids, an optional name per node, an optional
    weight per parent-to-child edge).  Nodes and edges are kept in insertion
    order; [g_name] holds the ['name'] attribute of the nodes that have one. *)
Record DiGraph : Type := mkDiGraph {
  g_nodes : list Z;
  g_name : gmap Z string;
  g_edges : list edge
}.

Definition is_edge (u v : Z) (e : edge) : bool :=
  bool_decide (e_src e = u) && bool_decide (e_dst e = v).

(** Modelled from the spec: [DiGraph.add_node], a no-op on a present node. *)
Definition add_node (n : Z) (g : DiGraph) : DiGraph :=
  if bool_decide (n ∈ g_nodes g) then g
  else mkDiGraph (g_nodes g ++ [n]) (g_name g) (g_edges g).

(** Modelled from the spec: [DiGraph.add_edge]; both ends become nodes, an
    edge already present keeps its attributes. *)
Definition add_edge (u v : Z) (g : DiGraph) : DiGraph :=
  let g := add_node v (add_node u g) in
  if existsb (is_edge u v) (g_edges g) then g
  else mkDiGraph (g_nodes g) (g_name g) (g_edges g ++ [Edge u v None]).

(** Modelled from the spec: [DiGraph.remove_edge].  The code only removes an
    edge it has just read with [getParent], so the error of [networkx] on an
    absent edge is not modelled. *)
Definition remove_edge (u v : Z) (g : DiGraph) : DiGraph :=
  mkDiGraph (g_nodes g) (g_name g)
    (filter (λ e, ¬ (e_src e = u ∧ e_dst e = v)) (g_edges g)).

(** Modelled from the spec: [DiGraph.subgraph(nbunch).copy()], the graph
    induced on the listed nodes. *)
Definition subgraph (bunch : list Z) (g : DiGraph) : DiGraph :=
  mkDiGraph
    (filter (λ n, n ∈ bunch) (g_nodes g))
    (filter (λ kv, kv.1 ∈ bunch) (g_name g))
    (filter (λ e, e_src e ∈ bunch ∧ e_dst e ∈ bunch) (g_edges g)).

(** ** The tree ([NXTree] and [MultiCactusTree.__init__]) *)

Record MultiCactusTree : Type := mkTree {
  nxDg : DiGraph;
  rootId : Z;
  subtreeRoots : gset Z;
  nameToId : gmap string Z;
  subtreeSize : Z
}.

Definition with_graph (f : DiGraph -> DiGraph) (t : MultiCactusTree) :=
  mkTree (f (nxDg t)) (rootId t) (subtreeRoots t) (nameToId t) (subtreeSize t).

(** Modelled from the spec: [NXTree.getChildren], the heads of the node's
    out-edges (section 4.1). *)
Definition children_of (g : DiGraph) (n : Z) : list Z :=
  e_dst <$> filter (λ e, e_src e = n) (g_edges g).

Definition getChildren (t : MultiCactusTree) (n : Z) : list Z :=
  children_of (nxDg t) n.

(** Modelled from the spec: [NXTree.getParent]; absent ([None]) for a node
    without an in-edge (section 4.1). *)
Definition parent_of (g : DiGraph) (n : Z) : option Z :=
  head (e_src <$> filter (λ e, e_dst e = n) (g_edges g)).

Definition getParent (t : MultiCactusTree) (n : Z) : option Z :=
  parent_of (nxDg t) n.

(** Modelled from the spec: [NXTree.isLeaf], no children (section 3). *)
Definition isLeaf (t : MultiCactusTree) (n : Z) : bool :=
  bool_decide (getChildren t n = []).

(** Modelled from the spec: [NXTree.getName] and [hasName] over the node's
    ['name'] attribute; an unnamed node reads as the empty string. *)
Definition getName (t : MultiCactusTree) (n : Z) : string :=
  default EmptyString (g_name (nxDg t) !! n).

Definition hasName (t : MultiCactusTree) (n : Z) : bool :=
  bool_decide (is_Some (g_name (nxDg t) !! n)).

Definition set_name (n : Z) (s : string) (g : DiGraph) : DiGraph :=
  mkDiGraph (g_nodes g) (<[n := s]> (g_name g)) (g_edges g).

(** Writing the ['name'] attribute of [n], unchecked. *)
Definition put_name (n : Z) (s : string) : MultiCactusTree -> MultiCactusTree :=
  with_graph (set_name n s).

(** [name_taken g n s]: a node other than [n] carries the name [s]. *)
Definition name_taken (g : DiGraph) (n : Z) (s : string) : Prop :=
  ∃ m, m ≠ n ∧ g_name g !! m = Some s.

Definition name_taken_b (g : DiGraph) (n : Z) (s : string) : bool :=
  bool_decide (Exists (λ kv, kv.1 ≠ n ∧ kv.2 = s) (map_to_list (g_name g))).

(** [name_free t s]: no node of [t] carries the name [s]. *)
Definition name_free (t : MultiCactusTree) (s : string) : Prop :=
  map_Forall (λ _ s', s' ≠ s) (g_name (nxDg t)).

(** Modelled from the spec: [NXTree.getWeight] and [setWeight] over the
    edge's ['weight'] attribute. *)
Definition weight_of (g : DiGraph) (u v : Z) : option W :=
  e ← head (filter (λ e, e_src e = u ∧ e_dst e = v) (g_edges g)); e_weight e.

Definition getWeight (t : MultiCactusTree) (u v : Z) : option W :=
  weight_of (nxDg t) u v.

Definition set_weight (u v : Z) (w : W) (g : DiGraph) : DiGraph :=
  mkDiGraph (g_nodes g) (g_name g)
    ((λ e, if is_edge u v e then Edge u v (Some w) else e) <$> g_edges g).

Definition setWeight (u v : Z) (w : W) : MultiCactusTree -> MultiCactusTree :=
  with_graph (set_weight u v w).

(** Modelled from the spec: [NXTree.breadthFirstTraversal], all node ids by
    distance from the root, root first, each level in discovery order
    (section 4.1).  A tree with [k] edges has at most [k + 1] levels. *)
Definition expand (g : DiGraph) (level : list Z) : list Z :=
  level ≫= children_of g.

Fixpoint bfs_levels (fuel : nat) (g : DiGraph) (level : list Z) : list Z :=
  match fuel with
  | O => []
  | S fuel' =>
      match level with
      | [] => []
      | _ => level ++ bfs_levels fuel' g (expand g level)
      end
  end.

Definition bfs (g : DiGraph) (root : Z) : list Z :=
  bfs_levels (S (length (g_edges g))) g [root].

Definition breadthFirstTraversal (t : MultiCactusTree) : list Z :=
  bfs (nxDg t) (rootId t).

(** ** The state-and-exception monad of the mutating methods *)

Definition M (A : Type) : Type := MultiCactusTree -> result A * MultiCactusTree.

#[export] Instance M_ret : MRet M := λ A a t, (Ok a, t).

#[export] Instance M_bind : MBind M := λ A B f m t,
  match m t with
  | (Ok a, t') => f a t'
  | (Raise e, t') => (Raise e, t')
  end.

Definition raise {A} (e : exn) : M A := λ t, (Raise e, t).
Definition gets {A} (f : MultiCactusTree -> A) : M A := λ t, (Ok (f t), t).
Definition modify (f : MultiCactusTree -> MultiCactusTree) : M unit :=
  λ t, (Ok tt, f t).
Definition assert (b : bool) : M unit :=
  if b then mret tt else raise AssertionError.
Definition lift {A} (f : MultiCactusTree -> result A) : M A := λ t, (f t, t).

(** Modelled from the spec: [NXTree.setName].  Giving a node a name that
    another node already carries fails with a Conflict (sections 4.1 and 7);
    the tree is then left as it was. *)
Definition setName (n : Z) (s : string) : M unit :=
  taken ← gets (λ t, name_taken_b (nxDg t) n s);
  if taken : bool then raise Conflict else modify (put_name n s).

Fixpoint for_each {A} (l : list A) (body : A -> M unit) : M unit :=
  match l with
  | [] => mret tt
  | x :: l' => body x;; for_each l' body
  end.

(** ** [getSubtreeLeaves] (multiCactusTree.py, lines 104-111) *)

Definition grows (t : MultiCactusTree) (cur next : list Z) : bool :=
  bool_decide (Z.of_nat (length next) ≤ subtreeSize t)
  && bool_decide (length cur < length next)%nat.

(** The [while] loop; [None] when the fuel runs out. *)
Fixpoint leaves_loop (fuel : nat) (t : MultiCactusTree) (cur next : list Z)
  : option (list Z) :=
  match fuel with
  | O => None
  | S fuel' =>
      if grows t cur next
      then leaves_loop fuel' t next (expand (nxDg t) next)
      else Some cur
  end.

Definition getSubtreeLeaves (t : MultiCactusTree) (n : Z) : result (list Z) :=
  if bool_decide (Z.of_nat (length (getChildren t n)) ≤ subtreeSize t) then
    match leaves_loop (S (Z.to_nat (subtreeSize t))) t [] (getChildren t n) with
    | Some cur => Ok cur
    | None => Raise Diverge
    end
  else Raise AssertionError.

(** The frontier as section 4.2 describes it: start from the node's direct
    children and replace the frontier by the children of its members while
    the next frontier fits the cap and is strictly larger. *)
Inductive frontier_from (t : MultiCactusTree) : list Z -> list Z -> Prop :=
| frontier_stop cur :
    ¬ (Z.of_nat (length (expand (nxDg t) cur)) ≤ subtreeSize t
       ∧ (length cur < length (expand (nxDg t) cur))%nat) ->
    frontier_from t cur cur
| frontier_step cur res :
    Z.of_nat (length (expand (nxDg t) cur)) ≤ subtreeSize t ->
    (length cur < length (expand (nxDg t) cur))%nat ->
    frontier_from t (expand (nxDg t) cur) res ->
    frontier_from t cur res.

(** ** [nameUnlabeledInternalNodes] (lines 39-45) *)

Definition index_name (name : string) (n : Z) (t : MultiCactusTree) :=
  mkTree (nxDg t) (rootId t) (subtreeRoots t) (<[name := n]> (nameToId t))
    (subtreeSize t).

(** One turn of the [for] loop when [setName] goes through: the counter and
    the tree after [node]. *)
Definition name_step (prefix : string) (st : Z * MultiCactusTree) (node : Z)
  : Z * MultiCactusTree :=
  let '(count, t) := st in
  let '(count, t) :=
    if negb (isLeaf t node) && negb (hasName t node)
    then (count + 1, put_name node (prefix +:+ fmt_d count) t)
    else (count, t) in
  (count, index_name (getName t node) node t).

(** The [for] loop over the traversal, with its counter. *)
Fixpoint name_loop (prefix : string) (traversal : list Z) (count : Z) : M unit :=
  match traversal with
  | [] => mret tt
  | node :: rest =>
      leaf ← gets (λ t, isLeaf t node);
      named ← gets (λ t, hasName t node);
      count ← (if negb leaf && negb named
               then setName node (prefix +:+ fmt_d count);; mret (count + 1)
               else mret count);
      name ← gets (λ t, getName t node);
      modify (index_name name node);;
      name_loop prefix rest count
  end.

Definition nameUnlabeledInternalNodes (prefix : string) (startIdx : Z) : M unit :=
  traversal ← gets breadthFirstTraversal;
  name_loop prefix traversal startIdx.

(** [unnamed t n]: [n] is an internal node without a name, one the loop
    above gives a name to. *)
Definition unnamed (t : MultiCactusTree) (n : Z) : Prop :=
  isLeaf t n = false ∧ hasName t n = false.

(** ** [computeSubtreeRoots] (lines 49-58) *)

Definition set_subtreeRoots (s : gset Z) (t : MultiCactusTree) :=
  mkTree (nxDg t) (rootId t) s (nameToId t) (subtreeSize t).

Definition add_subtreeRoot (n : Z) (t : MultiCactusTree) :=
  set_subtreeRoots ({[n]} ∪ subtreeRoots t) t.

(** The recursion follows the tree downwards; [fuel] bounds its depth. *)
Fixpoint computeSubtreeRoots (fuel : nat) (root : option Z) : M unit :=
  match fuel with
  | O => raise Diverge
  | S fuel' =>
      root ← match root with
             | None => r ← gets rootId; modify (set_subtreeRoots ∅);; mret r
             | Some r => mret r
             end;
      marked ← gets (λ t, bool_decide (root ∈ subtreeRoots t));
      assert (negb marked);;
      modify (add_subtreeRoot root);;
      leaves ← lift (λ t, getSubtreeLeaves t root);
      for_each leaves (λ subtreeLeaf,
        leaf ← gets (λ t, isLeaf t subtreeLeaf);
        if leaf : bool then mret tt
        else computeSubtreeRoots fuel' (Some subtreeLeaf))
  end.

(** ** [assignSubtreeRootNames], [getSubtreeRootNames] (lines 61-68) *)

Definition assignSubtreeRootNames (rootNames : list string)
  (t : MultiCactusTree) : MultiCactusTree :=
  foldl (λ t node,
           if bool_decide (getName t node ∈ rootNames)
           then add_subtreeRoot node t else t)
        (set_subtreeRoots ∅ t) (breadthFirstTraversal t).

Definition getSubtreeRootNames (t : MultiCactusTree) : list string :=
  getName t <$> elements (subtreeRoots t).

(** ** [traverseSubtree], [extractSubTree] (lines 72-86) *)

(** The generator, collected into a list; [None] when the fuel runs out. *)
Fixpoint traverseSubtree (fuel : nat) (t : MultiCactusTree) (root node : Z)
  : option (list Z) :=
  match fuel with
  | O => None
  | S fuel' =>
      if bool_decide (node = root) || negb (bool_decide (node ∈ subtreeRoots t))
      then below ← mapM (traverseSubtree fuel' t root) (getChildren t node);
           Some (node :: mjoin below)
      else Some [node]
  end.

(** Modelled from the spec: [NXTree.computeRootId], the first node without an
    in-edge (section 3: a tree has exactly one root). *)
Definition computeRootId (g : DiGraph) : option Z :=
  head (filter (λ n, parent_of g n = None) (g_nodes g)).

(** Modelled from the spec: the constructor [MultiCactusTree(tree, size)]
    over [NXTree.__init__]: empty subtree-root set and name index.  A graph
    without a root has no usable root id; the next lookup on it raises. *)
Definition newTree (g : DiGraph) (size : Z) : result MultiCactusTree :=
  match computeRootId g with
  | Some r => Ok (mkTree g r ∅ ∅ size)
  | None => Raise KeyError
  end.

Definition extractSubTree (t : MultiCactusTree) (name : string)
  : result MultiCactusTree :=
  match nameToId t !! name with
  | None => Raise KeyError
  | Some root =>
      match traverseSubtree (S (length (g_edges (nxDg t)))) t root root with
      | None => Raise Diverge
      | Some subtree =>
          match newTree (subgraph subtree (nxDg t)) 2 with
          | Ok mcCpy => Ok (assignSubtreeRootNames (getSubtreeRootNames t) mcCpy)
          | Raise e => Raise e
          end
      end
  end.

(** ** [getSubtreeRoot] (lines 90-99) *)

(** The [while] loop walking up the ancestors. *)
Fixpoint walk_up (fuel : nat) (t : MultiCactusTree) (parent : option Z)
  : result answer :=
  match fuel with
  | O => Raise Diverge
  | S fuel' =>
      match parent with
      | None => Ok AnsNone
      | Some p =>
          if bool_decide (p ∈ subtreeRoots t) then Ok (AnsName (getName t p))
          else walk_up fuel' t (getParent t p)
      end
  end.

(** Line 94 reads [parent = self.getParent(parent)]: the local [parent] is
    read before anything was assigned to it.  [unbound_local] is the value of
    such a read. *)
Definition unbound_local : option Z := None.

Definition getSubtreeRoot (t : MultiCactusTree) (name : string) : result answer :=
  match nameToId t !! name with
  | None => Raise KeyError
  | Some node =>
      if bool_decide (node = rootId t) then Ok (AnsNode node)
      else match unbound_local with
           | None => Raise UnboundLocalError
           | Some parent =>
               walk_up (S (length (g_edges (nxDg t)))) t (getParent t parent)
           end
  end.

(** ** [getNextIndex], [insertAbove] (lines 114-135) *)

(** [sorted(traversal)[-1] + 1]; the traversal always starts with the root. *)
Definition getNextIndex (t : MultiCactusTree) : Z :=
  foldr Z.max (rootId t) (breadthFirstTraversal t) + 1.

Definition set_rootId (r : Z) (t : MultiCactusTree) :=
  mkTree (nxDg t) r (subtreeRoots t) (nameToId t) (subtreeSize t).

Definition insertAbove (node newNode : Z) (newName : string)
  (newWeight : option W) : M unit :=
  parent ← gets (λ t, getParent t node);
  match parent with
  | Some parent =>
      oldWeight ← gets (λ t, getWeight t parent node);
      modify (with_graph (remove_edge parent node));;
      modify (with_graph (add_edge parent newNode));;
      match oldWeight with
      | Some w => modify (setWeight parent newNode w)
      | None => mret tt
      end
  | None =>
      r ← gets rootId;
      assert (bool_decide (node = r));;
      modify (set_rootId newNode)
  end;;
  modify (with_graph (add_node newNode));;
  setName newNode newName;;
  modify (with_graph (add_edge newNode node));;
  match newWeight with
  | Some w => modify (setWeight newNode node w)
  | None => mret tt
  end;;
  if bool_decide (0 < String.length newName)%nat
  then modify (index_name newName newNode)
  else mret tt.

(** ** [addSelfEdges], [makeSelfName] (lines 141-163) *)

Definition makeSelfName (name suffix : string) : string :=
  match split_on "."%char name with
  | tok :: rest => foldl (λ newName tok, newName +:+ "." +:+ tok) (tok +:+ suffix) rest
  | [] => suffix
  end.

(** The [for] loop over the snapshot of the traversal. *)
Fixpoint self_loop (suffix : string) (traversal : list Z) (nextIndex : Z)
  : M unit :=
  match traversal with
  | [] => mret tt
  | node :: rest =>
      wanted ← gets (λ t, (bool_decide (node ∈ subtreeRoots t) || isLeaf t node)
                           && negb (bool_decide (node = rootId t)));
      if wanted : bool then
        let newNode := nextIndex in
        parent ← gets (λ t, getParent t node);
        weight ← gets (λ t, match parent with
                            | Some p => if truthy p then getWeight t p node else None
                            | None => None
                            end);
        newName ← gets (λ t, makeSelfName (getName t node) suffix);
        insertAbove node newNode newName weight;;
        modify (add_subtreeRoot newNode);;
        self_loop suffix rest (nextIndex + 1)
      else self_loop suffix rest nextIndex
  end.

Definition addSelfEdges (suffix : string) : M unit :=
  nextIndex ← gets getNextIndex;
  traversal ← gets breadthFirstTraversal;
  self_loop suffix traversal nextIndex.

(** ** [addOutgroup] (lines 167-177) *)

Definition addOutgroup (ogName : string) (distance : W) : M unit :=
  present ← gets (λ t, bool_decide (is_Some (nameToId t !! ogName)));
  assert (negb present);;
  rootLeaf ← gets (λ t, isLeaf t (rootId t));
  distance ← (if rootLeaf : bool then
                newNode ← gets getNextIndex;
                r ← gets rootId;
                insertAbove r newNode "" (Some (half distance));;
                mret (half distance)
              else mret distance);
  newNode ← gets getNextIndex;
  r ← gets rootId;
  modify (with_graph (add_edge r newNode));;
  setName newNode ogName;;
  modify (index_name ogName newNode);;
  modify (setWeight r newNode distance).

(** ** Trees *)

(** [reach g r n]: [n] is [r] or one of its descendants. *)
Inductive reach (g : DiGraph) (r : Z) : Z -> Prop :=
| reach_refl : reach g r r
| reach_step p c : reach g r p -> c ∈ children_of g p -> reach g r c.

(** A graph is acyclic when its nodes can be ranked so that every edge goes
    up in rank (a topological order). *)
Definition acyclic (g : DiGraph) : Prop :=
  ∃ rank : Z -> nat, ∀ e, e ∈ g_edges g -> (rank (e_src e) < rank (e_dst e))%nat.

(** The nodes at distance [k] below [r], in discovery order. *)
Definition level (g : DiGraph) (r : Z) (k : nat) : list Z :=
  Nat.iter k (expand g) [r].

(** What [NXTree.isTree] asserts of the graph (acyclic, in-degree below two),
    with what section 3 adds: one root from which every node descends. *)
Record is_tree (t : MultiCactusTree) : Prop := {
  tree_acyclic : acyclic (nxDg t);
  tree_indegree : NoDup (e_dst <$> g_edges (nxDg t));
  tree_ends : ∀ e, e ∈ g_edges (nxDg t) ->
      e_src e ∈ g_nodes (nxDg t) ∧ e_dst e ∈ g_nodes (nxDg t);
  tree_root : rootId t ∈ g_nodes (nxDg t);
  tree_connected : ∀ n, n ∈ g_nodes (nxDg t) -> reach (nxDg t) (rootId t) n
}.

(** The clade of a subtree-root: the root and its descendants, down to but
    not beyond the nested subtree-roots. *)
Inductive in_clade (t : MultiCactusTree) (root : Z) : Z -> Prop :=
| clade_root : in_clade t root root
| clade_child p c :
    in_clade t root p ->
    p = root ∨ p ∉ subtreeRoots t ->
    c ∈ getChildren t p ->
    in_clade t root c.

Definition bounded_frontier (t : MultiCactusTree) (n : Z) (res : list Z) : Prop :=
  frontier_from t (getChildren t n) res.

(** What the generator [traverseSubtree root x] yields: [x], and below a
    node that is the root or no subtree-root, what it yields from each
    child. *)
Inductive yields (t : MultiCactusTree) (root : Z) : Z -> Z -> Prop :=
| yields_here x : yields t root x x
| yields_below x c m :
    x = root ∨ x ∉ subtreeRoots t ->
    c ∈ getChildren t x ->
    yields t root c m ->
    yields t root x m.

(** ** Vocabulary for the effect of [addSelfEdges] *)

(** The nodes that [addSelfEdges] puts a self-node above. *)
Definition wants_self (t : MultiCactusTree) (n : Z) : Prop :=
  (n ∈ subtreeRoots t ∨ isLeaf t n = true) ∧ n ≠ rootId t.

#[global] Instance wants_self_dec t n : Decision (wants_self t n).
Proof. unfold wants_self. apply _. Defined.

(** The names [addSelfEdges] gives to the self-nodes, in the order of the
    traversal. *)
Definition self_names (t : MultiCactusTree) (suffix : string) : list string :=
  (λ n, makeSelfName (getName t n) suffix)
    <$> filter (wants_self t) (breadthFirstTraversal t).

(** The weight [addSelfEdges] hands to [insertAbove] for the edge from the
    self-node down to the node, whose parent is [p] and whose former
    parent edge has weight [w]: the [if parent:] test reads a parent with
    id zero as false. *)
Definition self_weight (p : Z) (w : option W) : option W :=
  if truthy p then w else None.

(** The ids handed out from [next] on: [next], [next + 1], ... *)
Definition fresh_ids (next : Z) (k : nat) : list Z :=
  (λ i, next + Z.of_nat i) <$> seq 0 k.

(** The name index after [insertAbove]: only a non-empty name is indexed. *)
Definition index_if_named (name : string) (n : Z) (idx : gmap string Z) :=
  if bool_decide (0 < String.length name)%nat then <[name := n]> idx else idx.

(** The edge list without the edge from [p] to [n]. *)
Definition unlink (p n : Z) (es : list edge) : list edge :=
  filter (λ e, ¬ (e_src e = p ∧ e_dst e = n)) es.

(** The graph updates of [insertAbove] below the root, in the order of
    the code: the edge from [p] to [node] goes, [new] is hung under [p]
    with the old weight [ow1], and [node] under [new] with [ow2]. *)
Definition graft (p node new : Z) (name : string) (ow1 ow2 : option W)
  (g : DiGraph) : DiGraph :=
  match ow2 with Some w => set_weight new node w | None => id end
    (add_edge new node
       (set_name new name
          (add_node new
             (match ow1 with Some w => set_weight p new w | None => id end
                (add_edge p new (remove_edge p node g)))))).

(** The edges of the tree once the nodes paired with their self-nodes in
    [ps] are done: an edge of the original tree [t0] into a node that is
    not done stays; an edge from [p] into a done node [n] with self-node [s]
    has become the edge from [p] to [s], followed by the edge from [s] to
    [n]. *)
Definition edge_after (t0 : MultiCactusTree) (ps : list (Z * Z)) (e : edge)
  : Prop :=
  (e ∈ g_edges (nxDg t0) ∧ e_dst e ∉ ps.*1)
  ∨ (∃ n s p w, (n, s) ∈ ps ∧ Edge p n w ∈ g_edges (nxDg t0)
                ∧ (e = Edge p s w ∨ e = Edge s n (self_weight p w))).

(** The state of the loop of [addSelfEdges] over the original tree [t0]. *)
Record self_inv (t0 : MultiCactusTree) (suffix : string) (ps : list (Z * Z))
    (t : MultiCactusTree) : Prop := {
  inv_edges : ∀ e, e ∈ g_edges (nxDg t) <-> edge_after t0 ps e;
  inv_indegree : NoDup (e_dst <$> g_edges (nxDg t));
  inv_nodes : g_nodes (nxDg t) = g_nodes (nxDg t0) ++ ps.*2;
  inv_names_new : ∀ n s, (n, s) ∈ ps ->
      g_name (nxDg t) !! s = Some (makeSelfName (getName t0 n) suffix);
  inv_names_old : ∀ x, x ∉ ps.*2 ->
      g_name (nxDg t) !! x = g_name (nxDg t0) !! x;
  inv_roots : subtreeRoots t = list_to_set ps.*2 ∪ subtreeRoots t0;
  inv_root : rootId t = rootId t0
}.

End Tree.

(** * The progressive driver ([progressive/bin/cactus_progressive.py]) *)

Section Driver.

(** Modelled from the spec: the schedule ([cactus.progressive.schedule] is
    not among the sources), read through [deps], [followOn] and [isVirtual]
    (section 4.3). *)
Variable deps : string -> list string.
Variable followOn : string -> option string.
Variable isVirtual : string -> bool.

(** The [--nonRecursive] option. *)
Variable nonRecursive : bool.

(** [ProgressiveUp.run] skips the alignment of an event whose outputs are
    already on disk when overwriting is off. *)
Variable alreadyDone : string -> bool.

(** The targets the driver submits.  [WorkflowPhase] stands for the first
    phase of the alignment workflow ([CactusSetupPhase] or
    [CactusTrimmingBlastPhase]), which belongs to another module. *)
Inductive target : Set :=
| ProgressiveDown (event : string)
| ProgressiveNext (event : string)
| ProgressiveUp (event : string)
| WorkflowPhase (event : string)
| FinishUp (event : string).

(** What the [run] method of a target submits: the targets added with
    [addChildTarget], in order, and the one set with [setFollowOnTarget]
    (lines 59-70, 80-88, 97-168, 176-180). *)
Definition run (tg : target) : list target * option target :=
  match tg with
  | ProgressiveDown event =>
      (if nonRecursive then [] else ProgressiveDown <$> deps event,
       Some (ProgressiveNext event))
  | ProgressiveNext event =>
      ((if isVirtual event then [] else [ProgressiveUp event])
       ++ match followOn event with
          | Some followOnEvent => [ProgressiveDown followOnEvent]
          | None => []
          end,
       None)
  | ProgressiveUp event =>
      (if alreadyDone event then [] else [WorkflowPhase event],
       Some (FinishUp event))
  | WorkflowPhase _ => ([], None)
  | FinishUp _ => ([], None)
  end.

(** Modelled from the spec: the job framework (sections 4.3 and 5).  A
    submitted target waits ([Pending]); once its [run] has returned, its
    children are taken up in any order and interleaving ([Running]); its
    follow-on is taken up when all its children have finished. *)
Inductive job : Set :=
| Pending (tg : target)
| Running (children : list job) (next : option target)
| Finished.

(** One move of the framework; the label is the target whose [run] it
    executes, if any. *)
Inductive step : job -> option target -> job -> Prop :=
| step_run tg :
    step (Pending tg) (Some tg) (Running (Pending <$> (run tg).1) (run tg).2)
| step_child before j lbl j' after next :
    step j lbl j' ->
    step (Running (before ++ j :: after) next) lbl
         (Running (before ++ j' :: after) next)
| step_follow children next :
    Forall (λ j, j = Finished) children ->
    step (Running children (Some next)) None (Pending next)
| step_done children :
    Forall (λ j, j = Finished) children ->
    step (Running children None) None Finished.

(** An execution, with the targets run along it, in order. *)
Inductive exec : job -> list target -> job -> Prop :=
| exec_here j : exec j [] j
| exec_step j lbl j' trace j'' :
    step j lbl j' -> exec j' trace j'' ->
    exec j (option_list lbl ++ trace) j''.

(** The ordering the specification asks for: along every execution started
    at [ProgressiveDown start], the follow-on of a non-virtual event is
    taken up only after the event's own [ProgressiveUp] has run. *)
Definition follow_on_after_work (start : string) : Prop :=
  ∀ trace j event next before after,
    exec (Pending (ProgressiveDown start)) trace j ->
    followOn event = Some next ->
    isVirtual event = false ->
    trace = before ++ ProgressiveDown next :: after ->
    ProgressiveUp event ∈ before.

End Driver.

(** * Sample trees and schedules *)

(** Python 2's [distance / 2] on integer branch lengths. *)
Definition half_int (distance : Z) : Z := distance / 2.

(** The tree [((A:1,B:1):1,C.x:2);] as the Newick reader numbers it, before
    any method has run: ids 0 (root), 1, 2 ("A"), 3 ("B"), 4 ("C.x"). *)
Definition sample_graph : DiGraph (W:=Z) :=
  mkDiGraph [0; 1; 2; 3; 4]
    (list_to_map [(2, "A"%string); (3, "B"%string); (4, "C.x"%string)])
    [Edge 0 1 (Some 1); Edge 1 2 (Some 1); Edge 1 3 (Some 1); Edge 0 4 (Some 2)].

Definition sample_raw : MultiCactusTree (W:=Z) := mkTree sample_graph 0 ∅ ∅ 2.

(** The same tree after [nameUnlabeledInternalNodes] and
    [computeSubtreeRoots]. *)
Definition sample_tree : MultiCactusTree (W:=Z) :=
  (computeSubtreeRoots 5 None (nameUnlabeledInternalNodes "Anc" 0 sample_raw).2).2.

(** A root with three leaves under a cap of two. *)
Definition star_tree : MultiCactusTree (W:=Z) :=
  mkTree (mkDiGraph [0; 1; 2; 3]
            (list_to_map [(1, "A"%string); (2, "B"%string); (3, "C"%string)])
            [Edge 0 1 (Some 1); Edge 0 2 (Some 1); Edge 0 3 (Some 1)])
         0 ∅ ∅ 2.

(** A tree that is a single leaf. *)
Definition lone_leaf : MultiCactusTree (W:=Z) :=
  mkTree (mkDiGraph [0] (list_to_map [(0, "A"%string)]) []) 0 ∅
         (list_to_map [("A"%string, 0)]) 2.

(** A schedule of two events, ["B"] the follow-on of ["A"], no dependencies,
    nothing virtual, nothing done yet. *)
Definition chain_deps (event : string) : list string := [].
Definition chain_followOn (event : string) : option string :=
  if bool_decide (event = "A"%string) then Some "B"%string else None.
Definition chain_isVirtual (event : string) : bool := false.
Definition chain_alreadyDone (event : string) : bool := false.
(** ** [makeSelfName] *)

Lemma string_app_cons (x : ascii) (a b : string) :
  String x a +:+ b = String x (a +:+ b).
Proof. done. Qed.

Lemma string_app_assoc (a b c : string) : (a +:+ b) +:+ c = a +:+ b +:+ c.
Proof.
  induction a as [|x a IH]; [done|]. by rewrite !string_app_cons, IH.
Qed.

Lemma string_app_nil_r (a : string) : a +:+ "" = a.
Proof. induction a as [|x a IH]; [done|]. by rewrite string_app_cons, IH. Qed.

Lemma split_on_nonempty c s : split_on c s ≠ [].
Proof.
  destruct s as [|x s]; [done|]. cbn [split_on].
  case_bool_decide; [done|]. by destruct (split_on c s).
Qed.

Lemma split_on_dot_free a : dot_free a = true -> split_on "." a = [a].
Proof.
  induction a as [|x a IH]; [done|]. cbn [dot_free split_on].
  intros [Hx Ha]%andb_true_iff. apply negb_true_iff in Hx. rewrite Hx.
  by rewrite (IH Ha).
Qed.

Lemma split_on_first_dot a b :
  dot_free a = true -> split_on "." (a +:+ "." +:+ b) = a :: split_on "." b.
Proof.
  induction a as [|x a IH]; [done|]. rewrite string_app_cons.
  cbn [dot_free split_on].
  intros [Hx Ha]%andb_true_iff. apply negb_true_iff in Hx. rewrite Hx.
  by rewrite (IH Ha).
Qed.

(** Joining the pieces of [b] with dots after [pre] spells [pre] and [b]. *)
Lemma join_split_on b : ∀ pre,
  match split_on "." b with
  | tok :: rest =>
      foldl (λ newName tok, newName +:+ "." +:+ tok) (pre +:+ tok) rest
  | [] => pre
  end = pre +:+ b.
Proof.
  induction b as [|x b IH]; intros pre; [done|]. cbn [split_on].
  case_bool_decide as Hx.
  - subst x. specialize (IH ((pre +:+ "") +:+ ".")).
    destruct (split_on "." b) as [|tok rest] eqn:Hb;
      [by apply split_on_nonempty in Hb|].
    cbn [foldl]. rewrite !string_app_assoc in IH. rewrite !string_app_assoc.
    exact IH.
  - specialize (IH (pre +:+ String x "")).
    destruct (split_on "." b) as [|tok rest] eqn:Hb;
      [by apply split_on_nonempty in Hb|].
    rewrite !string_app_assoc in IH. exact IH.
Qed.

Lemma makeSelfName_no_dot a suffix :
  dot_free a = true -> makeSelfName a suffix = a +:+ suffix.
Proof. intros Ha. unfold makeSelfName. by rewrite split_on_dot_free. Qed.

Lemma makeSelfName_first_dot a b suffix :
  dot_free a = true ->
  makeSelfName (a +:+ "." +:+ b) suffix = a +:+ suffix +:+ "." +:+ b.
Proof.
  intros Ha. unfold makeSelfName. rewrite split_on_first_dot by done.
  pose proof (join_split_on b ((a +:+ suffix) +:+ ".")) as Hj.
  destruct (split_on "." b) as [|tok rest] eqn:Hb;
    [by apply split_on_nonempty in Hb|].
  cbn [foldl]. rewrite !string_app_assoc in Hj. rewrite !string_app_assoc.
  exact Hj.
Qed.

Lemma string_app_inj (p a b : string) : p +:+ a = p +:+ b -> a = b.
Proof.
  induction p as [|c p IH]; [done|]. rewrite !string_app_cons.
  intros [= H]. by apply IH.
Qed.

Section TreeFacts.

Context {W : Type}.
Implicit Types (half : W -> W) (t : MultiCactusTree (W:=W)) (g : DiGraph (W:=W)).
Implicit Types (n p c r : Z) (l cur next res : list Z).

Lemma filter_iff_in {A} (P1 P2 : A -> Prop)
    `{!∀ x, Decision (P1 x), !∀ x, Decision (P2 x)} (l : list A) :
  (∀ x, x ∈ l -> P1 x <-> P2 x) -> filter P1 l = filter P2 l.
Proof.
  induction l as [|a l IH]; intros Hiff; [done|].
  rewrite !filter_cons, IH by (intros; apply Hiff; by right).
  destruct (decide (P1 a)) as [H1|H1], (decide (P2 a)) as [H2|H2]; try done;
    exfalso; apply (Hiff a ltac:(left)) in H1 || apply (Hiff a ltac:(left)) in H2; done.
Qed.

(** Unfolds the monad's operations in the goal. *)
Ltac run_m :=
  cbn -[getSubtreeLeaves breadthFirstTraversal getNextIndex setName];
  unfold mbind, M_bind, mret, M_ret, gets, modify, lift, assert, raise;
  cbn -[getSubtreeLeaves breadthFirstTraversal getNextIndex setName].

(** ** [setName] and the names carried by the tree *)

Lemma name_taken_b_spec g n s : name_taken_b g n s = true <-> name_taken g n s.
Proof.
  unfold name_taken_b, name_taken. rewrite bool_decide_eq_true, Exists_exists.
  split.
  - intros ([m s'] & Hin%elem_of_map_to_list & Hm & Hs). cbn in *. subst. eauto.
  - intros (m & Hm & Hs). exists (m, s). by rewrite elem_of_map_to_list.
Qed.

Lemma name_free_lookup t s :
  name_free t s <-> ∀ m, g_name (nxDg t) !! m ≠ Some s.
Proof.
  unfold name_free. rewrite map_Forall_lookup. split.
  - intros Hf m Hm. by apply (Hf m s).
  - intros Hf m s' Hm ->. by apply (Hf m).
Qed.

#[global] Instance name_free_dec t s : Decision (name_free t s).
Proof. unfold name_free. apply _. Defined.

(** On a tree whose index holds every name a node carries, as after
    [nameUnlabeledInternalNodes], a name that is not in the index is free. *)
Lemma name_free_indexed t s :
  (∀ m s', g_name (nxDg t) !! m = Some s' -> is_Some (nameToId t !! s')) ->
  nameToId t !! s = None -> name_free t s.
Proof.
  intros Hidx Hs. apply name_free_lookup. intros m Hm.
  apply Hidx in Hm as [? Hm]. congruence.
Qed.

Lemma name_free_not_taken t n s : name_free t s -> ¬ name_taken (nxDg t) n s.
Proof. rewrite name_free_lookup. intros Hf (m & _ & Hm). by apply (Hf m). Qed.

Lemma setName_ok t n s :
  ¬ name_taken (nxDg t) n s -> setName n s t = (Ok tt, put_name n s t).
Proof.
  intros Hn. unfold setName. run_m.
  destruct (name_taken_b (nxDg t) n s) eqn:Hb; [|done].
  by apply name_taken_b_spec in Hb.
Qed.

Lemma setName_conflict t n s :
  name_taken (nxDg t) n s -> setName n s t = (Raise Conflict, t).
Proof.
  intros Hn%name_taken_b_spec. unfold setName. run_m. by rewrite Hn.
Qed.

(** The graph updates of [insertAbove] and [addOutgroup] other than
    [setName] leave the names alone. *)
Lemma add_node_names n g : g_name (add_node n g) = g_name g.
Proof. unfold add_node. by case_bool_decide. Qed.

Lemma add_edge_names u v g : g_name (add_edge u v g) = g_name g.
Proof.
  unfold add_edge. destruct (existsb _ _); cbn [g_name];
    by rewrite !add_node_names.
Qed.

Lemma set_weight_names u v (w : W) g : g_name (set_weight u v w g) = g_name g.
Proof. done. Qed.

Lemma remove_edge_names u v g : g_name (remove_edge u v g) = g_name g.
Proof. done. Qed.

Lemma name_taken_names g g' n s :
  g_name g' = g_name g -> name_taken g' n s <-> name_taken g n s.
Proof. unfold name_taken. by intros ->. Qed.

Lemma setName_names t t1 n s :
  g_name (nxDg t1) = g_name (nxDg t) -> ¬ name_taken (nxDg t) n s ->
  setName n s t1 = (Ok tt, put_name n s t1).
Proof. intros Hg Hn. apply setName_ok. by rewrite (name_taken_names _ _ _ _ Hg). Qed.

Lemma setName_conflict_names t t1 n s :
  g_name (nxDg t1) = g_name (nxDg t) -> name_taken (nxDg t) n s ->
  setName n s t1 = (Raise Conflict, t1).
Proof.
  intros Hg Hn. apply setName_conflict. by rewrite (name_taken_names _ _ _ _ Hg).
Qed.

Lemma fmt_d_inj a b : fmt_d a = fmt_d b -> a = b.
Proof.
  unfold fmt_d. intros Heq.
  assert (∀ z, NilZero.int_of_string (NilZero.string_of_int (Z.to_int z))
               = Some (Z.to_int z)) as Hisi.
  { intros z. apply NilZero.isi; destruct z; cbn; try done;
      intros [= H]; by apply DecimalPos.Unsigned.to_uint_nonnil in H. }
  assert (Some (Z.to_int a) = Some (Z.to_int b)) as [= Hab]
    by (by rewrite <-!Hisi, Heq).
  by rewrite <-(DecimalZ.of_to a), <-(DecimalZ.of_to b), Hab.
Qed.

(** ** Graphs: levels, reachability and the traversal *)

Lemma elem_of_children g p c :
  c ∈ children_of g p <-> ∃ w, Edge p c w ∈ g_edges g.
Proof.
  unfold children_of. rewrite list_elem_of_fmap. split.
  - intros ([s d w] & -> & [Hs He]%list_elem_of_filter). simpl in *. subst. eauto.
  - intros [w He]. exists (Edge p c w). split; [done|].
    by apply list_elem_of_filter.
Qed.

Lemma children_of_fresh g n :
  (∀ e, e ∈ g_edges g -> e_src e ≠ n) -> children_of g n = [].
Proof.
  intros Hn. apply elem_of_nil_inv. intros c [w He]%elem_of_children.
  by apply (Hn _ He).
Qed.

Lemma elem_of_expand g l c :
  c ∈ expand g l <-> ∃ p, p ∈ l ∧ c ∈ children_of g p.
Proof. unfold expand. rewrite list_elem_of_bind. naive_solver. Qed.

Lemma level_S g r k : level g r (S k) = expand g (level g r k).
Proof. done. Qed.

Lemma iter_expand_nil g k : Nat.iter k (expand g) [] = [].
Proof. induction k as [|k IH]; [done|]. simpl. by rewrite IH. Qed.

Lemma elem_of_bfs_levels fuel g l n :
  n ∈ bfs_levels fuel g l <-> ∃ k, (k < fuel)%nat ∧ n ∈ Nat.iter k (expand g) l.
Proof.
  revert l. induction fuel as [|fuel IH]; intros l; simpl.
  { split; [by intros ?%not_elem_of_nil|]. intros (k & ? & _). lia. }
  destruct l as [|x l].
  { split; [by intros ?%not_elem_of_nil|]. intros (k & _ & Hk).
    by rewrite iter_expand_nil in Hk. }
  rewrite elem_of_app, IH. split.
  - intros [Hn|(k & Hk & Hn)].
    + exists 0%nat. split; [lia|done].
    + exists (S k). split; [lia|]. by rewrite Nat.iter_succ_r.
  - intros ([|k] & Hk & Hn); [by left|]. right. exists k. split; [lia|].
    by rewrite Nat.iter_succ_r in Hn.
Qed.

Lemma level_reach g r k n : n ∈ level g r k -> reach g r n.
Proof.
  revert n. induction k as [|k IH]; intros n.
  - intros ->%list_elem_of_singleton. constructor.
  - rewrite level_S, elem_of_expand. intros (p & Hp & Hc).
    eapply reach_step; eauto.
Qed.

Lemma reach_level g r n : reach g r n -> ∃ k, n ∈ level g r k.
Proof.
  induction 1 as [|p c _ [k Hk] Hc].
  - exists 0%nat. by apply list_elem_of_singleton.
  - exists (S k). rewrite level_S, elem_of_expand. eauto.
Qed.

(** A node of level [k] sits at the end of a chain of [k] edges with
    distinct heads, all ranked above the root and up to the node's rank. *)
Lemma level_chain g rank r k n :
  (∀ e, e ∈ g_edges g -> (rank (e_src e) < rank (e_dst e))%nat) ->
  n ∈ level g r k ->
  ∃ es, length es = k ∧ NoDup (e_dst <$> es) ∧ (∀ e, e ∈ es -> e ∈ g_edges g)
        ∧ (∀ e, e ∈ es -> (rank r < rank (e_dst e) ≤ rank n)%nat)
        ∧ (rank r ≤ rank n)%nat.
Proof.
  intros Hrank. revert n. induction k as [|k IH]; intros n.
  - intros ->%list_elem_of_singleton. exists [].
    split_and!; [done|apply NoDup_nil_2| | |done]; by intros ? ?%not_elem_of_nil.
  - rewrite level_S, elem_of_expand. intros (p & Hp & [w Hc]%elem_of_children).
    destruct (IH p Hp) as (es & Hlen & Hnd & Hin & Hrk & Hle).
    pose proof (Hrank _ Hc) as Hlt. simpl in Hlt.
    exists (Edge p n w :: es). split; [simpl; lia|]. split.
    { rewrite fmap_cons. apply NoDup_cons. split; [|done]. simpl.
      intros (e & He & Hein)%list_elem_of_fmap. apply Hrk in Hein.
      rewrite <-He in Hein. lia. }
    split.
    { intros e [->|He]%elem_of_cons; auto. }
    split; [|lia].
    intros e [->|He]%elem_of_cons; simpl; [lia|]. apply Hrk in He. lia.
Qed.

Lemma level_depth g r k n :
  acyclic g -> n ∈ level g r k -> (k ≤ length (g_edges g))%nat.
Proof.
  intros [rank Hrank] Hn.
  destruct (level_chain g rank r k n Hrank Hn) as (es & <- & Hnd & Hin & _).
  apply submseteq_length, NoDup_submseteq; [|done].
  by apply NoDup_fmap_1 in Hnd.
Qed.

Lemma root_not_below g r k : acyclic g -> r ∉ level g r (S k).
Proof.
  intros [rank Hrank] Hn.
  destruct (level_chain g rank r (S k) r Hrank Hn) as (es & Hlen & _ & _ & Hrk & _).
  destruct es as [|e es]; [done|]. specialize (Hrk e ltac:(left)). lia.
Qed.

Lemma elem_of_bfs g r n : acyclic g -> n ∈ bfs g r <-> reach g r n.
Proof.
  intros Hac. unfold bfs. rewrite elem_of_bfs_levels. split.
  - intros (k & _ & Hk). by eapply level_reach.
  - intros [k Hk]%reach_level. exists k. split; [|done].
    apply (level_depth g r k n Hac) in Hk. lia.
Qed.

Lemma parent_of_elem g n p : parent_of g n = Some p -> n ∈ children_of g p.
Proof.
  unfold parent_of. intros Hh%head_Some_elem_of.
  apply list_elem_of_fmap in Hh as ([s d w] & -> & [Hd He]%list_elem_of_filter).
  simpl in *. subst. apply elem_of_children. eauto.
Qed.

Lemma parent_of_None g n :
  parent_of g n = None -> ∀ e, e ∈ g_edges g -> e_dst e ≠ n.
Proof.
  unfold parent_of. intros Hf e He Hd.
  apply head_None, fmap_nil_inv in Hf.
  by apply (filter_nil_not_elem_of _ _ e Hf).
Qed.

Section indegree.
Variable g : DiGraph (W:=W).
Hypothesis Hin : NoDup (e_dst <$> g_edges g).

Lemma edge_unique e e' :
  e ∈ g_edges g -> e' ∈ g_edges g -> e_dst e = e_dst e' -> e = e'.
Proof.
  intros [i Hi]%list_elem_of_lookup [j Hj]%list_elem_of_lookup Hd.
  assert (i = j) as ->; [|congruence].
  eapply NoDup_lookup; [exact Hin| |]; rewrite list_lookup_fmap.
  - by rewrite Hi.
  - rewrite Hj. simpl. by rewrite Hd.
Qed.

Lemma parent_unique p p' c :
  c ∈ children_of g p -> c ∈ children_of g p' -> p = p'.
Proof.
  intros [w He]%elem_of_children [w' He']%elem_of_children.
  by injection (edge_unique _ _ He He' eq_refl).
Qed.

Lemma parent_of_child p c : c ∈ children_of g p -> parent_of g c = Some p.
Proof.
  intros Hc. destruct (parent_of g c) as [p'|] eqn:Hp.
  - f_equal. eapply parent_unique; [|done]. by apply parent_of_elem.
  - apply elem_of_children in Hc as [w He].
    by destruct (parent_of_None _ _ Hp _ He).
Qed.

Lemma weight_of_edge p c w : Edge p c w ∈ g_edges g -> weight_of g p c = w.
Proof.
  intros He. unfold weight_of.
  destruct (filter _ _) as [|e es] eqn:Hf.
  - by destruct (filter_nil_not_elem_of _ _ (Edge p c w) Hf).
  - assert (e ∈ filter (λ e, e_src e = p ∧ e_dst e = c) (g_edges g)) as Hein
      by (rewrite Hf; left).
    apply list_elem_of_filter in Hein as [[_ Hd] Hein].
    by rewrite (edge_unique e (Edge p c w) Hein He Hd).
Qed.

Lemma children_NoDup p : NoDup (children_of g p).
Proof.
  unfold children_of. eapply sublist_NoDup; [exact Hin|].
  apply fmap_sublist, sublist_filter.
Qed.

Lemma expand_NoDup l : NoDup l -> NoDup (expand g l).
Proof.
  intros Hl. unfold expand. apply NoDup_bind; [|auto using children_NoDup|done].
  intros ?????. apply parent_unique.
Qed.

Lemma level_NoDup r k : NoDup (level g r k).
Proof.
  induction k as [|k IH]; [apply NoDup_singleton|].
  rewrite level_S. by apply expand_NoDup.
Qed.

Lemma level_unique r j k n :
  acyclic g -> n ∈ level g r j -> n ∈ level g r k -> j = k.
Proof.
  intros Hac. revert k n. induction j as [|j IH]; intros [|k] n; try done.
  - intros ->%list_elem_of_singleton Hk. by apply root_not_below in Hk.
  - intros Hj ->%list_elem_of_singleton. by apply root_not_below in Hj.
  - rewrite !level_S, !elem_of_expand. intros (p & Hp & Hc) (p' & Hp' & Hc').
    rewrite (parent_unique p p' n Hc Hc') in Hp. f_equal. eauto.
Qed.

Lemma bfs_levels_NoDup r fuel j :
  acyclic g -> NoDup (bfs_levels fuel g (level g r j)).
Proof.
  intros Hac. revert j. induction fuel as [|fuel IH]; intros j; simpl.
  { constructor. }
  destruct (level g r j) as [|x l] eqn:Hl; [constructor|]. rewrite <-Hl.
  apply NoDup_app. split; [apply level_NoDup|]. split; [|apply (IH (S j))].
  intros n Hn (k & _ & Hk)%elem_of_bfs_levels.
  change (expand g (level g r j)) with (Nat.iter 1 (expand g) (level g r j)) in Hk.
  unfold level in Hk. rewrite <-!Nat.iter_add in Hk.
  pose proof (level_unique r j (k + 1 + j) n Hac Hn Hk). lia.
Qed.

Lemma bfs_NoDup r : acyclic g -> NoDup (bfs g r).
Proof. intros Hac. apply (bfs_levels_NoDup r _ 0 Hac). Qed.
End indegree.

(** ** The bounded frontier of [getSubtreeLeaves] *)

Lemma frontier_from_det t cur res res' :
  frontier_from t cur res -> frontier_from t cur res' -> res = res'.
Proof.
  induction 1 as [cur Hstop|cur res Hle Hlt _ IH]; inversion 1; subst;
    try done; try tauto; auto.
Qed.

Lemma frontier_from_length t cur res :
  frontier_from t cur res ->
  Z.of_nat (length cur) ≤ subtreeSize t -> Z.of_nat (length res) ≤ subtreeSize t.
Proof. induction 1; auto. Qed.

Lemma grows_spec t cur next :
  grows t cur next = true <->
  Z.of_nat (length next) ≤ subtreeSize t ∧ (length cur < length next)%nat.
Proof.
  unfold grows. rewrite andb_true_iff, !bool_decide_eq_true. tauto.
Qed.

(** Once the loop is past its first turn, [next] is the expansion of [cur],
    and the length of [cur] grows with every turn: the fuel is enough. *)
Lemma leaves_loop_frontier t fuel cur :
  Z.of_nat (length cur) ≤ subtreeSize t ->
  (Z.to_nat (subtreeSize t) < fuel + length cur)%nat ->
  ∃ res, leaves_loop fuel t cur (expand (nxDg t) cur) = Some res
         ∧ frontier_from t cur res.
Proof.
  revert cur. induction fuel as [|fuel IH]; intros cur Hle Hfuel; [lia|].
  simpl. destruct (grows t cur (expand (nxDg t) cur)) eqn:Hg.
  - apply grows_spec in Hg as [Hle' Hlt].
    destruct (IH (expand (nxDg t) cur)) as (res & Hres & Hfr); [done|lia|].
    exists res. split; [done|]. by apply frontier_step.
  - exists cur. split; [done|]. apply frontier_stop.
    intros Hc. apply grows_spec in Hc. congruence.
Qed.

Lemma getSubtreeLeaves_over_cap t n :
  subtreeSize t < Z.of_nat (length (getChildren t n)) ->
  getSubtreeLeaves t n = Raise AssertionError.
Proof.
  intros Hlt. unfold getSubtreeLeaves. rewrite bool_decide_eq_false_2; [done|lia].
Qed.

(** C1: for a node with at most [subtreeSize] direct children,
    [getSubtreeLeaves] returns exactly the frontier obtained from the node's
    children by expanding it level by level while the next level fits the
    cap and is strictly larger; the returned frontier has at most
    [subtreeSize] members. *)
Theorem getSubtreeLeaves_bounded_frontier t n :
  Z.of_nat (length (getChildren t n)) ≤ subtreeSize t ->
  ∃ res, getSubtreeLeaves t n = Ok res
         ∧ bounded_frontier t n res
         ∧ (∀ res', bounded_frontier t n res' -> res' = res)
         ∧ Z.of_nat (length res) ≤ subtreeSize t.
Proof.
  intros Hle.
  assert (∃ res, getSubtreeLeaves t n = Ok res ∧ bounded_frontier t n res)
    as (res & Hres & Hfr).
  { unfold getSubtreeLeaves, bounded_frontier.
    rewrite bool_decide_eq_true_2 by done. cbn [leaves_loop].
    destruct (grows t [] (getChildren t n)) eqn:Hg.
    - apply grows_spec in Hg as [_ Hlt].
      destruct (leaves_loop_frontier t (Z.to_nat (subtreeSize t))
                  (getChildren t n)) as (res & -> & Hfr); [done|lia|].
      by exists res.
    - exists []. split; [done|].
      assert (getChildren t n = []) as ->.
      { destruct (getChildren t n) eqn:E; [done|].
        assert (grows t [] (getChildren t n) = true); [|congruence].
        apply grows_spec. rewrite E in *. simpl. split; [done|lia]. }
      apply frontier_stop. simpl. lia. }
  exists res. repeat split; [done..| |].
  - intros res' Hfr'. eapply frontier_from_det; eauto.
  - eapply frontier_from_length; eauto.
Qed.

(** C2 (as the code has it): a node with more than [subtreeSize] direct
    children fails the assertion that opens [getSubtreeLeaves], and
    [computeSubtreeRoots] fails with it when it is run on that node, be it
    handed over explicitly or as the root of the tree. *)
Theorem getSubtreeLeaves_rejects_over_cap t n fuel :
  subtreeSize t < Z.of_nat (length (getChildren t n)) ->
  getSubtreeLeaves t n = Raise AssertionError
  ∧ (computeSubtreeRoots (S fuel) (Some n) t).1 = Raise AssertionError
  ∧ (rootId t = n ->
     (computeSubtreeRoots (S fuel) None t).1 = Raise AssertionError).
Proof.
  intros Hlt. split; [by apply getSubtreeLeaves_over_cap|]. split.
  - run_m. destruct (bool_decide (n ∈ subtreeRoots t)); run_m; [done|].
    rewrite getSubtreeLeaves_over_cap; done.
  - intros <-. run_m. rewrite bool_decide_eq_false_2 by set_solver. run_m.
    rewrite getSubtreeLeaves_over_cap; done.
Qed.

(** ** [getSubtreeRoot] *)

(** C5 (as the code has it): a name missing from the name index makes the
    lookup on line 91 fail with a [KeyError], and the name of the global
    root is answered with the root's node id. *)
Theorem getSubtreeRoot_unregistered_or_root t name :
  (nameToId t !! name = None -> getSubtreeRoot t name = Raise KeyError)
  ∧ (nameToId t !! name = Some (rootId t) ->
     getSubtreeRoot t name = Ok (AnsNode (rootId t))).
Proof.
  unfold getSubtreeRoot. split; intros ->; [done|].
  by rewrite bool_decide_eq_true_2.
Qed.

(** ** [nameUnlabeledInternalNodes] *)

Lemma bfs_levels_edges fuel g g' l :
  g_edges g = g_edges g' -> bfs_levels fuel g l = bfs_levels fuel g' l.
Proof.
  intros He. revert l. induction fuel as [|fuel IH]; intros l; [done|].
  simpl. destruct l; [done|]. f_equal. rewrite IH. f_equal.
  unfold expand, children_of. by rewrite He.
Qed.

Lemma bfs_edges g g' r : g_edges g = g_edges g' -> bfs g r = bfs g' r.
Proof. intros He. unfold bfs. rewrite He. by apply bfs_levels_edges. Qed.

#[global] Instance unnamed_dec t n : Decision (unnamed t n).
Proof. unfold unnamed. apply _. Defined.

Lemma name_step_edges prefix count t n :
  g_edges (nxDg (name_step prefix (count, t) n).2) = g_edges (nxDg t)
  ∧ g_nodes (nxDg (name_step prefix (count, t) n).2) = g_nodes (nxDg t)
  ∧ rootId (name_step prefix (count, t) n).2 = rootId t.
Proof.
  unfold name_step.
  by destruct (negb (isLeaf t n) && negb (hasName t n)).
Qed.

Lemma name_step_unnamed prefix count t n :
  unnamed t n ->
  (name_step prefix (count, t) n).1 = count + 1
  ∧ g_name (nxDg (name_step prefix (count, t) n).2)
    = <[n := prefix +:+ fmt_d count]> (g_name (nxDg t)).
Proof. intros [Hl Hn]. unfold name_step. by rewrite Hl, Hn. Qed.

Lemma name_step_named prefix count t n :
  ¬ unnamed t n ->
  (name_step prefix (count, t) n).1 = count
  ∧ nxDg (name_step prefix (count, t) n).2 = nxDg t.
Proof.
  intros Hn. unfold name_step, unnamed in *.
  destruct (isLeaf t n), (hasName t n); simpl; try done. by destruct Hn.
Qed.

Lemma isLeaf_edges t t' n :
  g_edges (nxDg t') = g_edges (nxDg t) -> isLeaf t' n = isLeaf t n.
Proof. intros He. unfold isLeaf, getChildren, children_of. by rewrite He. Qed.

Lemma hasName_lookup t n : hasName t n = true <-> is_Some (g_name (nxDg t) !! n).
Proof. unfold hasName. apply bool_decide_eq_true. Qed.

(** What the loop does to the graph, over any list of nodes. *)
Lemma name_loop_frame prefix l count t :
  let t' := (foldl (name_step prefix) (count, t) l).2 in
  g_edges (nxDg t') = g_edges (nxDg t)
  ∧ g_nodes (nxDg t') = g_nodes (nxDg t)
  ∧ rootId t' = rootId t
  ∧ (∀ n, n ∉ l ∨ ¬ unnamed t n ->
          g_name (nxDg t') !! n = g_name (nxDg t) !! n)
  ∧ (∀ n, n ∈ l -> ¬ unnamed t' n).
Proof.
  revert count t. induction l as [|x l IH]; intros count t; cbn [foldl].
  { repeat split; try done. intros n Hn. by apply not_elem_of_nil in Hn. }
  destruct (name_step prefix (count, t) x) as [count1 t1] eqn:Hstep.
  specialize (IH count1 t1). cbv zeta in IH.
  destruct IH as (He & Hnodes & Hr & Hkeep & Hnamed).
  pose proof (name_step_edges prefix count t x) as (He1 & Hn1 & Hr1).
  rewrite Hstep in He1, Hn1, Hr1. simpl in He1, Hn1, Hr1.
  assert (∀ n, isLeaf t1 n = isLeaf t n) as Hleaf by (intros; by apply isLeaf_edges).
  destruct (decide (unnamed t x)) as [Hu|Hu].
  - pose proof (name_step_unnamed prefix count t x Hu) as [_ Hnm].
    rewrite Hstep in Hnm. simpl in Hnm.
    assert (∀ n, hasName t n = true -> hasName t1 n = true) as Hmono.
    { intros n. rewrite !hasName_lookup, Hnm. intros [s Hs].
      destruct (decide (x = n)) as [->|]; [rewrite lookup_insert_eq|rewrite lookup_insert_ne]; eauto. }
    assert (hasName t1 x = true) as Hx.
    { rewrite hasName_lookup, Hnm, lookup_insert_eq. eauto. }
    repeat split; try congruence.
    + intros n [Hn|Hn].
      * assert (x ≠ n ∧ n ∉ l) as [Hxn Hnl].
        { split; [intros ->|intros ?]; apply Hn; by constructor. }
        rewrite Hkeep by (by left). by rewrite Hnm, lookup_insert_ne.
      * assert (x ≠ n) by (intros ->; done).
        rewrite Hkeep.
        -- rewrite Hnm, lookup_insert_ne; done.
        -- right. intros [Hl Hh]. apply Hn. split; [by rewrite <-Hleaf|].
           destruct (hasName t n) eqn:E; [|done]. apply Hmono in E. congruence.
    + intros n Hn. apply elem_of_cons in Hn as [->|Hn]; [|by apply Hnamed].
      intros [_ Hh]. revert Hh. rewrite <-not_true_iff_false, hasName_lookup.
      rewrite Hkeep; [by rewrite <-hasName_lookup|].
      right. intros [_ ?]. congruence.
  - pose proof (name_step_named prefix count t x Hu) as [_ Hg].
    rewrite Hstep in Hg. simpl in Hg.
    assert (∀ n, unnamed t1 n <-> unnamed t n) as Hiff.
    { intros n. unfold unnamed, hasName. by rewrite Hleaf, Hg. }
    repeat split; try congruence.
    + intros n Hn. rewrite Hkeep, Hg; [done|].
      destruct Hn as [Hn|Hn]; [left|right; by rewrite Hiff].
      intros Hl. apply Hn. by right.
    + intros n Hn. apply elem_of_cons in Hn as [->|Hn]; [|by apply Hnamed].
      intros Hx. apply Hu, Hiff.
      destruct Hx as [Hl Hh]. split; [by rewrite <-(isLeaf_edges _ _ _ He)|].
      revert Hh. rewrite <-!not_true_iff_false, !hasName_lookup.
      rewrite Hkeep; [done|]. right. by rewrite Hiff.
Qed.

(** The names handed out, in the order of the list. *)
Lemma name_loop_counter prefix l count t i u :
  NoDup l ->
  filter (unnamed t) l !! i = Some u ->
  g_name (nxDg (foldl (name_step prefix) (count, t) l).2) !! u
  = Some (prefix +:+ fmt_d (count + Z.of_nat i)).
Proof.
  revert count t i. induction l as [|x l IH]; intros count t i Hnd Hi; [done|].
  apply NoDup_cons in Hnd as [Hx Hnd]. cbn [foldl].
  destruct (name_step prefix (count, t) x) as [count1 t1] eqn:Hstep.
  assert (g_edges (nxDg t1) = g_edges (nxDg t)) as He1.
  { pose proof (name_step_edges prefix count t x) as [H _]. by rewrite Hstep in H. }
  rewrite filter_cons in Hi. destruct (decide (unnamed t x)) as [Hu|Hu].
  - pose proof (name_step_unnamed prefix count t x Hu) as [Hc Hnm].
    rewrite Hstep in Hc, Hnm. simpl in Hc, Hnm.
    assert (filter (unnamed t1) l = filter (unnamed t) l) as Hf.
    { apply filter_iff_in. intros n Hn. unfold unnamed.
      rewrite (isLeaf_edges t t1 n He1).
      assert (hasName t1 n = hasName t n) as ->; [|done].
      unfold hasName. rewrite Hnm, lookup_insert_ne; [done|]. by intros ->. }
    destruct i as [|i]; simpl in Hi.
    + injection Hi as <-.
      pose proof (name_loop_frame prefix l count1 t1) as (_ & _ & _ & Hkeep & _).
      rewrite Hkeep by (by left).
      rewrite Hnm, lookup_insert_eq. do 3 f_equal. lia.
    + rewrite <-Hf in Hi. rewrite (IH count1 t1 i Hnd Hi).
      do 3 f_equal. lia.
  - pose proof (name_step_named prefix count t x Hu) as [Hc Hg].
    rewrite Hstep in Hc, Hg. simpl in Hc, Hg.
    assert (filter (unnamed t1) l = filter (unnamed t) l) as Hf.
    { apply filter_iff_in. intros n Hn. unfold unnamed, hasName.
      by rewrite (isLeaf_edges t t1 n He1), Hg. }
    rewrite <-Hf in Hi. rewrite (IH count1 t1 i Hnd Hi). by rewrite Hc.
Qed.

(** A pass over nodes none of which the loop names leaves the graph alone. *)
Lemma name_loop_idle prefix l count t :
  (∀ n, n ∈ l -> ¬ unnamed t n) ->
  nxDg (foldl (name_step prefix) (count, t) l).2 = nxDg t.
Proof.
  revert count t. induction l as [|x l IH]; intros count t Hl; [done|]. cbn [foldl].
  destruct (name_step prefix (count, t) x) as [count1 t1] eqn:Hstep.
  pose proof (name_step_named prefix count t x (Hl x ltac:(left))) as [_ Hg].
  rewrite Hstep in Hg. simpl in Hg.
  rewrite IH; [done|]. intros n Hn. unfold unnamed, isLeaf, hasName, getChildren.
  rewrite Hg. apply Hl. by right.
Qed.

(** The nodes still to be named are the same after a turn of the loop at
    another node. *)
Lemma name_step_filter prefix count t x l :
  x ∉ l ->
  filter (unnamed (name_step prefix (count, t) x).2) l = filter (unnamed t) l.
Proof.
  intros Hx.
  pose proof (name_step_edges prefix count t x) as [He1 _].
  apply filter_iff_in. intros n Hn. unfold unnamed.
  rewrite (isLeaf_edges t _ n He1).
  assert (hasName (name_step prefix (count, t) x).2 n = hasName t n) as ->; [|done].
  unfold hasName. destruct (decide (unnamed t x)) as [Hu|Hu].
  - pose proof (name_step_unnamed prefix count t x Hu) as [_ ->].
    rewrite lookup_insert_ne; [done|]. by intros ->.
  - by pose proof (name_step_named prefix count t x Hu) as [_ ->].
Qed.

(** The names carried after a turn of the loop: those carried before, and
    the generated one. *)
Lemma name_step_free prefix count t x s :
  name_free t s -> s ≠ prefix +:+ fmt_d count ->
  name_free (name_step prefix (count, t) x).2 s.
Proof.
  rewrite !name_free_lookup. intros Hf Hs m.
  destruct (decide (unnamed t x)) as [Hu|Hu].
  - pose proof (name_step_unnamed prefix count t x Hu) as [_ ->].
    destruct (decide (x = m)) as [->|Hne].
    + rewrite lookup_insert_eq. congruence.
    + rewrite lookup_insert_ne by done. apply Hf.
  - pose proof (name_step_named prefix count t x Hu) as [_ ->]. apply Hf.
Qed.

(** The loop of the code runs to its end, through the states of
    [name_step], when the names it generates are carried by no node. *)
Lemma name_loop_run prefix l count t :
  NoDup l ->
  (∀ k, (k < length (filter (unnamed t) l))%nat ->
        name_free t (prefix +:+ fmt_d (count + Z.of_nat k))) ->
  name_loop prefix l count t
  = (Ok tt, (foldl (name_step prefix) (count, t) l).2).
Proof.
  revert count t. induction l as [|x l IH]; intros count t Hnd Hfree; [done|].
  apply NoDup_cons in Hnd as [Hx Hnd].
  pose proof (name_step_filter prefix count t x l Hx) as Hfil.
  cbn [foldl name_loop]. rewrite filter_cons in Hfree.
  destruct (decide (unnamed t x)) as [Hu|Hu].
  - pose proof (name_step_unnamed prefix count t x Hu) as [Hc _].
    assert (name_free t (prefix +:+ fmt_d count)) as H0.
    { specialize (Hfree 0%nat). rewrite Z.add_0_r in Hfree.
      apply Hfree. simpl. lia. }
    assert (name_loop prefix l (count + 1) (name_step prefix (count, t) x).2
            = (Ok tt, (foldl (name_step prefix)
                         (count + 1, (name_step prefix (count, t) x).2) l).2))
      as Hrest.
    { apply IH; [done|]. intros k Hk. rewrite Hfil in Hk.
      apply name_step_free.
      - replace (count + 1 + Z.of_nat k) with (count + Z.of_nat (S k)) by lia.
        apply Hfree. simpl. lia.
      - intros Heq%string_app_inj%fmt_d_inj. lia. }
    destruct (name_step prefix (count, t) x) as [count1 t1] eqn:Hstep.
    cbn [fst snd] in Hc, Hrest. subst count1. rewrite <-Hrest. clear Hrest IH Hfil.
    unfold name_step in Hstep. destruct Hu as [Hl Hn].
    rewrite Hl, Hn in Hstep. simpl in Hstep. injection Hstep as <-.
    unfold mbind, M_bind, gets at 1 2. rewrite Hl, Hn. cbn [negb andb].
    rewrite setName_ok by (by apply name_free_not_taken). done.
  - pose proof (name_step_named prefix count t x Hu) as [Hc _].
    assert (name_loop prefix l count (name_step prefix (count, t) x).2
            = (Ok tt, (foldl (name_step prefix)
                         (count, (name_step prefix (count, t) x).2) l).2))
      as Hrest.
    { apply IH; [done|]. intros k Hk. rewrite Hfil in Hk.
      pose proof (name_step_named prefix count t x Hu) as [_ Hg].
      apply name_free_lookup. intros m. rewrite Hg.
      by apply name_free_lookup, Hfree. }
    destruct (name_step prefix (count, t) x) as [count1 t1] eqn:Hstep.
    cbn [fst snd] in Hc, Hrest. subst count1. rewrite <-Hrest. clear Hrest IH Hfil.
    unfold name_step in Hstep. unfold unnamed in Hu.
    unfold mbind, M_bind, gets at 1 2.
    destruct (isLeaf t x), (hasName t x); cbn [negb andb] in *;
      try (injection Hstep as <-; done).
    by destruct Hu.
Qed.

(** One turn of the loop of the code. *)
Lemma name_loop_cons prefix x l count t :
  name_loop prefix (x :: l) count t
  = if negb (isLeaf t x) && negb (hasName t x)
    then match setName x (prefix +:+ fmt_d count) t with
         | (Ok _, t1) =>
             name_loop prefix l (count + 1) (index_name (getName t1 x) x t1)
         | (Raise e, t1) => (Raise e, t1)
         end
    else name_loop prefix l count (index_name (getName t x) x t).
Proof.
  cbn [name_loop]. unfold mbind, M_bind, gets, modify, mret, M_ret.
  destruct (negb (isLeaf t x) && negb (hasName t x)); [|done].
  by destruct (setName x (prefix +:+ fmt_d count) t) as [[[]|e] t1].
Qed.

(** Whether it reaches its end or stops at a name in use, the loop leaves
    the edges alone and names only nodes it finds unnamed and internal. *)
Lemma name_loop_keeps prefix l count t :
  let t' := (name_loop prefix l count t).2 in
  g_edges (nxDg t') = g_edges (nxDg t)
  ∧ (∀ n, ¬ unnamed t n -> g_name (nxDg t') !! n = g_name (nxDg t) !! n).
Proof.
  revert count t. induction l as [|x l IH]; intros count t; cbv zeta; [done|].
  rewrite name_loop_cons.
  destruct (decide (unnamed t x)) as [Hu|Hu].
  - destruct (Hu) as [Hl Hn]. rewrite Hl, Hn. cbn [negb andb].
    destruct (name_taken_b (nxDg t) x (prefix +:+ fmt_d count)) eqn:Htaken.
    + apply name_taken_b_spec in Htaken.
      by rewrite (setName_conflict t x _ Htaken).
    + assert (¬ name_taken (nxDg t) x (prefix +:+ fmt_d count)) as Hfree.
      { rewrite <-name_taken_b_spec. by rewrite Htaken. }
      rewrite (setName_ok t x _ Hfree).
      set (t1 := index_name _ x (put_name x _ t)).
      destruct (IH (count + 1) t1) as [He Hkeep]. cbv zeta in He, Hkeep.
      split; [by rewrite He|].
      intros n Hnu. assert (x ≠ n) as Hne by (by intros ->).
      rewrite Hkeep.
      * subst t1. cbn. by rewrite lookup_insert_ne.
      * intros [Hl' Hn']. apply Hnu. split; [done|].
        revert Hn'. rewrite <-!not_true_iff_false, !hasName_lookup.
        subst t1. cbn. by rewrite lookup_insert_ne.
  - assert (negb (isLeaf t x) && negb (hasName t x) = false) as ->.
    { unfold unnamed in Hu. destruct (isLeaf t x), (hasName t x); try done.
      by destruct Hu. }
    set (t1 := index_name _ x t).
    destruct (IH count t1) as [He Hkeep]. cbv zeta in He, Hkeep.
    split; [done|]. intros n Hnu. by rewrite Hkeep.
Qed.

(** The decimal rendering of the counter, [%d]: distinct counters give
    distinct texts, and small ones give their usual numerals. *)
Lemma fmt_d_values :
  fmt_d 0 = "0" ∧ fmt_d 7 = "7" ∧ fmt_d 10 = "10" ∧ fmt_d 123 = "123"
  ∧ fmt_d (-4) = "-4".
Proof. by vm_compute. Qed.

(** C8: on every tree, and whether or not it reaches its end,
    [nameUnlabeledInternalNodes] leaves the name of every node that has
    one, and of every leaf, as it was.  On a tree none of whose nodes
    carries one of the names to be generated it returns; the internal nodes
    without a name, taken in breadth-first order, get the prefix followed
    by the decimal numeral of [startIdx], [startIdx + 1], ... (distinct
    counters give distinct numerals, and 0, 7, 10, 123 give "0", "7", "10",
    "123"); and a second call with the same arguments returns and changes
    no name (the graph stays as the first call left it). *)
Theorem nameUnlabeledInternalNodes_names prefix startIdx t :
  (∀ n, hasName t n = true ∨ isLeaf t n = true ->
        g_name (nxDg (nameUnlabeledInternalNodes prefix startIdx t).2) !! n
        = g_name (nxDg t) !! n)
  ∧ (is_tree t ->
     (∀ k, (k < length (filter (unnamed t) (breadthFirstTraversal t)))%nat ->
           name_free t (prefix +:+ fmt_d (startIdx + Z.of_nat k))) ->
     ∃ t' t'',
       nameUnlabeledInternalNodes prefix startIdx t = (Ok tt, t')
       ∧ (∀ i u, filter (unnamed t) (breadthFirstTraversal t) !! i = Some u ->
                 g_name (nxDg t') !! u
                 = Some (prefix +:+ fmt_d (startIdx + Z.of_nat i)))
       ∧ (∀ a b, fmt_d a = fmt_d b -> a = b)
       ∧ (fmt_d 0 = "0" ∧ fmt_d 7 = "7" ∧ fmt_d 10 = "10" ∧ fmt_d 123 = "123")
       ∧ nameUnlabeledInternalNodes prefix startIdx t' = (Ok tt, t'')
       ∧ nxDg t'' = nxDg t').
Proof.
  split.
  { intros n Hn. unfold nameUnlabeledInternalNodes, mbind, M_bind, gets.
    apply name_loop_keeps. intros [Hl Hh]. destruct Hn; congruence. }
  intros Htree Hfree.
  pose proof (name_loop_frame prefix (breadthFirstTraversal t) startIdx t)
    as Hframe.
  cbv zeta in Hframe. destruct Hframe as (He & _ & Hr & Hkeep & Hnamed).
  assert (NoDup (breadthFirstTraversal t)) as Hnd
    by (apply bfs_NoDup; apply Htree).
  set (t' := (foldl (name_step prefix) (startIdx, t) (breadthFirstTraversal t)).2)
    in *.
  assert (breadthFirstTraversal t' = breadthFirstTraversal t) as Hbfs.
  { unfold breadthFirstTraversal at 1 2. rewrite Hr. by apply bfs_edges. }
  exists t', (foldl (name_step prefix) (startIdx, t') (breadthFirstTraversal t')).2.
  split_and!.
  - unfold nameUnlabeledInternalNodes, mbind, M_bind, gets.
    by apply name_loop_run.
  - intros i u Hi. by apply name_loop_counter.
  - apply fmt_d_inj.
  - apply fmt_d_values.
  - apply fmt_d_values.
  - apply fmt_d_values.
  - apply fmt_d_values.
  - unfold nameUnlabeledInternalNodes, mbind, M_bind, gets.
    apply name_loop_run; [by rewrite Hbfs|].
    intros k Hk. exfalso. rewrite Hbfs in Hk.
    assert (filter (unnamed t') (breadthFirstTraversal t) = []) as Hnil.
    { destruct (filter (unnamed t') (breadthFirstTraversal t)) as [|n ?] eqn:Hf;
        [done|].
      assert (n ∈ filter (unnamed t') (breadthFirstTraversal t)) as Hn
        by (rewrite Hf; left).
      apply list_elem_of_filter in Hn as [Hu Hn]. by apply Hnamed in Hn. }
    rewrite Hnil in Hk. simpl in Hk. lia.
  - apply name_loop_idle. intros n Hn. apply Hnamed. by rewrite <-Hbfs.
Qed.

(** ** Fresh node ids *)

Lemma foldr_max_ge r l n : n ∈ l -> n ≤ foldr Z.max r l.
Proof.
  induction l as [|x l IH]; [by intros ?%not_elem_of_nil|].
  intros [->|Hn]%elem_of_cons; simpl; [lia|]. specialize (IH Hn). lia.
Qed.

Lemma bfs_lt_next t n : n ∈ breadthFirstTraversal t -> n < getNextIndex t.
Proof.
  intros Hn. unfold getNextIndex.
  pose proof (foldr_max_ge (rootId t) _ n Hn). lia.
Qed.

Lemma tree_nodes_bfs t n :
  is_tree t -> n ∈ g_nodes (nxDg t) -> n ∈ breadthFirstTraversal t.
Proof.
  intros Ht Hn. apply elem_of_bfs; [apply Ht|]. by apply tree_connected.
Qed.

Lemma tree_node_lt_next t n :
  is_tree t -> n ∈ g_nodes (nxDg t) -> n < getNextIndex t.
Proof. intros Ht Hn. by apply bfs_lt_next, tree_nodes_bfs. Qed.

Lemma tree_edge_lt_next t e :
  is_tree t -> e ∈ g_edges (nxDg t) ->
  e_src e < getNextIndex t ∧ e_dst e < getNextIndex t.
Proof.
  intros Ht He. destruct (tree_ends t Ht e He).
  split; by apply tree_node_lt_next.
Qed.

(** ** Edge-list effects of the graph updates *)

Lemma existsb_is_edge_false u v (es : list (edge (W:=W))) :
  (∀ e, e ∈ es -> ¬ (e_src e = u ∧ e_dst e = v)) ->
  existsb (is_edge u v) es = false.
Proof.
  intros Hes. apply not_true_iff_false. intros (e & He & Hx)%existsb_exists.
  apply (Hes e); [by apply list_elem_of_In|].
  unfold is_edge in Hx. apply andb_true_iff in Hx as [?%bool_decide_eq_true ?%bool_decide_eq_true].
  done.
Qed.

Lemma set_weight_absent u v (w : W) (es : list (edge (W:=W))) :
  (∀ e, e ∈ es -> ¬ (e_src e = u ∧ e_dst e = v)) ->
  (λ e, if is_edge u v e then Edge u v (Some w) else e) <$> es = es.
Proof.
  intros Hes. induction es as [|e es IH]; [done|].
  rewrite fmap_cons, IH by (intros; apply Hes; by right). f_equal.
  unfold is_edge. specialize (Hes e ltac:(left)).
  do 2 (case_bool_decide; simpl; try done). tauto.
Qed.

Lemma add_node_present n g : n ∈ g_nodes g -> add_node n g = g.
Proof. intros Hn. unfold add_node. by rewrite bool_decide_eq_true_2. Qed.

Lemma add_node_absent n g :
  n ∉ g_nodes g ->
  add_node n g = mkDiGraph (g_nodes g ++ [n]) (g_name g) (g_edges g).
Proof. intros Hn. unfold add_node. by rewrite bool_decide_eq_false_2. Qed.

(** Hanging a fresh node [v] under [u] and setting the weight of the new
    edge, or leaving it unset. *)
Lemma add_edge_fresh u v (ow : option W) g :
  u ∈ g_nodes g -> v ∉ g_nodes g ->
  (∀ e, e ∈ g_edges g -> e_dst e ≠ v) ->
  (match ow with Some w => set_weight u v w | None => id end) (add_edge u v g)
  = mkDiGraph (g_nodes g ++ [v]) (g_name g) (g_edges g ++ [Edge u v ow]).
Proof.
  intros Hu Hv He. unfold add_edge.
  rewrite (add_node_present u) by done. rewrite (add_node_absent v) by done.
  cbn [g_edges g_nodes g_name].
  rewrite existsb_is_edge_false by (intros e ? [_ ?]; by eapply He).
  destruct ow as [w|]; [|done]. unfold set_weight. cbn [g_edges g_nodes g_name].
  rewrite fmap_app, set_weight_absent by (intros e ? [_ ?]; by eapply He).
  simpl. unfold is_edge. by rewrite !bool_decide_eq_true_2.
Qed.

Lemma add_edge_present u v (ow : option W) g :
  u ∈ g_nodes g -> v ∈ g_nodes g ->
  (∀ e, e ∈ g_edges g -> ¬ (e_src e = u ∧ e_dst e = v)) ->
  (match ow with Some w => set_weight u v w | None => id end) (add_edge u v g)
  = mkDiGraph (g_nodes g) (g_name g) (g_edges g ++ [Edge u v ow]).
Proof.
  intros Hu Hv He. unfold add_edge.
  rewrite (add_node_present u) by done. rewrite (add_node_present v) by done.
  rewrite existsb_is_edge_false by done.
  destruct ow as [w|]; [|done]. unfold set_weight. cbn [g_edges g_nodes g_name].
  rewrite fmap_app, set_weight_absent by done.
  simpl. unfold is_edge. by rewrite !bool_decide_eq_true_2.
Qed.

(** ** [insertAbove] on the edge list *)

(** Above the root: the new node becomes the root, unless another node
    carries its name. *)
Lemma insertAbove_root t new name (ow : option W) :
  getParent t (rootId t) = None ->
  rootId t ∈ g_nodes (nxDg t) ->
  new ∉ g_nodes (nxDg t) ->
  ¬ name_taken (nxDg t) new name ->
  insertAbove (rootId t) new name ow t
  = (Ok tt,
     mkTree (mkDiGraph (g_nodes (nxDg t) ++ [new])
                       (<[new := name]> (g_name (nxDg t)))
                       (g_edges (nxDg t) ++ [Edge new (rootId t) ow]))
            new (subtreeRoots t) (index_if_named name new (nameToId t))
            (subtreeSize t)).
Proof.
  intros Hp Hr Hnew Hfree. unfold insertAbove. run_m. rewrite Hp. run_m.
  rewrite bool_decide_eq_true_2 by done. run_m.
  rewrite (setName_names t) by (done || apply add_node_names).
  destruct t as [g r sr idx size]. simpl in *.
  assert (∀ ow' : option W,
    (match ow' with Some w => set_weight new r w | None => id end)
      (add_edge new r (set_name new name (add_node new g)))
    = mkDiGraph (g_nodes g ++ [new]) (<[new := name]> (g_name g))
        (g_edges g ++ [Edge new r ow'])) as Hg.
  { intros ow'. rewrite add_node_absent by done. unfold set_name.
    cbn [g_nodes g_name g_edges]. rewrite add_edge_present; [done|..].
    - cbn. apply elem_of_app. right. by left.
    - cbn. apply elem_of_app. by left.
    - cbn. intros e He [_ Hd]. by eapply parent_of_None. }
  unfold index_if_named, setWeight, put_name, with_graph, index_name.
  destruct ow as [w|]; run_m; case_bool_decide; run_m;
    first [by rewrite <-(Hg (Some w))|by rewrite <-(Hg None)].
Qed.

Lemma insertAbove_root_conflict t new name (ow : option W) :
  getParent t (rootId t) = None ->
  name_taken (nxDg t) new name ->
  (insertAbove (rootId t) new name ow t).1 = Raise Conflict.
Proof.
  intros Hp Htaken. unfold insertAbove. run_m. rewrite Hp. run_m.
  rewrite bool_decide_eq_true_2 by done. run_m.
  by rewrite (setName_conflict_names t) by (done || apply add_node_names).
Qed.

(** ** [addOutgroup] *)

(** Settles a query on a short, explicit edge list by cases on the node
    comparisons in it. *)
Ltac by_cases :=
  unfold getChildren, children_of, getWeight, weight_of; cbn;
  repeat (case_decide; cbn in * ); try done; try lia.


Lemma reach_leaf g r n : children_of g r = [] -> reach g r n -> n = r.
Proof.
  intros Hr. induction 1 as [|p c _ -> Hc]; [done|].
  rewrite Hr in Hc. by apply not_elem_of_nil in Hc.
Qed.

Lemma leaf_root_nodes t n :
  is_tree t -> isLeaf t (rootId t) = true -> n ∈ g_nodes (nxDg t) -> n = rootId t.
Proof.
  intros Ht Hl%bool_decide_eq_true Hn.
  eapply reach_leaf; [done|]. by apply tree_connected.
Qed.

Lemma leaf_root_edges t :
  is_tree t -> isLeaf t (rootId t) = true -> g_edges (nxDg t) = [].
Proof.
  intros Ht Hl. destruct (g_edges (nxDg t)) as [|[s d w] es] eqn:He; [done|].
  assert (Edge s d w ∈ g_edges (nxDg t)) as Hin by (rewrite He; left).
  destruct (tree_ends t Ht _ Hin) as [Hs _]. simpl in Hs.
  apply (leaf_root_nodes t s Ht Hl) in Hs as ->.
  apply bool_decide_eq_true in Hl.
  assert (d ∈ getChildren t (rootId t)) as Hd by (apply elem_of_children; eauto).
  rewrite Hl in Hd. by apply not_elem_of_nil in Hd.
Qed.

(** The last four statements of [addOutgroup]: a fresh leaf [og] under [r]. *)
Lemma attach_leaf t r og name (d : W) :
  r ∈ g_nodes (nxDg t) -> og ∉ g_nodes (nxDg t) ->
  (∀ e, e ∈ g_edges (nxDg t) -> e_dst e ≠ og) ->
  setWeight r og d (index_name name og (put_name og name
    (with_graph (add_edge r og) t)))
  = mkTree (mkDiGraph (g_nodes (nxDg t) ++ [og])
                      (<[og := name]> (g_name (nxDg t)))
                      (g_edges (nxDg t) ++ [Edge r og (Some d)]))
           (rootId t) (subtreeRoots t) (<[name := og]> (nameToId t))
           (subtreeSize t).
Proof.
  intros Hr Hog He.
  pose proof (add_edge_fresh r og (Some d) (nxDg t) Hr Hog He) as Hg.
  unfold setWeight, index_name, put_name, with_graph. cbn.
  f_equal. revert Hg. generalize (add_edge r og (nxDg t)). intros g' Hg.
  unfold set_weight, set_name in *. cbn in *. by injection Hg as -> -> ->.
Qed.

Lemma bfs_no_edges g r : g_edges g = [] -> bfs g r = [r].
Proof. intros He. unfold bfs. rewrite He. done. Qed.

(** The new root put above a leaf root, and the next free id after it. *)
Lemma split_leaf_root t name (d : W) :
  is_tree t -> isLeaf t (rootId t) = true ->
  ¬ name_taken (nxDg t) (getNextIndex t) name ->
  let r' := getNextIndex t in
  let t1 := mkTree (mkDiGraph (g_nodes (nxDg t) ++ [r'])
                      (<[r' := name]> (g_name (nxDg t)))
                      [Edge r' (rootId t) (Some d)])
                   r' (subtreeRoots t) (index_if_named name r' (nameToId t))
                   (subtreeSize t) in
  insertAbove (rootId t) r' name (Some d) t = (Ok tt, t1)
  ∧ getNextIndex t1 = r' + 1.
Proof.
  intros Ht Hleaf Hfree r' t1.
  pose proof (leaf_root_edges t Ht Hleaf) as He.
  assert (getParent t (rootId t) = None) as Hp
    by (unfold getParent, parent_of; by rewrite He).
  assert (rootId t < r') as Hr by (apply tree_node_lt_next; apply Ht).
  assert (r' ∉ g_nodes (nxDg t)) as Hnew.
  { intros H%(tree_node_lt_next t _ Ht). subst r'. lia. }
  split.
  - rewrite (insertAbove_root t _ _ _ Hp (tree_root t Ht) Hnew Hfree).
    subst t1. by rewrite He.
  - unfold getNextIndex at 1, breadthFirstTraversal, bfs, t1. cbn.
    unfold children_of. cbn. rewrite decide_True by done. cbn.
    fold r'. lia.
Qed.

Lemma addOutgroup_leaf_root half t ogName distance :
  is_tree t -> nameToId t !! ogName = None ->
  isLeaf t (rootId t) = true ->
  name_free t ogName -> name_free t "" -> ogName ≠ "" ->
  let r' := getNextIndex t in
  let og := r' + 1 in
  addOutgroup half ogName distance t
  = (Ok tt,
     mkTree (mkDiGraph (g_nodes (nxDg t) ++ [r'; og])
               (<[og := ogName]> (<[r' := EmptyString]> (g_name (nxDg t))))
               [Edge r' (rootId t) (Some (half distance));
                Edge r' og (Some (half distance))])
            r' (subtreeRoots t) (<[ogName := og]> (nameToId t))
            (subtreeSize t)).
Proof.
  intros Ht Hfree Hleaf Hnew_name Hnoempty Hog r' og.
  assert (∀ n, n ∈ g_nodes (nxDg t) -> n < r') as Hlt
    by (intros; by apply tree_node_lt_next).
  assert (rootId t < r') as Hr by (apply Hlt, Ht).
  destruct (split_leaf_root t "" (half distance) Ht Hleaf) as [Hins Hnext];
    [by apply name_free_not_taken|].
  unfold addOutgroup. run_m.
  rewrite bool_decide_eq_false_2 by (rewrite Hfree; by intros [? ?]).
  run_m. rewrite Hleaf. run_m. fold r' in Hins, Hnext |- *.
  rewrite Hins. run_m. rewrite Hnext. fold og.
  set (t1 := mkTree _ _ _ _ _).
  rewrite (setName_names t1).
  - rewrite attach_leaf.
    + cbn. by rewrite <-app_assoc.
    + cbn. apply elem_of_app. right. by left.
    + cbn. intros [H|H]%elem_of_app;
        [apply Hlt in H|apply list_elem_of_singleton in H]; lia.
    + cbn. intros e ->%list_elem_of_singleton. cbn. lia.
  - apply add_edge_names.
  - intros (m & Hm & Hcarried). cbn in Hcarried.
    destruct (decide (r' = m)) as [<-|Hne].
    + rewrite lookup_insert_eq in Hcarried. congruence.
    + rewrite lookup_insert_ne in Hcarried by done.
      by apply name_free_lookup in Hcarried.
Qed.

Lemma addOutgroup_inner_root half t ogName distance :
  is_tree t -> nameToId t !! ogName = None ->
  isLeaf t (rootId t) = false ->
  name_free t ogName ->
  let og := getNextIndex t in
  addOutgroup half ogName distance t
  = (Ok tt,
     mkTree (mkDiGraph (g_nodes (nxDg t) ++ [og])
               (<[og := ogName]> (g_name (nxDg t)))
               (g_edges (nxDg t) ++ [Edge (rootId t) og (Some distance)]))
            (rootId t) (subtreeRoots t) (<[ogName := og]> (nameToId t))
            (subtreeSize t)).
Proof.
  intros Ht Hfree Hleaf Hnew_name og.
  assert (og ∉ g_nodes (nxDg t)) as Hnew.
  { intros H%(tree_node_lt_next t _ Ht). subst og. lia. }
  unfold addOutgroup. run_m.
  rewrite bool_decide_eq_false_2 by (rewrite Hfree; by intros [? ?]).
  run_m. rewrite Hleaf. run_m.
  rewrite (setName_names t)
    by (apply add_edge_names || by apply name_free_not_taken).
  rewrite attach_leaf; [done|apply Ht|done|].
  intros e He. pose proof (tree_edge_lt_next t e Ht He). fold og in H. lia.
Qed.

(** C3: on a tree whose root [r] is a leaf, [addOutgroup] puts a new root
    [r'] above [r] and hangs the new leaf [og] under it; the new root has
    exactly the two children [r] and [og], each at [half distance].  On a
    tree whose root is not a leaf it adds the one leaf [og] under the root
    at [distance], and nothing else changes.  The outgroup's name is new:
    it is not in the index and no node carries it; above a leaf root, where
    the new root is given the empty name, the empty name is new as well. *)
Theorem addOutgroup_shape half t ogName distance :
  is_tree t -> nameToId t !! ogName = None ->
  name_free t ogName ->
  (isLeaf t (rootId t) = true -> name_free t "" ∧ ogName ≠ "") ->
  let r := rootId t in
  (isLeaf t r = true ->
   ∃ r' og t',
     addOutgroup half ogName distance t = (Ok tt, t')
     ∧ r' ∉ g_nodes (nxDg t) ∧ og ∉ g_nodes (nxDg t) ∧ r' ≠ og
     ∧ t' = mkTree (mkDiGraph (g_nodes (nxDg t) ++ [r'; og])
                     (<[og := ogName]> (<[r' := EmptyString]> (g_name (nxDg t))))
                     [Edge r' r (Some (half distance));
                      Edge r' og (Some (half distance))])
                   r' (subtreeRoots t) (<[ogName := og]> (nameToId t))
                   (subtreeSize t)
     ∧ getChildren t' (rootId t') = [r; og]
     ∧ getWeight t' (rootId t') r = Some (half distance)
     ∧ getWeight t' (rootId t') og = Some (half distance)
     ∧ isLeaf t' og = true ∧ isLeaf t' r = true)
  ∧ (isLeaf t r = false ->
     ∃ og t',
       addOutgroup half ogName distance t = (Ok tt, t')
       ∧ og ∉ g_nodes (nxDg t)
       ∧ t' = mkTree (mkDiGraph (g_nodes (nxDg t) ++ [og])
                       (<[og := ogName]> (g_name (nxDg t)))
                       (g_edges (nxDg t) ++ [Edge r og (Some distance)]))
                     r (subtreeRoots t) (<[ogName := og]> (nameToId t))
                     (subtreeSize t)
       ∧ isLeaf t' og = true).
Proof.
  intros Ht Hfree Hnew_name Hempty r. subst r.
  assert (∀ n, n ∈ g_nodes (nxDg t) -> n < getNextIndex t) as Hlt
    by (intros; by apply tree_node_lt_next).
  assert (getNextIndex t ∉ g_nodes (nxDg t)) as Hnew
    by (intros H%Hlt; lia).
  split; intros Hleaf.
  - set (r' := getNextIndex t). set (og := r' + 1).
    destruct (Hempty Hleaf) as [Hnoempty Hog].
    assert (rootId t < r') as Hr by (apply Hlt, Ht).
    eexists r', og, _. split_and!; [|done| |lia|reflexivity|..].
    + by apply addOutgroup_leaf_root.
    + intros H%Hlt. lia.
    + by_cases.
    + by_cases.
    + by_cases.
    + apply bool_decide_eq_true. by_cases.
    + apply bool_decide_eq_true. by_cases.
  - set (og := getNextIndex t).
    eexists og, _. split_and!; [|done|reflexivity|].
    + by apply addOutgroup_inner_root.
    + apply bool_decide_eq_true, children_of_fresh. cbn.
      intros e [He|He]%elem_of_app;
        [|apply list_elem_of_singleton in He as ->]; cbn.
      * pose proof (tree_edge_lt_next t e Ht He). fold og in H. lia.
      * pose proof (Hlt _ (tree_root t Ht)). fold og in H. lia.
Qed.

(** ** [addOutgroup] and names already in use *)

(** C9: when the outgroup name is already in the name index, [addOutgroup]
    raises the assertion error at once and leaves the whole tree as it was.
    When the name is not in the index, [addOutgroup] on a tree goes through
    if no node carries the name (and, above a leaf root, none carries the
    empty name of the new root, which the outgroup's name must differ
    from); but if a node of the tree carries the name, unindexed, it fails
    with the Conflict of [setName]. *)
Theorem addOutgroup_conflict half t ogName distance :
  (is_Some (nameToId t !! ogName) ->
   addOutgroup half ogName distance t = (Raise AssertionError, t))
  ∧ (nameToId t !! ogName = None -> is_tree t ->
     name_free t ogName ->
     (isLeaf t (rootId t) = true -> name_free t "" ∧ ogName ≠ "") ->
     (addOutgroup half ogName distance t).1 = Ok tt)
  ∧ (nameToId t !! ogName = None -> is_tree t ->
     (∃ m, m ∈ g_nodes (nxDg t) ∧ g_name (nxDg t) !! m = Some ogName) ->
     (addOutgroup half ogName distance t).1 = Raise Conflict).
Proof.
  split_and!.
  - intros Hin. unfold addOutgroup. run_m. by rewrite bool_decide_eq_true_2.
  - intros Hnone Ht Hnew_name Hempty.
    destruct (isLeaf t (rootId t)) eqn:Hleaf.
    + destruct Hempty as [Hnoempty Hog]; [done|].
      by rewrite addOutgroup_leaf_root.
    + by rewrite addOutgroup_inner_root.
  - intros Hnone Ht (m & Hm & Hcarried).
    assert (m < getNextIndex t) as Hlt by (by apply tree_node_lt_next).
    unfold addOutgroup. run_m.
    rewrite bool_decide_eq_false_2 by (rewrite Hnone; by intros [? ?]).
    run_m. destruct (isLeaf t (rootId t)) eqn:Hleaf; run_m.
    + destruct (name_taken_b (nxDg t) (getNextIndex t) "") eqn:Htaken.
      * apply name_taken_b_spec in Htaken.
        assert (getParent t (rootId t) = None) as Hp.
        { unfold getParent, parent_of. by rewrite (leaf_root_edges t Ht Hleaf). }
        pose proof (insertAbove_root_conflict t _ "" (Some (half distance))
                      Hp Htaken) as Hfail.
        destruct (insertAbove _ _ _ _ t) as [res t1]. cbn in Hfail. by subst res.
      * assert (¬ name_taken (nxDg t) (getNextIndex t) "") as Hfree.
        { rewrite <-name_taken_b_spec. by rewrite Htaken. }
        destruct (split_leaf_root t "" (half distance) Ht Hleaf Hfree)
          as [-> Hnext].
        run_m. rewrite Hnext. set (t1 := mkTree _ _ _ _ _).
        rewrite (setName_conflict_names t1); [done|apply add_edge_names|].
        exists m. split; [lia|]. cbn. by rewrite lookup_insert_ne by lia.
    + rewrite (setName_conflict_names t); [done|apply add_edge_names|].
      exists m. split; [lia|done].
Qed.

(** ** [insertAbove] below the root *)

Lemma insertAbove_run t node p new name (ow : option W) :
  getParent t node = Some p ->
  ¬ name_taken (nxDg t) new name ->
  insertAbove node new name ow t
  = (Ok tt,
     mkTree (graft p node new name (getWeight t p node) ow (nxDg t))
            (rootId t) (subtreeRoots t) (index_if_named name new (nameToId t))
            (subtreeSize t)).
Proof.
  intros Hp Hfree. unfold insertAbove.
  cbv beta iota delta [mbind M_bind gets]. rewrite Hp.
  destruct (getWeight t p node) as [w1|];
    cbv beta iota delta [mbind M_bind gets modify mret M_ret];
    (rewrite (setName_names t);
     [|cbn [nxDg with_graph setWeight];
       by rewrite add_node_names, ?set_weight_names, add_edge_names,
         remove_edge_names
      |done]);
    destruct t as [g r sr idx size], ow as [w2|];
    cbv beta iota delta [mbind M_bind gets modify mret M_ret with_graph
      setWeight put_name index_name index_if_named graft id nxDg rootId
      subtreeRoots nameToId subtreeSize];
    destruct (bool_decide _); reflexivity.
Qed.

Lemma insertAbove_conflict t node p new name (ow : option W) :
  getParent t node = Some p ->
  name_taken (nxDg t) new name ->
  (insertAbove node new name ow t).1 = Raise Conflict.
Proof.
  intros Hp Htaken. unfold insertAbove.
  cbv beta iota delta [mbind M_bind gets]. rewrite Hp.
  destruct (getWeight t p node) as [w1|];
    cbv beta iota delta [mbind M_bind gets modify mret M_ret];
    (rewrite (setName_conflict_names t);
     [done
     |cbn [nxDg with_graph setWeight];
       by rewrite add_node_names, ?set_weight_names, add_edge_names,
         remove_edge_names
     |done]).
Qed.

Lemma graft_edges p node new name (ow1 ow2 : option W) g :
  p ∈ g_nodes g -> node ∈ g_nodes g -> new ∉ g_nodes g ->
  (∀ e, e ∈ g_edges g -> e_src e ≠ new ∧ e_dst e ≠ new) ->
  graft p node new name ow1 ow2 g
  = mkDiGraph (g_nodes g ++ [new]) (<[new := name]> (g_name g))
      (unlink p node (g_edges g) ++ [Edge p new ow1; Edge new node ow2]).
Proof.
  intros Hpn Hnn Hnew Hfresh. unfold graft.
  set (g1 := remove_edge p node g).
  assert (∀ e, e ∈ g_edges g1 -> e_src e ≠ new ∧ e_dst e ≠ new) as Hfresh1.
  { intros e [_ He]%list_elem_of_filter. by apply Hfresh. }
  assert (g_nodes g1 = g_nodes g ∧ g_name g1 = g_name g
          ∧ g_edges g1 = unlink p node (g_edges g)) as (Hn1 & Hm1 & He1) by done.
  rewrite <-Hn1, <-Hm1, <-He1. rewrite <-Hn1 in Hpn, Hnn, Hnew. clearbody g1.
  rewrite (add_edge_fresh p new ow1 g1);
    [|done|done|intros e He; by apply Hfresh1].
  rewrite add_node_present by (cbn; apply elem_of_app; right; by left).
  unfold set_name. cbn [g_nodes g_name g_edges].
  rewrite add_edge_present.
  - cbn. by rewrite <-app_assoc.
  - cbn. apply elem_of_app. right. by left.
  - cbn. apply elem_of_app. by left.
  - cbn. intros e [He|He]%elem_of_app [Hs _].
    + by apply Hfresh1 in He as [? _].
    + apply list_elem_of_singleton in He as ->. cbn in Hs. by subst.
Qed.

Lemma insertAbove_parent t node p new name (ow : option W) :
  getParent t node = Some p ->
  p ∈ g_nodes (nxDg t) -> node ∈ g_nodes (nxDg t) ->
  new ∉ g_nodes (nxDg t) ->
  (∀ e, e ∈ g_edges (nxDg t) -> e_src e ≠ new ∧ e_dst e ≠ new) ->
  ¬ name_taken (nxDg t) new name ->
  insertAbove node new name ow t
  = (Ok tt,
     mkTree (mkDiGraph (g_nodes (nxDg t) ++ [new])
                       (<[new := name]> (g_name (nxDg t)))
                       (unlink p node (g_edges (nxDg t))
                        ++ [Edge p new (getWeight t p node); Edge new node ow]))
            (rootId t) (subtreeRoots t) (index_if_named name new (nameToId t))
            (subtreeSize t)).
Proof.
  intros Hp Hpn Hnn Hnew Hfresh Hfree.
  by rewrite (insertAbove_run t node p new name ow Hp Hfree), graft_edges.
Qed.

(** ** The loop of [addSelfEdges] *)

Lemma elem_of_fresh_ids (first : Z) k s :
  s ∈ fresh_ids first k <-> first ≤ s < first + Z.of_nat k.
Proof.
  unfold fresh_ids. rewrite list_elem_of_fmap. split.
  - intros (i & -> & Hi%elem_of_seq). lia.
  - intros Hs. exists (Z.to_nat (s - first)). split; [lia|].
    apply elem_of_seq. lia.
Qed.

Lemma fresh_ids_S (first : Z) k :
  fresh_ids first (S k) = fresh_ids first k ++ [first + Z.of_nat k].
Proof. unfold fresh_ids. by rewrite seq_S, fmap_app. Qed.

Lemma fresh_ids_lookup (first : Z) k i :
  (i < k)%nat -> fresh_ids first k !! i = Some (first + Z.of_nat i).
Proof.
  intros Hi. unfold fresh_ids. rewrite list_lookup_fmap, lookup_seq_lt by done.
  done.
Qed.

Lemma bfs_child_of_parent g r n :
  n ∈ bfs g r -> n ≠ r -> ∃ p w, Edge p n w ∈ g_edges g.
Proof.
  unfold bfs. intros (k & _ & Hk)%elem_of_bfs_levels Hne.
  destruct k as [|k]; [by apply list_elem_of_singleton in Hk|].
  change (n ∈ level g r (S k)) in Hk.
  rewrite level_S, elem_of_expand in Hk.
  destruct Hk as (p & _ & [w Hw]%elem_of_children). eauto.
Qed.

Lemma NoDup_fmap_eq {A B} (f : A -> B) (l : list A) x y :
  NoDup (f <$> l) -> x ∈ l -> y ∈ l -> f x = f y -> x = y.
Proof.
  induction l as [|a l IH]; [by intros _ ?%not_elem_of_nil|].
  rewrite fmap_cons, NoDup_cons.
  intros [Ha Hnd] [->|Hx]%elem_of_cons [->|Hy]%elem_of_cons Heq; [done|..].
  - destruct Ha. rewrite Heq. by apply list_elem_of_fmap_2.
  - destruct Ha. rewrite <-Heq. by apply list_elem_of_fmap_2.
  - by apply IH.
Qed.

Section self_loop.
Variables (t0 : MultiCactusTree (W:=W)) (suffix : string).
Hypothesis Ht0 : is_tree t0.
Hypothesis Hfree0 : Forall (name_free t0) (self_names t0 suffix).
Hypothesis Hdistinct : NoDup (self_names t0 suffix).

Let next0 := getNextIndex t0.

Lemma edge_after_bounds ps e k :
  ps.*2 = fresh_ids next0 k -> edge_after t0 ps e ->
  e_src e < next0 + Z.of_nat k ∧ e_dst e < next0 + Z.of_nat k.
Proof.
  intros Hps [[He _]|(n & s & p & w & Hns & He & Hcase)].
  - pose proof (tree_edge_lt_next t0 e Ht0 He). fold next0 in H. lia.
  - pose proof (tree_edge_lt_next t0 _ Ht0 He) as [Hp Hn]. fold next0 in Hp, Hn.
    assert (s ∈ ps.*2) as Hs by (apply list_elem_of_fmap; by exists (n, s)).
    rewrite Hps in Hs. apply elem_of_fresh_ids in Hs.
    destruct Hcase as [->| ->]; cbn in *; lia.
Qed.

Lemma self_inv_start : self_inv t0 suffix [] t0.
Proof.
  split; try done.
  - intros e. unfold edge_after. split.
    + intros He. left. split; [done|]. apply not_elem_of_nil.
    + intros [[He _]|(n & s & p & w & Hns & _)]; [done|].
      by apply not_elem_of_nil in Hns.
  - apply Ht0.
  - cbn. by rewrite app_nil_r.
  - intros n s Hns. by apply not_elem_of_nil in Hns.
  - cbn. set_solver.
Qed.

(** One turn of the loop on a node that gets a self-node. *)
Lemma self_inv_step ps t node p w idx :
  self_inv t0 suffix ps t ->
  ps.*2 = fresh_ids next0 (length ps) ->
  (∀ n, n ∈ ps.*1 -> n < next0) ->
  node ∉ ps.*1 -> node < next0 ->
  Edge p node w ∈ g_edges (nxDg t0) ->
  let new := next0 + Z.of_nat (length ps) in
  self_inv t0 suffix (ps ++ [(node, new)])
    (add_subtreeRoot new
       (mkTree (mkDiGraph (g_nodes (nxDg t) ++ [new])
                 (<[new := makeSelfName (getName t0 node) suffix]>
                    (g_name (nxDg t)))
                 (unlink p node (g_edges (nxDg t))
                  ++ [Edge p new w; Edge new node (self_weight p w)]))
               (rootId t) (subtreeRoots t) idx (subtreeSize t))).
Proof.
  intros Hinv Hps Hold Hnode Hlt He0 new.
  assert (∀ n s, (n, s) ∈ ps -> n ∈ ps.*1 ∧ s ∈ ps.*2) as Hmem.
  { intros n s Hns. split; apply list_elem_of_fmap; by exists (n, s). }
  assert (new ∉ ps.*2) as Hnew.
  { rewrite Hps, elem_of_fresh_ids. subst new. lia. }
  assert (∀ e, e ∈ g_edges (nxDg t) -> e_src e < new ∧ e_dst e < new) as Hfresh.
  { intros e He%(inv_edges _ _ _ _ Hinv). by eapply edge_after_bounds. }
  assert (Edge p node w ∈ g_edges (nxDg t)) as He.
  { apply (inv_edges _ _ _ _ Hinv). by left. }
  assert (∀ e, e ∈ g_edges (nxDg t0) -> e_dst e = node -> e = Edge p node w)
    as Huniq.
  { intros e Hein Hd. by apply (edge_unique (nxDg t0) (tree_indegree _ Ht0)). }
  split; cbn [nxDg g_edges g_nodes g_name rootId subtreeRoots add_subtreeRoot
              set_subtreeRoots].
  - intros e. unfold unlink.
    rewrite elem_of_app, list_elem_of_filter, (inv_edges _ _ _ _ Hinv).
    unfold edge_after. rewrite fmap_app. cbn. split.
    + intros [[Hne [[Hin Hd]|(n & s & p' & w' & Hns & Hin & Hcase)]]|Hnew2].
      * left. split; [done|]. rewrite elem_of_app, list_elem_of_singleton.
        intros [?|Hd']; [done|]. apply Hne. by rewrite (Huniq e Hin Hd').
      * right. exists n, s, p', w'. split; [|done]. apply elem_of_app. by left.
      * right. exists node, new, p, w. split; [apply elem_of_app; right; by left|].
        split; [done|]. set_solver.
    + intros [[Hin Hd]|(n & s & p' & w' & Hns & Hin & Hcase)].
      * left. rewrite elem_of_app, list_elem_of_singleton in Hd.
        split; [intros [_ ?]; tauto|]. left. split; [done|tauto].
      * apply elem_of_app in Hns as [Hns|Hns%list_elem_of_singleton].
        -- left. destruct (Hmem n s Hns) as [Hn Hs].
           split; [|right; by exists n, s, p', w'].
           intros [_ Hd]. destruct Hcase as [-> | ->]; cbn in Hd.
           ++ rewrite Hps in Hs. apply elem_of_fresh_ids in Hs. lia.
           ++ by subst.
        -- injection Hns as -> ->. pose proof (Huniq _ Hin eq_refl) as [= -> ->].
           right. set_solver.
  - rewrite fmap_app. apply NoDup_app. split_and!.
    + eapply sublist_NoDup; [apply (inv_indegree _ _ _ _ Hinv)|].
      apply fmap_sublist, sublist_filter.
    + intros x (e & -> & [Hne Hin]%list_elem_of_filter)%list_elem_of_fmap.
      cbn. rewrite !elem_of_cons. intros [Hx|[Hx|Hx]].
      * apply Hfresh in Hin. lia.
      * apply Hne.
        by rewrite (edge_unique _ (inv_indegree _ _ _ _ Hinv) _ _ Hin He Hx).
      * by apply not_elem_of_nil in Hx.
    + cbn. apply NoDup_cons. split; [|apply NoDup_singleton].
      rewrite list_elem_of_singleton. subst new. lia.
  - rewrite (inv_nodes _ _ _ _ Hinv), fmap_app. cbn. by rewrite app_assoc.
  - intros n s [Hns|Hns%list_elem_of_singleton]%elem_of_app.
    + rewrite lookup_insert_ne; [by apply (inv_names_new _ _ _ _ Hinv)|].
      intros <-. apply Hnew. by apply (Hmem n new).
    + injection Hns as -> ->. by rewrite lookup_insert_eq.
  - intros x. rewrite fmap_app, elem_of_app. cbn. rewrite list_elem_of_singleton.
    intros Hx. rewrite lookup_insert_ne by (intros <-; tauto).
    apply (inv_names_old _ _ _ _ Hinv). tauto.
  - rewrite (inv_roots _ _ _ _ Hinv), fmap_app, list_to_set_app_L. cbn. set_solver.
  - apply Hinv.
Qed.

(** What the loop reads of a node of the original tree is what the
    original tree says. *)
Lemma self_inv_reads ps t node :
  self_inv t0 suffix ps t ->
  ps.*2 = fresh_ids next0 (length ps) ->
  node < next0 ->
  (node ∈ subtreeRoots t <-> node ∈ subtreeRoots t0)
  ∧ isLeaf t node = isLeaf t0 node
  ∧ getName t node = getName t0 node.
Proof.
  intros Hinv Hps Hlt.
  assert (node ∉ ps.*2) as Hnode.
  { rewrite Hps, elem_of_fresh_ids. lia. }
  split_and!.
  - rewrite (inv_roots _ _ _ _ Hinv), elem_of_union, elem_of_list_to_set. tauto.
  - unfold isLeaf. apply bool_decide_ext. unfold getChildren.
    split; intros Hnil; apply elem_of_nil_inv; intros c [w Hc]%elem_of_children.
    + destruct (decide (c ∈ ps.*1)) as [Hin|Hin].
      * apply list_elem_of_fmap in Hin as ([n s] & -> & Hns). cbn in *.
        assert (s ∈ children_of (nxDg t) node) as Hs.
        { apply elem_of_children. exists w. apply (inv_edges _ _ _ _ Hinv).
          right. exists n, s, node, w. auto. }
        rewrite Hnil in Hs. by apply not_elem_of_nil in Hs.
      * assert (c ∈ children_of (nxDg t) node) as Hs.
        { apply elem_of_children. exists w. apply (inv_edges _ _ _ _ Hinv).
          by left. }
        rewrite Hnil in Hs. by apply not_elem_of_nil in Hs.
    + apply (inv_edges _ _ _ _ Hinv) in Hc
        as [[Hc _]|(n & s & p & w' & Hns & He & [Hcase|Hcase])].
      * assert (c ∈ children_of (nxDg t0) node) as Hs
          by (apply elem_of_children; eauto).
        rewrite Hnil in Hs. by apply not_elem_of_nil in Hs.
      * injection Hcase as Hs Hn Hw'. subst.
        assert (n ∈ children_of (nxDg t0) p) as Hs
          by (apply elem_of_children; eauto).
        rewrite Hnil in Hs. by apply not_elem_of_nil in Hs.
      * injection Hcase as Hs Hn _. apply Hnode. subst.
        apply list_elem_of_fmap. by exists (n, s).
  - unfold getName. by rewrite (inv_names_old _ _ _ _ Hinv).
Qed.

Lemma self_loop_inv todo : ∀ done ps t,
  NoDup (done ++ todo) ->
  (∀ n, n ∈ done ++ todo -> n ∈ breadthFirstTraversal t0) ->
  ps.*1 = filter (wants_self t0) done ->
  ps.*2 = fresh_ids next0 (length ps) ->
  self_inv t0 suffix ps t ->
  ∃ ps' t',
    self_loop suffix todo (next0 + Z.of_nat (length ps)) t = (Ok tt, t')
    ∧ self_inv t0 suffix ps' t'
    ∧ ps'.*1 = filter (wants_self t0) (done ++ todo)
    ∧ ps'.*2 = fresh_ids next0 (length ps').
Proof.
  induction todo as [|node rest IH]; intros done ps t Hnd Hbfs Hps1 Hps2 Hinv.
  { exists ps, t. by rewrite app_nil_r. }
  assert (done ++ node :: rest = (done ++ [node]) ++ rest) as Happ
    by (by rewrite <-app_assoc).
  assert (node < next0) as Hlt.
  { apply bfs_lt_next, Hbfs, elem_of_app. right. by left. }
  destruct (self_inv_reads ps t node Hinv Hps2 Hlt) as (Hsr & Hleaf & Hname).
  cbn [self_loop]. run_m.
  rewrite Hleaf, (inv_root _ _ _ _ Hinv).
  destruct (decide (wants_self t0 node)) as [Hw|Hw].
  - destruct Hw as [Hw Hroot].
    assert ((bool_decide (node ∈ subtreeRoots t) || isLeaf t0 node)
            && negb (bool_decide (node = rootId t0)) = true) as ->.
    { apply andb_true_iff. split.
      - apply orb_true_iff. destruct Hw as [Hw|Hw]; [left|by right].
        apply bool_decide_eq_true. by apply Hsr.
      - by rewrite bool_decide_eq_false_2. }
    run_m.
    destruct (bfs_child_of_parent (nxDg t0) (rootId t0) node) as (p & w & He0);
      [apply Hbfs, elem_of_app; right; by left|done|].
    assert (node ∉ ps.*1) as Hnode.
    { rewrite Hps1, list_elem_of_filter. intros [_ Hin].
      apply NoDup_app in Hnd as (_ & Hdis & _). apply (Hdis node Hin). by left. }
    assert (∀ n, n ∈ ps.*1 -> n < next0) as Hold.
    { intros n. rewrite Hps1, list_elem_of_filter. intros [_ Hin].
      apply bfs_lt_next, Hbfs, elem_of_app. by left. }
    assert (Edge p node w ∈ g_edges (nxDg t)) as He.
    { apply (inv_edges _ _ _ _ Hinv). by left. }
    assert (getParent t node = Some p) as Hp.
    { apply (parent_of_child _ (inv_indegree _ _ _ _ Hinv)).
      apply elem_of_children. eauto. }
    assert (getWeight t p node = w) as Hwt
      by (by apply (weight_of_edge _ (inv_indegree _ _ _ _ Hinv))).
    rewrite Hp, Hname, Hwt.
    destruct (tree_ends t0 Ht0 _ He0) as [Hpn Hnn]. cbn in Hpn, Hnn.
    set (new := next0 + Z.of_nat (length ps)).
    rewrite (insertAbove_parent t node p new _ _ Hp).
    + run_m. rewrite Hwt.
      pose proof (self_inv_step ps t node p w
        (index_if_named (makeSelfName (getName t0 node) suffix) new (nameToId t))
        Hinv Hps2 Hold Hnode Hlt He0) as Hinv'.
      cbv zeta in Hinv'. fold new in Hinv'.
      edestruct (IH (done ++ [node]) (ps ++ [(node, new)])) with (5 := Hinv')
        as (ps' & t' & Hrun & Hinv'' & H1 & H2).
      * by rewrite <-Happ.
      * intros n Hn. apply Hbfs. by rewrite Happ.
      * rewrite fmap_app, filter_app, Hps1. f_equal.
        rewrite filter_cons_True by done. done.
      * rewrite fmap_app, length_app, Hps2. cbn.
        by rewrite Nat.add_1_r, fresh_ids_S.
      * exists ps', t'. rewrite Happ. split_and!; try done.
        rewrite <-Hrun. f_equal. rewrite length_app. subst new. cbn. lia.
    + rewrite (inv_nodes _ _ _ _ Hinv). apply elem_of_app. by left.
    + rewrite (inv_nodes _ _ _ _ Hinv). apply elem_of_app. by left.
    + rewrite (inv_nodes _ _ _ _ Hinv), elem_of_app, Hps2, elem_of_fresh_ids.
      intros [Hn|Hn]; [apply (tree_node_lt_next t0 _ Ht0) in Hn|];
        unfold next0 in *; lia.
    + intros e He'%(inv_edges _ _ _ _ Hinv).
      pose proof (edge_after_bounds ps e _ Hps2 He'). fold new in H. lia.
    + assert (node ∈ filter (wants_self t0) (breadthFirstTraversal t0)) as Hwn.
      { apply list_elem_of_filter. split; [done|].
        apply Hbfs, elem_of_app. right. by left. }
      intros (m & Hm & Hcarried).
      destruct (decide (m ∈ ps.*2)) as [Hin|Hin].
      * apply list_elem_of_fmap in Hin as ([n s] & -> & Hns).
        cbn [fst snd] in Hm, Hcarried.
        rewrite (inv_names_new _ _ _ _ Hinv n s Hns) in Hcarried.
        injection Hcarried as Heq.
        assert (n ∈ ps.*1) as Hn1 by (apply list_elem_of_fmap; by exists (n, s)).
        apply Hnode. replace node with n; [done|].
        eapply (NoDup_fmap_eq _ _ n node Hdistinct); [|done..].
        rewrite Hps1 in Hn1. apply list_elem_of_filter in Hn1 as [Hwants Hdone].
        apply list_elem_of_filter. split; [done|].
        apply Hbfs, elem_of_app. by left.
      * rewrite (inv_names_old _ _ _ _ Hinv m Hin) in Hcarried.
        revert Hcarried. apply name_free_lookup.
        eapply (proj1 (Forall_forall _ _) Hfree0).
        by apply (list_elem_of_fmap_2 (λ n, makeSelfName (getName t0 n) suffix)).
  - assert ((bool_decide (node ∈ subtreeRoots t) || isLeaf t0 node)
            && negb (bool_decide (node = rootId t0)) = false) as ->.
    { apply not_true_iff_false. intros [Ho Hr]%andb_true_iff. apply Hw. split.
      - apply orb_true_iff in Ho as [Ho%bool_decide_eq_true|Ho]; [left|by right].
        by apply Hsr.
      - intros ->. by rewrite bool_decide_eq_true_2 in Hr. }
    destruct (IH (done ++ [node]) ps t) as (ps' & t' & Hrun & Hinv' & H1 & H2);
      try done.
    + by rewrite <-Happ.
    + intros n Hn. apply Hbfs. by rewrite Happ.
    + rewrite filter_app, filter_cons_False, filter_nil, app_nil_r by done. done.
    + exists ps', t'. by rewrite Happ.
Qed.
End self_loop.

Lemma fresh_ids_NoDup (first : Z) k : NoDup (fresh_ids first k).
Proof.
  unfold fresh_ids. apply NoDup_fmap_2_strong; [|apply NoDup_seq].
  intros i j _ _ Hij. lia.
Qed.

Lemma fresh_ids_length (first : Z) k : length (fresh_ids first k) = k.
Proof. unfold fresh_ids. by rewrite length_fmap, length_seq. Qed.

Lemma NoDup_only {A} (l : list A) (a : A) :
  NoDup l -> (∀ x, x ∈ l <-> x = a) -> l = [a].
Proof.
  intros Hnd Hl. destruct l as [|x l].
  { assert (a ∈ @nil A) as H by (by apply Hl). by apply not_elem_of_nil in H. }
  assert (x = a) as -> by (apply Hl; by left).
  f_equal. apply elem_of_nil_inv. intros y Hy.
  apply NoDup_cons in Hnd as [Hx _]. apply Hx.
  assert (y = a) as <-; [|done]. apply Hl. by right.
Qed.

Lemma parent_of_no_edge g n :
  (∀ e, e ∈ g_edges g -> e_dst e ≠ n) -> parent_of g n = None.
Proof.
  intros Hn. destruct (parent_of g n) as [p|] eqn:Hp; [|done].
  apply parent_of_elem, elem_of_children in Hp as [w He].
  by destruct (Hn _ He).
Qed.

(** What the whole loop leaves behind, read off the invariant. *)
Lemma self_inv_result t0 suffix ps t' :
  is_tree t0 ->
  self_inv t0 suffix ps t' ->
  ps.*1 = filter (wants_self t0) (breadthFirstTraversal t0) ->
  ps.*2 = fresh_ids (getNextIndex t0) (length ps) ->
  (∀ i n, ps.*1 !! i = Some n ->
     let s := getNextIndex t0 + Z.of_nat i in
     s ∉ g_nodes (nxDg t0)
     ∧ getParent t' n = Some s
     ∧ getChildren t' s = [n]
     ∧ getParent t' s = getParent t0 n
     ∧ s ∈ subtreeRoots t'
     ∧ getName t' s = makeSelfName (getName t0 n) suffix)
  ∧ (∀ n, n ∈ g_nodes (nxDg t0) -> ¬ wants_self t0 n ->
          getParent t' n = getParent t0 n).
Proof.
  intros Ht0 Hinv Hps1 Hps2.
  assert (∀ n s, (n, s) ∈ ps -> n ∈ ps.*1 ∧ s ∈ ps.*2) as Hmem.
  { intros n s Hns. split; apply list_elem_of_fmap; by exists (n, s). }
  assert (∀ n s n', (n, s) ∈ ps -> (n', s) ∈ ps -> n = n') as Hinj.
  { intros n s n' [i Hi]%list_elem_of_lookup [j Hj]%list_elem_of_lookup.
    assert (i = j) as ->; [|congruence].
    assert (NoDup ps.*2) as Hnd by (rewrite Hps2; apply fresh_ids_NoDup).
    eapply (NoDup_lookup _ _ _ s Hnd); rewrite list_lookup_fmap.
    - by rewrite Hi.
    - by rewrite Hj. }
  split.
  - intros i n Hi s.
    assert ((n, s) ∈ ps) as Hns.
    { rewrite list_lookup_fmap in Hi.
      destruct (ps !! i) as [[n' s']|] eqn:Hpi; [|done]. injection Hi as ->.
      assert (ps.*2 !! i = Some s') as Hs by (by rewrite list_lookup_fmap, Hpi).
      rewrite Hps2, fresh_ids_lookup in Hs by (by eapply lookup_lt_Some).
      injection Hs as <-. by eapply list_elem_of_lookup_2. }
    assert (n ∈ breadthFirstTraversal t0 ∧ wants_self t0 n) as [Hbfs [_ Hroot]].
    { apply list_elem_of_lookup_2 in Hi. rewrite Hps1 in Hi.
      apply list_elem_of_filter in Hi. tauto. }
    destruct (bfs_child_of_parent _ _ n Hbfs Hroot) as (p & w & He0).
    assert (getNextIndex t0 ≤ s) as Hs by (subst s; lia).
    assert (getParent t0 n = Some p) as Hp0.
    { apply (parent_of_child _ (tree_indegree _ Ht0)), elem_of_children. eauto. }
    split_and!.
    + intros Hin%(tree_node_lt_next t0 _ Ht0). lia.
    + apply (parent_of_child _ (inv_indegree _ _ _ _ Hinv)), elem_of_children.
      exists (self_weight p w). apply (inv_edges _ _ _ _ Hinv). right.
      exists n, s, p, w. auto.
    + apply NoDup_only; [apply children_NoDup, Hinv|]. intros c. split.
      * intros [w' Hc]%elem_of_children.
        apply (inv_edges _ _ _ _ Hinv) in Hc
          as [[Hc _]|(n' & s' & p' & w'' & Hns' & He' & [Hcase|Hcase])].
        -- apply (tree_edge_lt_next t0 _ Ht0) in Hc. cbn in Hc. lia.
        -- injection Hcase as Hsp _ _. subst p'.
           apply (tree_edge_lt_next t0 _ Ht0) in He'. cbn in He'. lia.
        -- injection Hcase as Hss Hc _. subst. symmetry. by eapply Hinj.
      * intros ->. apply elem_of_children. exists (self_weight p w).
        apply (inv_edges _ _ _ _ Hinv). right. exists n, s, p, w. auto.
    + rewrite Hp0.
      apply (parent_of_child _ (inv_indegree _ _ _ _ Hinv)), elem_of_children.
      exists w. apply (inv_edges _ _ _ _ Hinv). right. exists n, s, p, w. auto.
    + rewrite (inv_roots _ _ _ _ Hinv), elem_of_union, elem_of_list_to_set.
      left. by apply (Hmem n s).
    + unfold getName at 1. by rewrite (inv_names_new _ _ _ _ Hinv n s).
  - intros n Hn Hw.
    assert (n ∉ ps.*1) as Hnps.
    { rewrite Hps1, list_elem_of_filter. tauto. }
    destruct (getParent t0 n) as [p|] eqn:Hp0.
    + apply parent_of_elem, elem_of_children in Hp0 as [w He0].
      apply (parent_of_child _ (inv_indegree _ _ _ _ Hinv)), elem_of_children.
      exists w. apply (inv_edges _ _ _ _ Hinv). by left.
    + apply parent_of_no_edge. intros e He Hd.
      apply (inv_edges _ _ _ _ Hinv) in He
        as [[He _]|(n' & s' & p' & w'' & Hns' & He' & [Hcase|Hcase])].
      * by apply (parent_of_None _ _ Hp0 e).
      * subst e. cbn in Hd. subst s'.
        destruct (Hmem _ _ Hns') as [_ Hs]. rewrite Hps2 in Hs.
        apply elem_of_fresh_ids in Hs.
        apply (tree_node_lt_next t0 _ Ht0) in Hn. lia.
      * subst e. cbn in Hd. subst n'. by apply Hnps, (Hmem n s').
Qed.

(** C6: on a tree with its subtree-roots marked, [addSelfEdges] puts exactly
    one new node directly above every node that is a leaf or a subtree-root
    and is not the root: the [i]-th such node in breadth-first order gets
    the fresh id [getNextIndex t + i] as its parent, that self-node has the
    node as its only child and the node's former parent as its parent, is a
    subtree-root, and is named by [makeSelfName]; every other node keeps its
    parent, and no further node is added.  [makeSelfName] puts the suffix
    before the first dot of the name.  The names of the self-nodes are new:
    no node carries one of them, and no two of them are the same. *)
Theorem addSelfEdges_self_nodes t suffix :
  is_tree t ->
  Forall (name_free t) (self_names t suffix) ->
  NoDup (self_names t suffix) ->
  ∃ t', addSelfEdges suffix t = (Ok tt, t')
    ∧ let next := getNextIndex t in
      let wanted := filter (wants_self t) (breadthFirstTraversal t) in
      g_nodes (nxDg t') = g_nodes (nxDg t) ++ fresh_ids next (length wanted)
      ∧ subtreeRoots t'
        = list_to_set (fresh_ids next (length wanted)) ∪ subtreeRoots t
      ∧ rootId t' = rootId t
      ∧ (∀ n, n ∈ g_nodes (nxDg t) -> wants_self t n ->
              ∃ i, wanted !! i = Some n)
      ∧ (∀ i n, wanted !! i = Some n ->
           let s := next + Z.of_nat i in
           s ∉ g_nodes (nxDg t)
           ∧ getParent t' n = Some s
           ∧ getChildren t' s = [n]
           ∧ getParent t' s = getParent t n
           ∧ s ∈ subtreeRoots t'
           ∧ getName t' s = makeSelfName (getName t n) suffix)
      ∧ (∀ n, n ∈ g_nodes (nxDg t) -> ¬ wants_self t n ->
              getParent t' n = getParent t n)
      ∧ (∀ a b, dot_free a = true ->
              makeSelfName (a +:+ "." +:+ b) suffix = a +:+ suffix +:+ "." +:+ b)
      ∧ makeSelfName "human.chr1" "_self" = "human_self.chr1".
Proof.
  intros Ht Hfree Hdistinct.
  destruct (self_loop_inv t suffix Ht Hfree Hdistinct
              (breadthFirstTraversal t) [] [] t)
    as (ps & t' & Hrun & Hinv & Hps1 & Hps2); try done.
  { apply bfs_NoDup; apply Ht. }
  { by apply self_inv_start. }
  cbn [app length] in Hrun, Hps1. rewrite Z.add_0_r in Hrun.
  exists t'. split; [by unfold addSelfEdges; run_m|].
  cbv zeta.
  assert (length (filter (wants_self t) (breadthFirstTraversal t)) = length ps)
    as Hlen by (by rewrite <-Hps1, length_fmap).
  destruct (self_inv_result t suffix ps t' Ht Hinv Hps1 Hps2) as [Hself Hother].
  rewrite Hlen, <-Hps2, <-Hps1. split_and!.
  - apply Hinv.
  - apply Hinv.
  - apply Hinv.
  - intros n Hn Hw. apply list_elem_of_lookup. rewrite Hps1.
    apply list_elem_of_filter. split; [done|]. by apply tree_nodes_bfs.
  - done.
  - done.
  - intros a b Ha. by apply makeSelfName_first_dot.
  - done.
Qed.

(** ** [traverseSubtree] and [extractSubTree] *)

Lemma yields_snoc t root x p c :
  yields t root x p -> p = root ∨ p ∉ subtreeRoots t ->
  c ∈ getChildren t p -> yields t root x c.
Proof.
  induction 1 as [x|x c' m Hx Hc' _ IH]; intros Hp Hc.
  - eapply yields_below; [done..|constructor].
  - eapply yields_below; [done..|]. by apply IH.
Qed.

Lemma in_clade_yields t root m : in_clade t root m <-> yields t root root m.
Proof.
  split.
  - induction 1 as [|p c _ IH Hp Hc]; [constructor|]. by eapply yields_snoc.
  - assert (∀ x, yields t root x m -> in_clade t root x -> in_clade t root m)
      as Hgen.
    { induction 1 as [x|x c m' Hx Hc _ IH]; [done|].
      intros Hin. apply IH. by eapply clade_child. }
    intros Hy. apply (Hgen root Hy). constructor.
Qed.

Lemma traverseSubtree_yields fuel t root : ∀ x l,
  traverseSubtree fuel t root x = Some l ->
  head l = Some x ∧ ∀ m, m ∈ l <-> yields t root x m.
Proof.
  induction fuel as [|fuel IH]; intros x l; [done|]. cbn [traverseSubtree].
  destruct (bool_decide (x = root) || negb (bool_decide (x ∈ subtreeRoots t)))
    eqn:Hcond.
  - destruct (mapM _ _) as [below|] eqn:Hm; [|done]. cbn. intros [= <-].
    assert (x = root ∨ x ∉ subtreeRoots t) as Hx.
    { apply orb_true_iff in Hcond as [H%bool_decide_eq_true|H]; [by left|right].
      by apply negb_true_iff, bool_decide_eq_false in H. }
    apply mapM_Some in Hm. split; [done|]. intros m.
    rewrite elem_of_cons, list_elem_of_join. split.
    + intros [->|(l' & Hml' & Hl')]; [constructor|].
      apply list_elem_of_lookup in Hl' as [i Hi].
      destruct (Forall2_lookup_r _ _ _ _ _ Hm Hi) as (c & Hc & Hrun).
      eapply yields_below; [done|by eapply list_elem_of_lookup_2|].
      by apply (IH c l').
    + inversion 1 as [|? c ? _ Hc Hy]; subst; [by left|right].
      apply list_elem_of_lookup in Hc as [i Hi].
      destruct (Forall2_lookup_l _ _ _ _ _ Hm Hi) as (l' & Hl' & Hrun).
      exists l'. split; [by apply (IH c l')|by eapply list_elem_of_lookup_2].
  - intros [= <-]. split; [done|]. intros m. rewrite list_elem_of_singleton.
    split; [intros ->; constructor|].
    inversion 1 as [|? c ? Hx _ _]; subst; [done|].
    apply orb_false_iff in Hcond as [H1%bool_decide_eq_false H2].
    apply negb_false_iff, bool_decide_eq_true in H2. destruct Hx; done.
Qed.

(** A node [k] levels below the root of a tree has at most
    [length edges - k] levels below it: the fuel is enough. *)
Lemma traverseSubtree_total t root fuel : ∀ x k,
  acyclic (nxDg t) ->
  x ∈ level (nxDg t) (rootId t) k ->
  (length (g_edges (nxDg t)) < k + fuel)%nat ->
  is_Some (traverseSubtree fuel t root x).
Proof.
  induction fuel as [|fuel IH]; intros x k Hac Hx Hk.
  { apply (level_depth _ _ _ _ Hac) in Hx. lia. }
  cbn [traverseSubtree].
  destruct (bool_decide (x = root) || negb (bool_decide (x ∈ subtreeRoots t)));
    [|done].
  assert (is_Some (mapM (traverseSubtree fuel t root) (getChildren t x)))
    as [below ->]; [|done].
  apply mapM_is_Some, Forall_forall. intros c Hc. apply (IH c (S k)); [done| |lia].
  rewrite level_S, elem_of_expand. eauto.
Qed.

Lemma in_clade_reach t root m : in_clade t root m -> reach (nxDg t) root m.
Proof. induction 1; [constructor|]. by eapply reach_step. Qed.

Lemma reach_rank g (rank : Z -> nat) r m :
  (∀ e, e ∈ g_edges g -> (rank (e_src e) < rank (e_dst e))%nat) ->
  reach g r m -> (rank r ≤ rank m)%nat.
Proof.
  intros Hrank. induction 1 as [|p c _ IH [w He]%elem_of_children]; [done|].
  apply Hrank in He. cbn in He. lia.
Qed.

Lemma reach_nodes t r m :
  is_tree t -> r ∈ g_nodes (nxDg t) -> reach (nxDg t) r m -> m ∈ g_nodes (nxDg t).
Proof.
  intros Ht Hr. induction 1 as [|p c _ _ [w He]%elem_of_children]; [done|].
  by destruct (tree_ends t Ht _ He).
Qed.

Lemma head_filter_only {A} (P : A -> Prop) `{!∀ x, Decision (P x)}
    (l : list A) (a : A) :
  a ∈ l -> (∀ x, x ∈ l -> P x <-> x = a) -> head (filter P l) = Some a.
Proof.
  intros Ha Hl. destruct (filter P l) as [|x l'] eqn:Hf.
  - assert (a ∈ filter P l) as Hin by (apply list_elem_of_filter; split;
      [by apply Hl|done]).
    rewrite Hf in Hin. by apply not_elem_of_nil in Hin.
  - assert (x ∈ filter P l) as [Hx Hin]%list_elem_of_filter by (rewrite Hf; left).
    cbn. f_equal. by apply Hl.
Qed.

Lemma assignSubtreeRootNames_spec rootNames t :
  let t' := assignSubtreeRootNames rootNames t in
  nxDg t' = nxDg t ∧ rootId t' = rootId t
  ∧ ∀ m, m ∈ subtreeRoots t' <->
         m ∈ breadthFirstTraversal t ∧ getName t m ∈ rootNames.
Proof.
  unfold assignSubtreeRootNames.
  assert (∀ l t1,
    let t' := foldl (λ t node, if bool_decide (getName t node ∈ rootNames)
                               then add_subtreeRoot node t else t) t1 l in
    nxDg t' = nxDg t1 ∧ rootId t' = rootId t1
    ∧ ∀ m, m ∈ subtreeRoots t' <->
           m ∈ subtreeRoots t1 ∨ (m ∈ l ∧ getName t1 m ∈ rootNames)) as Hgen.
  { induction l as [|x l IH]; intros t1; cbn [foldl].
    { split_and!; try done. intros m. rewrite elem_of_nil. tauto. }
    specialize (IH (if bool_decide (getName t1 x ∈ rootNames)
                    then add_subtreeRoot x t1 else t1)).
    cbv zeta in *. destruct IH as (Hg & Hr & Hsr).
    case_bool_decide as Hx; cbn in Hg, Hr, Hsr.
    - split_and!; try done. intros m. rewrite Hsr, elem_of_cons.
      unfold getName; cbn. rewrite elem_of_union, elem_of_singleton.
      split; [intros [[->|?]|[? ?]]|intros [?|[[->|?] ?]]]; auto.
    - split_and!; try done. intros m. rewrite Hsr, elem_of_cons.
      split; [intros [?|[? ?]]|intros [?|[[->|?] ?]]]; auto. done. }
  cbv zeta in *.
  destruct (Hgen (breadthFirstTraversal t) (set_subtreeRoots ∅ t)) as (Hg & Hr & Hsr).
  split_and!; try done. intros m. rewrite Hsr. cbn. rewrite elem_of_empty.
  unfold getName. cbn. tauto.
Qed.

(** C7: on a tree whose subtree-root names are unambiguous,
    [extractSubTree] of a registered name returns a tree on the induced
    subgraph whose root is the named node [n], whose nodes are [n] and its
    descendants down to, and not beyond, the nested subtree-roots, with
    names and edges as in the original, and in which a node is a
    subtree-root exactly when it is one in the original. *)
Theorem extractSubTree_clade t name n :
  is_tree t ->
  nameToId t !! name = Some n ->
  n ∈ g_nodes (nxDg t) ->
  (∀ x m, x ∈ subtreeRoots t -> m ∈ g_nodes (nxDg t) ->
          getName t m = getName t x -> m = x) ->
  ∃ cpy, extractSubTree t name = Ok cpy
    ∧ rootId cpy = n
    ∧ (∀ m, m ∈ g_nodes (nxDg cpy) <-> in_clade t n m)
    ∧ (∀ e, e ∈ g_edges (nxDg cpy) <->
            e ∈ g_edges (nxDg t) ∧ in_clade t n (e_src e) ∧ in_clade t n (e_dst e))
    ∧ (∀ m, m ∈ g_nodes (nxDg cpy) -> getName cpy m = getName t m)
    ∧ (∀ m, m ∈ g_nodes (nxDg cpy) ->
            (m ∈ subtreeRoots cpy <-> m ∈ subtreeRoots t)).
Proof.
  intros Ht Hname Hn Huniq. unfold extractSubTree. rewrite Hname.
  pose proof (tree_acyclic t Ht) as Hac.
  destruct (reach_level _ _ _ (tree_connected t Ht n Hn)) as [k Hk].
  destruct (traverseSubtree_total t n (S (length (g_edges (nxDg t)))) n k Hac Hk)
    as [l Hl]; [lia|]. rewrite Hl.
  destruct (traverseSubtree_yields _ _ _ _ _ Hl) as [Hhead Hmem].
  assert (∀ m, m ∈ l <-> in_clade t n m) as Hclade.
  { intros m. by rewrite Hmem, in_clade_yields. }
  assert (∀ m, in_clade t n m -> m ∈ g_nodes (nxDg t)) as Hnodes.
  { intros m Hm%in_clade_reach. by eapply reach_nodes. }
  set (g := subgraph l (nxDg t)).
  assert (∀ m, m ∈ g_nodes g <-> in_clade t n m) as Hgn.
  { intros m. cbn. rewrite list_elem_of_filter, Hclade. split; [tauto|auto]. }
  assert (∀ e, e ∈ g_edges g <->
               e ∈ g_edges (nxDg t) ∧ in_clade t n (e_src e) ∧ in_clade t n (e_dst e))
    as Hge.
  { intros e. cbn. rewrite list_elem_of_filter, !Hclade. tauto. }
  assert (NoDup (e_dst <$> g_edges g)) as Hgin.
  { eapply sublist_NoDup; [apply (tree_indegree t Ht)|].
    apply fmap_sublist, sublist_filter. }
  assert (acyclic g) as Hgac.
  { destruct Hac as [rank Hrank]. exists rank. intros e He. apply Hrank.
    by apply Hge in He as [He _]. }
  assert (∀ m, in_clade t n m -> reach g n m) as Hreach.
  { induction 1 as [|p c Hp IH Hb [w Hc]%elem_of_children]; [constructor|].
    eapply reach_step; [done|]. apply elem_of_children. exists w.
    apply Hge. split_and!; [done|done|]. cbn.
    eapply clade_child; [done..|]. apply elem_of_children. eauto. }
  assert (computeRootId g = Some n) as Hroot.
  { unfold computeRootId. apply head_filter_only.
    { apply Hgn. constructor. }
    intros m Hm%Hgn. split.
    - intros Hnone. destruct Hm as [|p c Hp Hb [w Hc]%elem_of_children]; [done|].
      exfalso. eapply (parent_of_None _ _ Hnone (Edge p c w)); [|done].
      apply Hge. split_and!; [done|done|]. cbn.
      eapply clade_child; [done..|]. apply elem_of_children. eauto.
    - intros ->. apply parent_of_no_edge. intros e [He [Hs _]]%Hge Hd.
      destruct Hac as [rank Hrank].
      pose proof (reach_rank _ rank _ _ Hrank (in_clade_reach _ _ _ Hs)).
      apply Hrank in He. rewrite Hd in He. lia. }
  unfold newTree. fold g. rewrite Hroot.
  set (c0 := mkTree g n ∅ ∅ 2).
  pose proof (assignSubtreeRootNames_spec (getSubtreeRootNames t) c0) as Hassign.
  cbv zeta in Hassign. destruct Hassign as (Hcg & Hcr & Hcsr).
  eexists. split; [done|].
  assert (∀ m, m ∈ g_nodes g -> g_name g !! m = g_name (nxDg t) !! m) as Hnm.
  { intros m Hm%Hgn%Hclade. cbn.
    destruct (g_name (nxDg t) !! m) as [s|] eqn:Hs.
    - apply map_lookup_filter_Some. by split.
    - apply map_lookup_filter_None. left. done. }
  rewrite Hcg, Hcr. split_and!; try done.
  - intros m Hm. unfold getName. rewrite Hcg. cbn. by rewrite Hnm.
  - intros m Hm. rewrite Hcsr.
    change (breadthFirstTraversal c0) with (bfs g n).
    rewrite (elem_of_bfs _ _ _ Hgac).
    assert (getName c0 m = getName t m) as ->.
    { unfold getName. cbn. by rewrite Hnm. }
    unfold getSubtreeRootNames. rewrite list_elem_of_fmap. split.
    + intros [_ (x & Hx & Hin%elem_of_elements)].
      rewrite (Huniq x m); [done..| |done]. by apply Hnodes, Hgn.
    + intros Hsr. split; [by apply Hreach, Hgn|].
      exists m. split; [done|]. by apply elem_of_elements.
Qed.

End TreeFacts.

(** * The driver's task graph *)

Section DriverFacts.

Variable deps : string -> list string.
Variable followOn : string -> option string.
Variable isVirtual : string -> bool.
Variable nonRecursive : bool.
Variable alreadyDone : string -> bool.

#[local] Abbreviation run := (run deps followOn isVirtual nonRecursive alreadyDone).
#[local] Abbreviation step := (step deps followOn isVirtual nonRecursive alreadyDone).
#[local] Abbreviation exec := (exec deps followOn isVirtual nonRecursive alreadyDone).

Lemma exec_run j tg j' tr j'' :
  step j (Some tg) j' -> exec j' tr j'' -> exec j (tg :: tr) j''.
Proof. intros Hs He. by apply (exec_step _ _ _ _ _ _ _ _ _ _ Hs He). Qed.

Lemma exec_silent j j' tr j'' :
  step j None j' -> exec j' tr j'' -> exec j tr j''.
Proof. intros Hs He. by apply (exec_step _ _ _ _ _ _ _ _ _ _ Hs He). Qed.

(** C4 (as the code has it): [ProgressiveNext] of a non-virtual event with a
    follow-on submits the event's own [ProgressiveUp] and the follow-on's
    [ProgressiveDown] together, as children of the one target.  The only
    move of a waiting [ProgressiveNext] is to run, which leaves exactly
    these two waiting side by side; from there either can be run first, so
    the follow-on is taken up without waiting for the event's own work.
    [ProgressiveNext] is itself what [ProgressiveDown] of the event sets as
    its follow-on target. *)
Theorem followOn_submitted_with_work event next :
  followOn event = Some next ->
  isVirtual event = false ->
  run (ProgressiveNext event)
    = ([ProgressiveUp event; ProgressiveDown next], None)
  ∧ (∃ j, exec (Pending (ProgressiveNext event))
            [ProgressiveNext event; ProgressiveUp event; ProgressiveDown next] j)
  ∧ (∃ j, exec (Pending (ProgressiveNext event))
            [ProgressiveNext event; ProgressiveDown next; ProgressiveUp event] j)
  ∧ (run (ProgressiveDown event)).2 = Some (ProgressiveNext event)
  ∧ (∀ lbl j, step (Pending (ProgressiveNext event)) lbl j ->
       lbl = Some (ProgressiveNext event)
       ∧ j = Running [Pending (ProgressiveUp event);
                      Pending (ProgressiveDown next)] None)
  ∧ (∃ j, step (Running [Pending (ProgressiveUp event);
                         Pending (ProgressiveDown next)] None)
               (Some (ProgressiveDown next)) j)
  ∧ (∃ j, step (Running [Pending (ProgressiveUp event);
                         Pending (ProgressiveDown next)] None)
               (Some (ProgressiveUp event)) j).
Proof.
  intros Hf Hv.
  assert (run (ProgressiveNext event)
          = ([ProgressiveUp event; ProgressiveDown next], None)) as Hrun.
  { cbn. by rewrite Hf, Hv. }
  split_and!; [done| | |done| | |].
  - eexists. eapply exec_run; [apply step_run|].
    rewrite Hrun. cbn [fst snd fmap list_fmap].
    eapply exec_run; [apply step_child with (before := []); apply step_run|].
    eapply exec_run; [apply step_child with (before := [_]); apply step_run|].
    constructor.
  - eexists. eapply exec_run; [apply step_run|].
    rewrite Hrun. cbn [fst snd fmap list_fmap].
    eapply exec_run; [apply step_child with (before := [_]); apply step_run|].
    eapply exec_run; [apply step_child with (before := []); apply step_run|].
    constructor.
  - intros lbl j Hs. inversion Hs; subst. by rewrite Hrun.
  - eexists. apply step_child with (before := [_]). apply step_run.
  - eexists. apply step_child with (before := []). apply step_run.
Qed.

End DriverFacts.

(** * Further properties of the tree methods *)

Section MoreTreeFacts.

Context {W : Type}.
Implicit Types (t : MultiCactusTree (W:=W)) (g : DiGraph (W:=W)).
Implicit Types (n p c r : Z) (l : list Z).

(** ** [getNextIndex] *)

Lemma foldr_max_in r l : foldr Z.max r l = r ∨ foldr Z.max r l ∈ l.
Proof.
  induction l as [|x l IH]; [by left|]. cbn [foldr].
  destruct (Z.max_spec x (foldr Z.max r l)) as [[_ ->]|[_ ->]].
  - destruct IH as [->|IH]; [by left|]. right. by right.
  - right. by left.
Qed.

Lemma root_in_traversal t : rootId t ∈ breadthFirstTraversal t.
Proof. unfold breadthFirstTraversal, bfs. cbn [bfs_levels]. by left. Qed.

(** X1: [getNextIndex] returns one more than the largest id met on the
    traversal from the root: every node of the traversal lies below it, its
    predecessor is on the traversal, and on a tree it is no node. *)
Theorem getNextIndex_above_traversal t :
  (∀ n, n ∈ breadthFirstTraversal t -> n < getNextIndex t)
  ∧ getNextIndex t - 1 ∈ breadthFirstTraversal t
  ∧ (is_tree t -> getNextIndex t ∉ g_nodes (nxDg t)).
Proof.
  split_and!.
  - apply bfs_lt_next.
  - unfold getNextIndex. rewrite Z.add_simpl_r.
    destruct (foldr_max_in (rootId t) (breadthFirstTraversal t)) as [->|H];
      [apply root_in_traversal|done].
  - intros Ht Hn%(tree_node_lt_next t _ Ht). lia.
Qed.

(** ** [makeSelfName] *)

(** A name up to its first dot, and the rest from that dot on. *)
Lemma first_dot_split (name : string) :
  ∃ a rest, name = a +:+ rest ∧ dot_free a = true
            ∧ (rest = "" ∨ ∃ b, rest = "." +:+ b).
Proof.
  induction name as [|x name (a & rest & -> & Ha & Hrest)].
  { exists "", "". auto. }
  destruct (decide (x = "."%char)) as [->|Hx].
  - exists "", (String "." (a +:+ rest)). split_and!; [done..|]. right. eauto.
  - exists (String x a), rest. split_and!; [done| |done].
    cbn [dot_free]. by rewrite Ha, bool_decide_eq_false_2.
Qed.

(** X2: [makeSelfName] puts the suffix at the end of a name without a dot
    and otherwise right before the first dot, keeping everything from that
    dot on; with the empty suffix it gives the name back. *)
Theorem makeSelfName_placement (name suffix : string) :
  makeSelfName name "" = name
  ∧ (∃ a rest, name = a +:+ rest ∧ dot_free a = true
               ∧ (rest = "" ∨ ∃ b, rest = "." +:+ b)
               ∧ makeSelfName name suffix = a +:+ suffix +:+ rest)
  ∧ String.length (makeSelfName name suffix)
    = (String.length name + String.length suffix)%nat.
Proof.
  assert (∀ a b : string,
            String.length (a +:+ b) = (String.length a + String.length b)%nat)
    as Hlen.
  { intros a b. induction a as [|x a IH]; [done|].
    rewrite string_app_cons. cbn [String.length]. by rewrite IH. }
  assert (∃ a rest, name = a +:+ rest ∧ dot_free a = true
                    ∧ (rest = "" ∨ ∃ b, rest = "." +:+ b)
                    ∧ makeSelfName name suffix = a +:+ suffix +:+ rest) as Hsplit.
  { destruct (first_dot_split name) as (a & rest & -> & Ha & Hrest).
    exists a, rest. split_and!; [done..|].
    destruct Hrest as [->|[b ->]].
    - rewrite !string_app_nil_r. by apply makeSelfName_no_dot.
    - by apply makeSelfName_first_dot. }
  split_and!; [|done|].
  - pose proof (join_split_on name "") as Hj. unfold makeSelfName.
    destruct (split_on "." name) as [|tok rest]; [done|].
    by rewrite string_app_nil_r.
  - destruct Hsplit as (a & rest & -> & _ & _ & ->).
    rewrite !Hlen. lia.
Qed.

(** ** [getSubtreeRoot] *)

(** X3: for every registered name of a node other than the root,
    [getSubtreeRoot] stops at line 94, where the local [parent] is read
    before it is assigned: the walk up the ancestors is never taken. *)
Theorem getSubtreeRoot_below_root t name node :
  nameToId t !! name = Some node -> node ≠ rootId t ->
  getSubtreeRoot t name = Raise UnboundLocalError.
Proof.
  intros Hname Hnode. unfold getSubtreeRoot. rewrite Hname.
  by rewrite bool_decide_eq_false_2.
Qed.

(** ** [assignSubtreeRootNames] and [getSubtreeRootNames] *)

Lemma assignSubtreeRootNames_index rootNames t :
  nameToId (assignSubtreeRootNames rootNames t) = nameToId t.
Proof.
  unfold assignSubtreeRootNames.
  assert (∀ l t1,
    nameToId (foldl (λ t node, if bool_decide (getName t node ∈ rootNames)
                               then add_subtreeRoot node t else t) t1 l)
    = nameToId t1) as Hgen.
  { induction l as [|x l IH]; intros t1; [done|]. cbn [foldl]. rewrite IH.
    by case_bool_decide. }
  by rewrite Hgen.
Qed.

(** X4: [assignSubtreeRootNames] throws the old set of subtree-roots away
    and marks exactly the nodes of the traversal whose name is in the list;
    graph, root and name index stay.  Reading the names back with
    [getSubtreeRootNames] and assigning them again gives the same set, when
    the marked nodes are on the traversal and no other node of the traversal
    carries the name of one. *)
Theorem assignSubtreeRootNames_marks rootNames t :
  let t' := assignSubtreeRootNames rootNames t in
  nxDg t' = nxDg t ∧ rootId t' = rootId t ∧ nameToId t' = nameToId t
  ∧ (∀ m, m ∈ subtreeRoots t' <->
          m ∈ breadthFirstTraversal t ∧ getName t m ∈ rootNames)
  ∧ (∀ s, subtreeRoots (assignSubtreeRootNames rootNames (set_subtreeRoots s t))
          = subtreeRoots t')
  ∧ ((∀ x, x ∈ subtreeRoots t -> x ∈ breadthFirstTraversal t) ->
     (∀ x m, x ∈ subtreeRoots t -> m ∈ breadthFirstTraversal t ->
             getName t m = getName t x -> m = x) ->
     subtreeRoots (assignSubtreeRootNames (getSubtreeRootNames t) t)
     = subtreeRoots t).
Proof.
  cbv zeta.
  destruct (assignSubtreeRootNames_spec rootNames t) as (Hg & Hr & Hsr).
  split_and!; [done|done|apply assignSubtreeRootNames_index|done| |].
  - intros s. apply set_eq. intros m. rewrite Hsr.
    destruct (assignSubtreeRootNames_spec rootNames (set_subtreeRoots s t))
      as (_ & _ & Hsr').
    by rewrite Hsr'.
  - intros Hon Huniq. apply set_eq. intros m.
    destruct (assignSubtreeRootNames_spec (getSubtreeRootNames t) t)
      as (_ & _ & Hsr').
    rewrite Hsr'. unfold getSubtreeRootNames. rewrite list_elem_of_fmap.
    split.
    + intros (Hm & x & Hname & Hx%elem_of_elements).
      by rewrite (Huniq x m Hx Hm Hname).
    + intros Hm. split; [by apply Hon|]. exists m. by rewrite elem_of_elements.
Qed.

(** ** [traverseSubtree] *)

(** X5: on a tree, [traverseSubtree(root, root)] comes to an end; it yields
    the root first, and the nodes it yields are the root's clade: the
    descendants of the root reached without passing below another
    subtree-root, those subtree-roots included. *)
Theorem traverseSubtree_clade t root :
  is_tree t -> root ∈ g_nodes (nxDg t) ->
  ∃ l, traverseSubtree (S (length (g_edges (nxDg t)))) t root root = Some l
       ∧ head l = Some root
       ∧ (∀ m, m ∈ l <-> in_clade t root m)
       ∧ (∀ m, m ∈ l -> m ∈ g_nodes (nxDg t))
       ∧ (∀ m c, m ∈ l -> m ≠ root -> m ∈ subtreeRoots t ->
                 c ∈ getChildren t m -> c ∉ l).
Proof.
  intros Ht Hroot.
  destruct (reach_level _ _ _ (tree_connected t Ht root Hroot)) as [k Hk].
  destruct (traverseSubtree_total t root (S (length (g_edges (nxDg t)))) root k
              (tree_acyclic t Ht) Hk) as [l Hl]; [lia|].
  destruct (traverseSubtree_yields _ _ _ _ _ Hl) as [Hhead Hmem].
  assert (∀ m, m ∈ l <-> in_clade t root m) as Hclade.
  { intros m. by rewrite Hmem, in_clade_yields. }
  exists l. split_and!; [done..| |].
  - intros m Hm%Hclade%in_clade_reach. by eapply reach_nodes.
  - intros m c Hm Hne Hsr Hc Hin%Hclade.
    (* the only way into [c] is through its parent [m] *)
    inversion Hin as [Heq|p c' Hp Hopen Hc']; subst.
    + apply Hclade, in_clade_reach in Hm.
      destruct (tree_acyclic t Ht) as [rank Hrank].
      apply elem_of_children in Hc as [w Hc].
      pose proof (reach_rank _ rank _ _ Hrank Hm).
      apply Hrank in Hc. cbn in Hc. lia.
    + assert (p = m) as ->.
      { apply (parent_unique (nxDg t) (tree_indegree t Ht) p m c); done. }
      destruct Hopen; done.
Qed.

(** ** [computeSubtreeRoots] *)

(** One call, past the choice of the start node. *)
Lemma computeSubtreeRoots_step fuel r t :
  computeSubtreeRoots (S fuel) (Some r) t
  = if bool_decide (r ∈ subtreeRoots t) then (Raise AssertionError, t)
    else match getSubtreeLeaves (add_subtreeRoot r t) r with
         | Ok leaves =>
             for_each leaves
               (λ subtreeLeaf,
                  leaf ← gets (λ t, isLeaf t subtreeLeaf);
                  if leaf : bool then mret tt
                  else computeSubtreeRoots fuel (Some subtreeLeaf))
               (add_subtreeRoot r t)
         | Raise e => (Raise e, add_subtreeRoot r t)
         end.
Proof.
  cbn [computeSubtreeRoots].
  unfold mbind, M_bind, mret, M_ret, gets, modify, assert, raise, lift.
  case_bool_decide; cbn [negb]; unfold mret, M_ret; [done|].
  by destruct (getSubtreeLeaves (add_subtreeRoot r t) r).
Qed.

Lemma computeSubtreeRoots_from_root fuel t :
  computeSubtreeRoots (S fuel) None t
  = computeSubtreeRoots (S fuel) (Some (rootId t)) (set_subtreeRoots ∅ t).
Proof. done. Qed.

Lemma computeSubtreeRoots_grows fuel : ∀ r t,
  let res := computeSubtreeRoots fuel (Some r) t in
  res.2 = set_subtreeRoots (subtreeRoots res.2) t
  ∧ subtreeRoots t ⊆ subtreeRoots res.2
  ∧ (∀ m, m ∈ subtreeRoots res.2 ->
          m ∈ subtreeRoots t ∨ m = r ∨ isLeaf t m = false)
  ∧ (res.1 = Ok tt -> r ∈ subtreeRoots res.2).
Proof.
  induction fuel as [|fuel IH]; intros r t; cbv zeta.
  { cbn. split_and!; [by destruct t|done|auto|done]. }
  rewrite computeSubtreeRoots_step. case_bool_decide as Hr.
  { cbn. split_and!; [by destruct t|done|auto|done]. }
  set (t1 := add_subtreeRoot r t).
  assert (∀ leaves t2,
    let res := for_each leaves
                 (λ subtreeLeaf,
                    leaf ← gets (λ t, isLeaf t subtreeLeaf);
                    if leaf : bool then mret tt
                    else computeSubtreeRoots fuel (Some subtreeLeaf)) t2 in
    res.2 = set_subtreeRoots (subtreeRoots res.2) t2
    ∧ subtreeRoots t2 ⊆ subtreeRoots res.2
    ∧ (∀ m, m ∈ subtreeRoots res.2 ->
            m ∈ subtreeRoots t2 ∨ isLeaf t2 m = false)) as Hloop.
  { induction leaves as [|x leaves IHl]; intros t2; cbv zeta.
    { cbn. split_and!; [by destruct t2|done|auto]. }
    cbn [for_each]. unfold mbind, M_bind, gets.
    destruct (isLeaf t2 x) eqn:Hx.
    - unfold mret, M_ret. apply IHl.
    - destruct (IH x t2) as (Hf & Hsub & Hmarks & _). cbv zeta in Hf, Hsub, Hmarks.
      destruct (computeSubtreeRoots fuel (Some x) t2) as [[[]|e] t3];
        cbn [fst snd] in *.
      + destruct (IHl t3) as (Hf' & Hsub' & Hmarks'). cbv zeta in Hf', Hsub', Hmarks'.
        set (res := for_each leaves _ t3) in *.
        assert (∀ m, isLeaf t3 m = isLeaf t2 m) as Hleaf by (by rewrite Hf).
        split_and!.
        * rewrite Hf', Hf. by destruct t2.
        * set_solver.
        * intros m [Hm|Hm]%Hmarks'; [|right; by rewrite <-Hleaf].
          destruct (Hmarks m Hm) as [?|[->|?]]; auto.
      + split_and!; [done|done|].
        intros m Hm. destruct (Hmarks m Hm) as [?|[->|?]]; auto. }
  assert (∀ m, isLeaf t1 m = isLeaf t m) as Hleaf1 by done.
  destruct (getSubtreeLeaves t1 r) as [leaves|e].
  - destruct (Hloop leaves t1) as (Hf & Hsub & Hmarks). cbv zeta in Hf, Hsub, Hmarks.
    set (res := for_each leaves _ t1) in *.
    split_and!.
    + rewrite Hf. by destruct t.
    + subst t1. cbn in Hsub. set_solver.
    + intros m [Hm|Hm]%Hmarks; [|right; right; by rewrite <-Hleaf1].
      subst t1. cbn in Hm. set_solver.
    + intros _. apply Hsub. subst t1. cbn. set_solver.
  - cbn [fst snd]. split_and!; [by destruct t|subst t1; cbn; set_solver| |done].
    intros m Hm. subst t1. cbn in Hm. set_solver.
Qed.

(** X6: [computeSubtreeRoots] changes nothing of the tree but the set of
    subtree-roots; called without a start node it empties the set first and
    starts at the root.  Whether it ends well or not, it keeps the marks it
    found and adds only the start node and nodes that are not leaves; when
    it ends well the start node is marked.  Called on a node that is
    already marked it fails the assertion and leaves the tree as it was. *)
Theorem computeSubtreeRoots_marks fuel root t :
  let start := default (rootId t) root in
  let before := match root with Some _ => subtreeRoots t | None => ∅ end in
  let res := computeSubtreeRoots (S fuel) root t in
  res.2 = set_subtreeRoots (subtreeRoots res.2) t
  ∧ before ⊆ subtreeRoots res.2
  ∧ (∀ m, m ∈ subtreeRoots res.2 ->
          m ∈ before ∨ m = start ∨ isLeaf t m = false)
  ∧ (res.1 = Ok tt -> start ∈ subtreeRoots res.2)
  ∧ (start ∈ before -> res = (Raise AssertionError, t)).
Proof.
  destruct root as [r|]; cbv zeta; cbn [default].
  - destruct (computeSubtreeRoots_grows (S fuel) r t) as (Hf & Hsub & Hmarks & Hok).
    split_and!; [done..|].
    intros Hr. rewrite computeSubtreeRoots_step. by rewrite bool_decide_eq_true_2.
  - rewrite computeSubtreeRoots_from_root.
    destruct (computeSubtreeRoots_grows (S fuel) (rootId t) (set_subtreeRoots ∅ t))
      as (Hf & Hsub & Hmarks & Hok).
    cbv zeta in Hf, Hsub, Hmarks, Hok.
    set (res := computeSubtreeRoots (S fuel) _ _) in *.
    split_and!; [|done|exact Hmarks|exact Hok|set_solver].
    rewrite Hf at 1. by destruct t.
Qed.

(** ** [nameUnlabeledInternalNodes] and the name index *)

Lemma name_step_index prefix count t x :
  nameToId (name_step prefix (count, t) x).2
  = <[getName (name_step prefix (count, t) x).2 x := x]> (nameToId t).
Proof.
  unfold name_step. by destruct (negb (isLeaf t x) && negb (hasName t x)).
Qed.

(** The index after the loop: each name points at the last node of the
    list that carries it; the other entries are as before. *)
Lemma name_loop_index prefix l : ∀ count t,
  NoDup l ->
  let t' := (foldl (name_step prefix) (count, t) l).2 in
  ∀ s, nameToId t' !! s
       = match last (filter (λ x, getName t' x = s) l) with
         | Some x => Some x
         | None => nameToId t !! s
         end.
Proof.
  induction l as [|x l IH]; intros count t Hnd; cbv zeta; [done|].
  apply NoDup_cons in Hnd as [Hx Hnd]. cbn [foldl]. intros s.
  pose proof (name_step_index prefix count t x) as Hidx.
  destruct (name_step prefix (count, t) x) as [count1 t1] eqn:Hstep.
  cbn [snd] in Hidx.
  pose proof (name_loop_frame prefix l count1 t1) as (_ & _ & _ & Hkeep & _).
  specialize (IH count1 t1 Hnd). cbv zeta in IH.
  set (t' := (foldl (name_step prefix) (count1, t1) l).2) in *.
  assert (getName t' x = getName t1 x) as Hname.
  { unfold getName. rewrite Hkeep; [done|by left]. }
  rewrite IH, filter_cons, Hidx.
  destruct (decide (getName t' x = s)) as [Hs|Hs].
  - rewrite last_cons.
    destruct (last (filter (λ y, getName t' y = s) l)) as [y|]; [done|].
    by rewrite <-Hname, Hs, lookup_insert_eq.
  - destruct (last (filter (λ y, getName t' y = s) l)) as [y|]; [done|].
    rewrite lookup_insert_ne; [done|]. by rewrite <-Hname.
Qed.

(** X7: when [nameUnlabeledInternalNodes] has gone through, the name index
    holds every name carried by a node of the traversal; a name carried by
    several such nodes points at the last of them in breadth-first order,
    so a name carried by one node only points at that node; names carried
    by no node of the traversal keep the entry they had. *)
Theorem nameUnlabeledInternalNodes_index prefix startIdx t :
  is_tree t ->
  (∀ k, (k < length (filter (unnamed t) (breadthFirstTraversal t)))%nat ->
        name_free t (prefix +:+ fmt_d (startIdx + Z.of_nat k))) ->
  ∃ t', nameUnlabeledInternalNodes prefix startIdx t = (Ok tt, t')
    ∧ (∀ s, nameToId t' !! s
            = match last (filter (λ x, getName t' x = s)
                            (breadthFirstTraversal t)) with
              | Some x => Some x
              | None => nameToId t !! s
              end)
    ∧ (∀ x, x ∈ breadthFirstTraversal t ->
            ∃ y, nameToId t' !! getName t' x = Some y
                 ∧ y ∈ breadthFirstTraversal t ∧ getName t' y = getName t' x)
    ∧ (∀ x, x ∈ breadthFirstTraversal t ->
            (∀ y, y ∈ breadthFirstTraversal t ->
                  getName t' y = getName t' x -> y = x) ->
            nameToId t' !! getName t' x = Some x).
Proof.
  intros Ht Hfree.
  assert (NoDup (breadthFirstTraversal t)) as Hnd
    by (apply bfs_NoDup; apply Ht).
  pose proof (name_loop_index prefix (breadthFirstTraversal t) startIdx t Hnd)
    as Hidx.
  cbv zeta in Hidx.
  set (t' := (foldl (name_step prefix) (startIdx, t) (breadthFirstTraversal t)).2)
    in *.
  assert (∀ x, x ∈ breadthFirstTraversal t ->
            ∃ y, nameToId t' !! getName t' x = Some y
                 ∧ y ∈ breadthFirstTraversal t ∧ getName t' y = getName t' x)
    as Hsome.
  { intros x Hx. rewrite Hidx.
    destruct (last (filter _ _)) as [y|] eqn:Hlast.
    - exists y. split; [done|].
      apply last_Some_elem_of, list_elem_of_filter in Hlast. tauto.
    - apply last_None in Hlast.
      assert (x ∈ filter (λ y, getName t' y = getName t' x)
                    (breadthFirstTraversal t)) as Hin
        by (by apply list_elem_of_filter).
      rewrite Hlast in Hin. by apply not_elem_of_nil in Hin. }
  exists t'. split_and!; [|done|done|].
  - unfold nameUnlabeledInternalNodes, mbind, M_bind, gets.
    by apply name_loop_run.
  - intros x Hx Huniq. destruct (Hsome x Hx) as (y & -> & Hy & Hname).
    f_equal. by apply Huniq.
Qed.

(** ** [insertAbove] *)

(** X8: [insertAbove] on a node without a parent.  If the node is not the
    root, the assertion on line 127 fails and the tree is left as it was.
    On the root of a tree, with a fresh id [new] and a name no other node
    carries, the result is a tree again whose root is [new], with the old
    root as its only child at the weight handed in; every other node keeps
    its parent and its name, and the subtree-roots stay. *)
Theorem insertAbove_at_root t node new name (ow : option W) :
  getParent t node = None ->
  (node ≠ rootId t -> insertAbove node new name ow t = (Raise AssertionError, t))
  ∧ (node = rootId t -> is_tree t ->
     new ∉ g_nodes (nxDg t) -> ¬ name_taken (nxDg t) new name ->
     ∃ t', insertAbove node new name ow t = (Ok tt, t')
       ∧ is_tree t'
       ∧ g_nodes (nxDg t') = g_nodes (nxDg t) ++ [new]
       ∧ rootId t' = new
       ∧ getParent t' node = Some new
       ∧ getParent t' new = None
       ∧ getChildren t' new = [node]
       ∧ getWeight t' new node = ow
       ∧ getName t' new = name
       ∧ (∀ m, m ≠ new -> getName t' m = getName t m)
       ∧ (∀ m, m ≠ new -> m ≠ node -> getParent t' m = getParent t m)
       ∧ subtreeRoots t' = subtreeRoots t
       ∧ nameToId t' = index_if_named name new (nameToId t)).
Proof.
  intros Hp. split.
  { intros Hnode. unfold insertAbove.
    unfold mbind, M_bind, gets at 1. rewrite Hp.
    unfold mbind, M_bind, gets, assert, raise.
    by rewrite bool_decide_eq_false_2. }
  intros -> Ht Hnew Hfree.
  pose proof (tree_indegree t Ht) as Hin.
  pose proof (tree_root t Ht) as Hroot.
  assert (∀ e, e ∈ g_edges (nxDg t) -> e_src e ≠ new ∧ e_dst e ≠ new) as Hfresh.
  { intros e [Hs Hd]%(tree_ends t Ht). split; by intros Heq; rewrite Heq in *. }
  assert (rootId t ≠ new) as Hrnew by (by intros Heq; rewrite Heq in * ).
  eexists. split; [by apply insertAbove_root|].
  set (g' := mkDiGraph _ _ _). set (t' := mkTree g' _ _ _ _).
  assert (∀ e, e ∈ g_edges g' <->
               e ∈ g_edges (nxDg t) ∨ e = Edge new (rootId t) ow) as Hedges.
  { intros e. unfold g'. cbn [g_edges].
    by rewrite elem_of_app, list_elem_of_singleton. }
  assert (NoDup (e_dst <$> g_edges g')) as Hin'.
  { unfold g'. cbn [g_edges]. rewrite fmap_app. apply NoDup_app. split_and!.
    - exact Hin.
    - intros x (e & -> & Hein)%list_elem_of_fmap.
      cbn. rewrite list_elem_of_singleton. by apply (parent_of_None _ _ Hp).
    - apply NoDup_singleton. }
  assert (∀ n, reach (nxDg t) (rootId t) n -> reach g' new n) as Hreach.
  { induction 1 as [|q c _ IH [w' Hc]%elem_of_children].
    - eapply reach_step; [constructor|]. apply elem_of_children. exists ow.
      apply Hedges. by right.
    - eapply reach_step; [exact IH|]. apply elem_of_children. exists w'.
      apply Hedges. by left. }
  assert (is_tree t') as Ht'.
  { split; cbn [nxDg rootId t'].
    - destruct (tree_acyclic t Ht) as [rank Hrank].
      exists (λ x, if decide (x = new) then 0%nat else S (rank x)).
      intros e [Hein| ->]%Hedges; cbn.
      + destruct (Hfresh e Hein) as [Hs Hd'].
        rewrite !decide_False by done. apply Hrank in Hein. lia.
      + rewrite decide_True, decide_False by done. lia.
    - exact Hin'.
    - intros e [Hein| ->]%Hedges; unfold g'; cbn [g_nodes e_src e_dst];
        rewrite !elem_of_app, !list_elem_of_singleton; [|auto].
      destruct (tree_ends t Ht e Hein). auto.
    - unfold g'. cbn [g_nodes]. apply elem_of_app. right. by left.
    - intros n. unfold g' at 1. cbn [g_nodes].
      intros [Hn| ->%list_elem_of_singleton]%elem_of_app.
      + by apply Hreach, tree_connected.
      + constructor. }
  split_and!; [done|done|done|..|done|done].
  - apply (parent_of_child g' Hin'), elem_of_children. exists ow.
    apply Hedges. by right.
  - apply parent_of_no_edge. intros e [Hein| ->]%Hedges; cbn; [|done].
    by apply Hfresh in Hein as [_ ?].
  - apply NoDup_only; [apply (children_NoDup g' Hin')|]. intros c. split.
    + intros [w' [Hein|Hc]%Hedges]%elem_of_children; [|congruence].
      by apply Hfresh in Hein as [? _].
    + intros ->. apply elem_of_children. exists ow. apply Hedges. by right.
  - apply (weight_of_edge g' Hin'), Hedges. by right.
  - unfold getName, t', g'. cbn. by rewrite lookup_insert_eq.
  - intros m Hm. unfold getName, t', g'. cbn. by rewrite lookup_insert_ne.
  - intros m Hm Hmn. destruct (getParent t m) as [q|] eqn:Hq.
    + apply parent_of_elem, elem_of_children in Hq as [w' Hq].
      apply (parent_of_child g' Hin'), elem_of_children. exists w'.
      apply Hedges. by left.
    + apply parent_of_no_edge.
      intros e [Hein| ->]%Hedges; cbn; [|congruence].
      by apply (parent_of_None _ _ Hq).
Qed.

(** X9: [insertAbove] on a node [node] of a tree that hangs under a parent
    [p], with a fresh id [new] and a name no other node carries: the result
    is a tree again, with the one node [new] added; [new] hangs under [p]
    by an edge with the weight the edge from [p] to [node] had, [node] is
    the only child of [new], at the weight handed in; [new] carries the
    name, which is indexed when it is not empty; every other node keeps its
    parent and its name, and the root and the subtree-roots stay. *)
Theorem insertAbove_below_parent t node p new name (ow : option W) :
  is_tree t -> getParent t node = Some p ->
  new ∉ g_nodes (nxDg t) -> ¬ name_taken (nxDg t) new name ->
  ∃ t', insertAbove node new name ow t = (Ok tt, t')
    ∧ is_tree t'
    ∧ g_nodes (nxDg t') = g_nodes (nxDg t) ++ [new]
    ∧ getParent t' node = Some new
    ∧ getParent t' new = Some p
    ∧ getChildren t' new = [node]
    ∧ getWeight t' p new = getWeight t p node
    ∧ getWeight t' new node = ow
    ∧ getName t' new = name
    ∧ (∀ m, m ≠ new -> getName t' m = getName t m)
    ∧ (∀ m, m ≠ new -> m ≠ node -> getParent t' m = getParent t m)
    ∧ rootId t' = rootId t ∧ subtreeRoots t' = subtreeRoots t
    ∧ nameToId t' = index_if_named name new (nameToId t).
Proof.
  intros Ht Hp Hnew Hfree.
  pose proof (tree_indegree t Ht) as Hin.
  destruct (proj1 (elem_of_children _ _ _) (parent_of_elem _ _ _ Hp)) as [w He].
  assert (getWeight t p node = w) as Hw by (by apply weight_of_edge).
  destruct (tree_ends t Ht _ He) as [Hpn Hnn]. cbn in Hpn, Hnn.
  assert (∀ e, e ∈ g_edges (nxDg t) -> e_src e ≠ new ∧ e_dst e ≠ new) as Hfresh.
  { intros e [Hs Hd]%(tree_ends t Ht). split; by intros Heq; rewrite Heq in *. }
  assert (p ≠ new ∧ node ≠ new) as [Hpnew Hnnew] by (split; by intros ->).
  eexists. split; [by apply insertAbove_parent|].
  rewrite Hw. set (g' := mkDiGraph _ _ _). set (t' := mkTree g' _ _ _ _).
  assert (∀ e, e ∈ g_edges g' <->
               (e ∈ g_edges (nxDg t) ∧ e_dst e ≠ node)
               ∨ e = Edge p new w ∨ e = Edge new node ow) as Hedges.
  { intros e. unfold g', unlink. cbn [g_edges].
    rewrite elem_of_app, list_elem_of_filter, !elem_of_cons, elem_of_nil.
    split.
    - intros [[Hne Hein]|[->|[->|[]]]]; auto. left. split; [done|].
      intros Hd. apply Hne. by rewrite (edge_unique _ Hin e _ Hein He Hd).
    - intros [[Hein Hd]|[->| ->]]; auto. left. split; [|done]. by intros [_ ?]. }
  assert (NoDup (e_dst <$> g_edges g')) as Hin'.
  { unfold g', unlink. cbn [g_edges]. rewrite fmap_app. apply NoDup_app. split_and!.
    - eapply sublist_NoDup; [exact Hin|]. apply fmap_sublist, sublist_filter.
    - intros x (e & -> & [Hne Hein]%list_elem_of_filter)%list_elem_of_fmap.
      cbn. rewrite !elem_of_cons, elem_of_nil. intros [Hx|[Hx|[]]].
      + by apply Hfresh in Hein as [_ ?].
      + apply Hne. by rewrite (edge_unique _ Hin e _ Hein He Hx).
    - cbn. apply NoDup_cons. split; [|apply NoDup_singleton].
      rewrite list_elem_of_singleton. congruence. }
  assert (∀ n, reach (nxDg t) (rootId t) n -> reach g' (rootId t) n) as Hreach.
  { induction 1 as [|q c _ IH [w' Hc]%elem_of_children]; [constructor|].
    destruct (decide (c = node)) as [->|Hc'].
    - pose proof (edge_unique _ Hin _ _ Hc He eq_refl) as [= -> _].
      eapply reach_step; [eapply reach_step; [exact IH|]|];
        apply elem_of_children; eexists; apply Hedges; auto.
    - eapply reach_step; [exact IH|]. apply elem_of_children. exists w'.
      apply Hedges. left. by split. }
  assert (is_tree t') as Ht'.
  { split; cbn [nxDg rootId t'].
    - destruct (tree_acyclic t Ht) as [rank Hrank].
      exists (λ x, if decide (x = new) then (2 * rank node - 1)%nat
                   else (2 * rank x)%nat).
      pose proof (Hrank _ He) as Hpn'. cbn in Hpn'.
      intros e [[Hein Hd]|[->| ->]]%Hedges; cbn.
      + destruct (Hfresh e Hein) as [Hs Hd'].
        rewrite !decide_False by done. apply Hrank in Hein. lia.
      + rewrite decide_False, decide_True by done. lia.
      + rewrite decide_True, decide_False by done. lia.
    - exact Hin'.
    - intros e [[Hein Hd]|[->| ->]]%Hedges; unfold g'; cbn [g_nodes e_src e_dst];
        rewrite !elem_of_app, !list_elem_of_singleton; [|auto..].
      destruct (tree_ends t Ht e Hein). auto.
    - unfold g'. cbn [g_nodes]. apply elem_of_app. left. apply Ht.
    - intros n. unfold g' at 1. cbn [g_nodes].
      intros [Hn| ->%list_elem_of_singleton]%elem_of_app.
      + by apply Hreach, tree_connected.
      + eapply reach_step; [apply Hreach, (tree_connected t Ht p Hpn)|].
        apply elem_of_children. exists w. apply Hedges. auto. }
  split_and!; [done|done|..|done|done|done].
  - apply (parent_of_child g' Hin'), elem_of_children. exists ow.
    apply Hedges. auto.
  - apply (parent_of_child g' Hin'), elem_of_children. exists w.
    apply Hedges. auto.
  - apply NoDup_only; [apply (children_NoDup g' Hin')|]. intros c. split.
    + intros [w' [[Hein _]|[Hc|Hc]]%Hedges]%elem_of_children;
        [|congruence..].
      by apply Hfresh in Hein as [? _].
    + intros ->. apply elem_of_children. exists ow. apply Hedges. auto.
  - apply (weight_of_edge g' Hin'), Hedges. auto.
  - apply (weight_of_edge g' Hin'), Hedges. auto.
  - unfold getName, t', g'. cbn. by rewrite lookup_insert_eq.
  - intros m Hm. unfold getName, t', g'. cbn. by rewrite lookup_insert_ne.
  - intros m Hm Hmn. destruct (getParent t m) as [q|] eqn:Hq.
    + apply parent_of_elem, elem_of_children in Hq as [w' Hq].
      apply (parent_of_child g' Hin'), elem_of_children. exists w'.
      apply Hedges. left. by split.
    + apply parent_of_no_edge.
      intros e [[Hein Hd]|[->| ->]]%Hedges; cbn; [|congruence..].
      by apply (parent_of_None _ _ Hq).
Qed.

(** ** [addOutgroup] keeps the tree a tree *)

(** X10: on a tree, with a name that is new (not in the index, carried by
    no node; above a leaf root the empty name is new too and the name is
    not empty), [addOutgroup] returns a tree again; the outgroup is a leaf
    under the root of the result, carries the name and is what the index
    gives for it; the nodes of the old tree are still there. *)
Theorem addOutgroup_keeps_tree half t ogName (distance : W) :
  is_tree t -> nameToId t !! ogName = None ->
  name_free t ogName ->
  (isLeaf t (rootId t) = true -> name_free t "" ∧ ogName ≠ "") ->
  ∃ t' og, addOutgroup half ogName distance t = (Ok tt, t')
    ∧ is_tree t'
    ∧ og ∉ g_nodes (nxDg t)
    ∧ getParent t' og = Some (rootId t')
    ∧ isLeaf t' og = true
    ∧ getName t' og = ogName
    ∧ nameToId t' !! ogName = Some og
    ∧ (∀ n, n ∈ g_nodes (nxDg t) -> n ∈ g_nodes (nxDg t')).
Proof.
  intros Ht Hidx Hfree Hempty.
  assert (∀ n, n ∈ g_nodes (nxDg t) -> n < getNextIndex t) as Hlt
    by (intros; by apply tree_node_lt_next).
  pose proof (tree_root t Ht) as Hroot.
  destruct (isLeaf t (rootId t)) eqn:Hleaf.
  - destruct Hempty as [Hnoempty Hog]; [done|].
    pose proof (leaf_root_edges t Ht Hleaf) as He.
    set (r' := getNextIndex t). set (og := r' + 1).
    assert (rootId t < r') as Hr by (by apply Hlt).
    eexists _, og. split; [by apply addOutgroup_leaf_root|].
    fold r' og. set (g' := mkDiGraph _ _ _). set (t' := mkTree g' _ _ _ _).
    assert (NoDup (e_dst <$> g_edges g')) as Hin'.
    { cbn. apply NoDup_cons. split; [|apply NoDup_singleton].
      rewrite list_elem_of_singleton. lia. }
    assert (is_tree t') as Ht'.
    { split; cbn [nxDg rootId t'].
      - exists (λ x, if decide (x = r') then 0%nat else 1%nat).
        intros e. unfold g'. cbn [g_edges].
        rewrite !elem_of_cons, elem_of_nil. intros [->|[->|[]]]; cbn;
          rewrite decide_True, decide_False by lia; lia.
      - exact Hin'.
      - intros e. unfold g'. cbn [g_edges g_nodes].
        rewrite !elem_of_cons, elem_of_nil. intros [->|[->|[]]]; cbn;
          rewrite !elem_of_app, !elem_of_cons; auto.
      - unfold g'. cbn [g_nodes]. apply elem_of_app. right. by left.
      - intros n. unfold g' at 1. cbn [g_nodes].
        rewrite elem_of_app, !elem_of_cons, elem_of_nil.
        intros [Hn|[->|[->|[]]]].
        + rewrite (leaf_root_nodes t n Ht Hleaf Hn).
          eapply reach_step; [constructor|]. apply elem_of_children.
          eexists. unfold g'. cbn [g_edges]. by left.
        + constructor.
        + eapply reach_step; [constructor|]. apply elem_of_children.
          eexists. unfold g'. cbn [g_edges]. right. by left. }
    split_and!; [done|..].
    + intros H%Hlt. lia.
    + apply (parent_of_child g' Hin'), elem_of_children. eexists.
      unfold g'. cbn [g_edges]. right. by left.
    + apply bool_decide_eq_true, children_of_fresh. intros e. unfold t', g'.
      cbn [nxDg g_edges]. rewrite !elem_of_cons, elem_of_nil.
      intros [->|[->|[]]]; cbn; lia.
    + unfold getName, t', g'. cbn. by rewrite lookup_insert_eq.
    + unfold t'. cbn. by rewrite lookup_insert_eq.
    + intros n Hn. unfold g'. cbn [g_nodes]. apply elem_of_app. by left.
  - set (og := getNextIndex t).
    eexists _, og. split; [by apply addOutgroup_inner_root|].
    fold og. set (g' := mkDiGraph _ _ _). set (t' := mkTree g' _ _ _ _).
    assert (∀ e, e ∈ g_edges (nxDg t) -> e_src e ≠ og ∧ e_dst e ≠ og) as Hfresh.
    { intros e He. pose proof (tree_edge_lt_next t e Ht He). fold og in H. lia. }
    assert (rootId t < og) as Hr by (by apply Hlt).
    assert (∀ e, e ∈ g_edges g' <->
                 e ∈ g_edges (nxDg t) ∨ e = Edge (rootId t) og (Some distance))
      as Hedges.
    { intros e. unfold g'. cbn [g_edges].
      by rewrite elem_of_app, list_elem_of_singleton. }
    assert (NoDup (e_dst <$> g_edges g')) as Hin'.
    { unfold g'. cbn [g_edges]. rewrite fmap_app. apply NoDup_app. split_and!.
      - apply Ht.
      - intros x (e & -> & Hein)%list_elem_of_fmap.
        cbn. rewrite list_elem_of_singleton. by apply Hfresh.
      - apply NoDup_singleton. }
    assert (∀ n, reach (nxDg t) (rootId t) n -> reach g' (rootId t) n) as Hreach.
    { induction 1 as [|q c _ IH [w' Hc]%elem_of_children]; [constructor|].
      eapply reach_step; [exact IH|]. apply elem_of_children. exists w'.
      apply Hedges. by left. }
    assert (is_tree t') as Ht'.
    { split; cbn [nxDg rootId t'].
      - destruct (tree_acyclic t Ht) as [rank Hrank].
        exists (λ x, if decide (x = og) then S (rank (rootId t)) else rank x).
        intros e [Hein| ->]%Hedges; cbn.
        + destruct (Hfresh e Hein). rewrite !decide_False by done.
          by apply Hrank.
        + rewrite decide_False, decide_True by lia. lia.
      - exact Hin'.
      - intros e [Hein| ->]%Hedges; unfold g'; cbn [g_nodes e_src e_dst];
          rewrite !elem_of_app, !list_elem_of_singleton; [|auto].
        destruct (tree_ends t Ht e Hein). auto.
      - unfold g'. cbn [g_nodes]. apply elem_of_app. by left.
      - intros n. unfold g' at 1. cbn [g_nodes].
        intros [Hn| ->%list_elem_of_singleton]%elem_of_app.
        + by apply Hreach, tree_connected.
        + eapply reach_step; [constructor|]. apply elem_of_children.
          eexists. apply Hedges. by right. }
    split_and!; [done|..].
    + intros H%Hlt. lia.
    + apply (parent_of_child g' Hin'), elem_of_children. eexists.
      apply Hedges. by right.
    + apply bool_decide_eq_true, children_of_fresh. unfold t'. cbn [nxDg].
      intros e [Hein| ->]%Hedges; cbn; [by apply Hfresh|lia].
    + unfold getName, t', g'. cbn. by rewrite lookup_insert_eq.
    + unfold t'. cbn. by rewrite lookup_insert_eq.
    + intros n Hn. unfold g'. cbn [g_nodes]. apply elem_of_app. by left.
Qed.

(** ** [addSelfEdges] and the branch lengths *)

(** X11: after [addSelfEdges], the edge from the former parent [p] of a
    node down to its self-node carries the weight the edge from [p] to the
    node had; the edge from the self-node down to the node carries that
    weight too, unless the id of [p] is 0: the test [if parent:] on line 151
    then takes [p] for no parent and the edge gets no weight. *)
Theorem addSelfEdges_weights t suffix :
  is_tree t ->
  Forall (name_free t) (self_names t suffix) ->
  NoDup (self_names t suffix) ->
  ∃ t', addSelfEdges suffix t = (Ok tt, t')
    ∧ ∀ i n p,
        filter (wants_self t) (breadthFirstTraversal t) !! i = Some n ->
        getParent t n = Some p ->
        let s := getNextIndex t + Z.of_nat i in
        getWeight t' p s = getWeight t p n
        ∧ getWeight t' s n
          = (if bool_decide (p = 0) then None else getWeight t p n).
Proof.
  intros Ht Hfree Hdistinct.
  destruct (self_loop_inv t suffix Ht Hfree Hdistinct
              (breadthFirstTraversal t) [] [] t)
    as (ps & t' & Hrun & Hinv & Hps1 & Hps2); try done.
  { apply bfs_NoDup; apply Ht. }
  { by apply self_inv_start. }
  cbn [app length] in Hrun, Hps1. rewrite Z.add_0_r in Hrun.
  exists t'. split.
  { unfold addSelfEdges, mbind, M_bind, gets. exact Hrun. }
  intros i n p Hi Hp s. rewrite <-Hps1 in Hi.
  assert ((n, s) ∈ ps) as Hns.
  { rewrite list_lookup_fmap in Hi.
    destruct (ps !! i) as [[n' s']|] eqn:Hpi; [|done]. injection Hi as ->.
    assert (ps.*2 !! i = Some s') as Hs by (by rewrite list_lookup_fmap, Hpi).
    rewrite Hps2, fresh_ids_lookup in Hs by (by eapply lookup_lt_Some).
    injection Hs as <-. by eapply list_elem_of_lookup_2. }
  destruct (proj1 (elem_of_children _ _ _) (parent_of_elem _ _ _ Hp)) as [w He].
  assert (getWeight t p n = w) as ->
    by (by apply (weight_of_edge _ (tree_indegree t Ht))).
  split.
  - apply (weight_of_edge _ (inv_indegree _ _ _ _ Hinv)).
    apply (inv_edges _ _ _ _ Hinv). right. exists n, s, p, w. auto.
  - replace (if bool_decide (p = 0) then None else w) with (self_weight p w)
      by (unfold self_weight, truthy; by case_bool_decide).
    apply (weight_of_edge _ (inv_indegree _ _ _ _ Hinv)).
    apply (inv_edges _ _ _ _ Hinv). right. exists n, s, p, w. auto.
Qed.

End MoreTreeFacts.

(** * Further properties of the driver *)

Section MoreDriverFacts.

Variable deps : string -> list string.
Variable followOn : string -> option string.
Variable isVirtual : string -> bool.
Variable nonRecursive : bool.
Variable alreadyDone : string -> bool.

#[local] Abbreviation run := (run deps followOn isVirtual nonRecursive alreadyDone).
#[local] Abbreviation step := (step deps followOn isVirtual nonRecursive alreadyDone).
#[local] Abbreviation exec := (exec deps followOn isVirtual nonRecursive alreadyDone).

Lemma step_pending tg lbl j :
  step (Pending tg) lbl j -> lbl = Some tg.
Proof. by inversion 1. Qed.

(** A child that was waiting either still waits or has run. *)
Lemma children_ran j tr j' :
  exec j tr j' ->
  ∀ children next tg, j = Running children next -> Pending tg ∈ children ->
    tg ∈ tr ∨ ∃ children', j' = Running children' next ∧ Pending tg ∈ children'.
Proof.
  induction 1 as [j|j lbl j1 tr j' Hs He IH]; intros children next tg -> Hin.
  { right. eauto. }
  inversion Hs as [|before j0 lbl0 j0' after next0 Hs0| children0 next0 Hall
                  | children0 Hall]; subst.
  - apply elem_of_app in Hin as [Hin|[Heq|Hin]%elem_of_cons].
    + destruct (IH _ _ tg eq_refl) as [Htr|Hr].
      * apply elem_of_app. by left.
      * left. apply elem_of_app. by right.
      * by right.
    + subst j0. apply step_pending in Hs0 as ->. left. cbn. by left.
    + destruct (IH _ _ tg eq_refl) as [Htr|Hr].
      * apply elem_of_app. right. by right.
      * left. apply elem_of_app. by right.
      * by right.
  - rewrite Forall_forall in Hall. by specialize (Hall _ Hin).
  - rewrite Forall_forall in Hall. by specialize (Hall _ Hin).
Qed.

(** X12: [ProgressiveDown] of an event submits the [ProgressiveDown] of each
    of its dependencies as a child and [ProgressiveNext] of the event as
    its follow-on: along every execution, once the job is past its
    children, the [ProgressiveDown] of every dependency has run.  With
    [--nonRecursive] it submits no child, and [ProgressiveNext] can be
    taken up at once. *)
Theorem dependencies_run_before_next event :
  (nonRecursive = false ->
   ∀ trace j, exec (Pending (ProgressiveDown event)) trace j ->
     j ≠ Pending (ProgressiveDown event) ->
     (∀ children, j ≠ Running children (Some (ProgressiveNext event))) ->
     ∀ d, d ∈ deps event -> ProgressiveDown d ∈ trace)
  ∧ (nonRecursive = true ->
     exec (Pending (ProgressiveDown event)) [ProgressiveDown event]
       (Pending (ProgressiveNext event))).
Proof.
  split.
  - intros Hrec trace j He Hne Hnr d Hd.
    assert ((run (ProgressiveDown event)).1 = ProgressiveDown <$> deps event)
      as Hc by (cbn; by rewrite Hrec).
    clear Hrec.
    inversion He as [|j0 lbl j1 tr j2 Hs He']; subst; [done|].
    inversion Hs; subst. rewrite Hc in He'.
    apply elem_of_app. right.
    destruct (children_ran _ _ _ He' _ _ (ProgressiveDown d) eq_refl) as [?|Hr].
    + rewrite <-list_fmap_compose. apply list_elem_of_fmap. by exists d.
    + done.
    + destruct Hr as (children' & -> & _). by destruct (Hnr children').
  - intros Hrec.
    assert (run (ProgressiveDown event) = ([], Some (ProgressiveNext event)))
      as Hrun by (cbn; by rewrite Hrec).
    clear Hrec.
    eapply exec_run; [apply step_run|]. rewrite Hrun. cbn [fst snd fmap list_fmap].
    eapply exec_silent; [by apply step_follow|]. constructor.
Qed.

End MoreDriverFacts.

(** * The theorems at work on the sample trees *)

(** A checkable criterion for [is_tree]. *)
Lemma is_tree_intro {W} (t : MultiCactusTree (W:=W)) (rank : Z -> nat) :
  Forall (λ e, (rank (e_src e) < rank (e_dst e))%nat) (g_edges (nxDg t)) ->
  NoDup (e_dst <$> g_edges (nxDg t)) ->
  Forall (λ e, e_src e ∈ g_nodes (nxDg t) ∧ e_dst e ∈ g_nodes (nxDg t))
         (g_edges (nxDg t)) ->
  rootId t ∈ g_nodes (nxDg t) ->
  Forall (λ n, n ∈ breadthFirstTraversal t) (g_nodes (nxDg t)) ->
  is_tree t.
Proof.
  rewrite !Forall_forall. intros Hrank Hin Hends Hroot Hbfs.
  assert (acyclic (nxDg t)) as Hac by (by exists rank).
  split; try done. intros n Hn. by apply (elem_of_bfs _ _ _ Hac), Hbfs.
Qed.

(** Settles a closed decidable statement by evaluation. *)
Ltac by_evaluation := apply (bool_decide_unpack _); vm_compute; exact I.

Lemma sample_raw_is_tree : is_tree sample_raw.
Proof. apply (is_tree_intro _ Z.to_nat); by_evaluation. Qed.

Lemma sample_tree_is_tree : is_tree sample_tree.
Proof. apply (is_tree_intro _ Z.to_nat); by_evaluation. Qed.

Lemma lone_leaf_is_tree : is_tree lone_leaf.
Proof. apply (is_tree_intro _ Z.to_nat); by_evaluation. Qed.

Example sample_tree_roots : elements (subtreeRoots sample_tree) = [1; 0].
Proof. by vm_compute. Qed.

Lemma getSubtreeLeaves_bounded_frontier_witness :
  ∃ res, getSubtreeLeaves sample_tree 0 = Ok res
         ∧ bounded_frontier sample_tree 0 res
         ∧ (∀ res', bounded_frontier sample_tree 0 res' -> res' = res)
         ∧ Z.of_nat (length res) ≤ subtreeSize sample_tree.
Proof. apply getSubtreeLeaves_bounded_frontier. by vm_compute. Defined.

(** C2, as stated, fails: the root of [star_tree] has three children under a
    cap of two, and [getSubtreeLeaves] does not return for it. *)
Lemma getSubtreeLeaves_over_cap_counterexample :
  subtreeSize star_tree < Z.of_nat (length (getChildren star_tree 0))
  ∧ getSubtreeLeaves star_tree 0 ≠ Ok []
  ∧ ¬ (∃ leaves, getSubtreeLeaves star_tree 0 = Ok leaves)
  ∧ (computeSubtreeRoots 5 None star_tree).1 ≠ Ok tt.
Proof.
  split; [by vm_compute|]. split; [by vm_compute|]. split; [|by vm_compute].
  intros [leaves H]. vm_compute in H. discriminate.
Qed.

Lemma getSubtreeLeaves_rejects_over_cap_witness :
  getSubtreeLeaves star_tree 0 = Raise AssertionError
  ∧ (computeSubtreeRoots 5 (Some 0) star_tree).1 = Raise AssertionError
  ∧ (rootId star_tree = 0 ->
     (computeSubtreeRoots 5 None star_tree).1 = Raise AssertionError).
Proof. apply (getSubtreeLeaves_rejects_over_cap star_tree 0 4). by vm_compute. Defined.

(** C5, as stated, fails: ["zebra"] is no name of [sample_tree], and
    [getSubtreeRoot] raises instead of returning [None]; for the registered
    leaf ["A"] it does not return the name of a subtree-root either. *)
Lemma getSubtreeRoot_counterexample :
  nameToId sample_tree !! "zebra"%string = None
  ∧ getSubtreeRoot sample_tree "zebra" ≠ Ok AnsNone
  ∧ nameToId sample_tree !! "A"%string = Some 2
  ∧ (∀ name, getSubtreeRoot sample_tree "A" ≠ Ok (AnsName name)).
Proof.
  split; [by vm_compute|]. split; [by vm_compute|]. split; [by vm_compute|].
  intros name H. vm_compute in H. discriminate.
Qed.

Lemma getSubtreeRoot_unregistered_or_root_witness :
  getSubtreeRoot sample_tree "zebra" = Raise KeyError
  ∧ getSubtreeRoot sample_tree "Anc0" = Ok (AnsNode (rootId sample_tree)).
Proof.
  split.
  - apply (getSubtreeRoot_unregistered_or_root sample_tree "zebra"). by vm_compute.
  - apply (getSubtreeRoot_unregistered_or_root sample_tree "Anc0"). by vm_compute.
Defined.

(** C9, as stated, fails in its second half: ["A"] is not in the name index
    of [sample_raw], which no method has filled yet, but the leaf 2 carries
    it, and [addOutgroup] fails with the Conflict of [setName]; by then the
    new edge from the root to node 5 is in the graph. *)
Lemma addOutgroup_unindexed_name_counterexample :
  nameToId sample_raw !! "A"%string = None
  ∧ g_name (nxDg sample_raw) !! 2 = Some "A"%string
  ∧ (addOutgroup half_int "A" 4 sample_raw).1 = Raise Conflict
  ∧ g_edges (nxDg (addOutgroup half_int "A" 4 sample_raw).2)
    = g_edges (nxDg sample_raw) ++ [Edge 0 5 None].
Proof. by vm_compute. Qed.

Lemma addOutgroup_conflict_witness :
  addOutgroup half_int "A" 4 sample_tree = (Raise AssertionError, sample_tree)
  ∧ (addOutgroup half_int "outgroup" 4 sample_tree).1 = Ok tt
  ∧ (addOutgroup half_int "A" 4 sample_raw).1 = Raise Conflict.
Proof.
  split_and!.
  - apply (addOutgroup_conflict half_int sample_tree "A" 4). by exists 2.
  - apply (addOutgroup_conflict half_int sample_tree "outgroup" 4);
      [by vm_compute|apply sample_tree_is_tree|by_evaluation|].
    intros Hleaf. by vm_compute in Hleaf.
  - apply (addOutgroup_conflict half_int sample_raw "A" 4);
      [by vm_compute|apply sample_raw_is_tree|].
    exists 2. split; [by_evaluation|by vm_compute].
Defined.

Example sample_raw_unnamed :
  filter (unnamed sample_raw) (breadthFirstTraversal sample_raw) = [0; 1].
Proof. by vm_compute. Qed.

Lemma nameUnlabeledInternalNodes_names_witness :
  ∃ t', nameUnlabeledInternalNodes "Anc" 0 sample_raw = (Ok tt, t')
    ∧ g_name (nxDg t') !! 0 = Some "Anc0"%string
    ∧ g_name (nxDg t') !! 1 = Some "Anc1"%string
    ∧ g_name (nxDg t') !! 2 = Some "A"%string
    ∧ (nameUnlabeledInternalNodes "Anc" 0 t').1 = Ok tt
    ∧ nxDg (nameUnlabeledInternalNodes "Anc" 0 t').2 = nxDg t'.
Proof.
  destruct (nameUnlabeledInternalNodes_names "Anc" 0 sample_raw)
    as [Hkeep Hpass].
  destruct (Hpass sample_raw_is_tree)
    as (t' & t'' & Hrun & Hnames & _ & _ & Hagain & Hsame).
  { rewrite sample_raw_unnamed. intros [|[|k]] Hk; [by_evaluation..|].
    cbn in Hk. lia. }
  rewrite sample_raw_unnamed in Hnames. rewrite Hrun in Hkeep.
  exists t'. split_and!.
  - exact Hrun.
  - exact (Hnames 0%nat 0 eq_refl).
  - exact (Hnames 1%nat 1 eq_refl).
  - rewrite Hkeep; [by vm_compute|]. right. by vm_compute.
  - by rewrite Hagain.
  - by rewrite Hagain.
Defined.

(** A generated name that a leaf already carries stops the pass. *)
Example nameUnlabeledInternalNodes_name_in_use :
  (nameUnlabeledInternalNodes "A" 0
     (mkTree (mkDiGraph [0; 1] (list_to_map [(1, "A0"%string)])
                [Edge 0 1 (Some 1)]) 0 ∅ ∅ 2)).1
  = Raise Conflict.
Proof. by vm_compute. Qed.

Lemma addOutgroup_shape_witness :
  (∃ r' og t',
     addOutgroup half_int "outgroup" 4 lone_leaf = (Ok tt, t')
     ∧ getChildren t' (rootId t') = [0; og]
     ∧ getWeight t' (rootId t') 0 = Some 2
     ∧ getWeight t' (rootId t') og = Some 2
     ∧ r' = rootId t')
  ∧ (∃ og t',
       addOutgroup half_int "outgroup" 4 sample_tree = (Ok tt, t')
       ∧ g_edges (nxDg t') = g_edges (nxDg sample_tree) ++ [Edge 0 og (Some 4)]).
Proof.
  split.
  - destruct (addOutgroup_shape half_int lone_leaf "outgroup" 4 lone_leaf_is_tree)
      as [Hleaf _]; [by vm_compute|by_evaluation|split; [by_evaluation|done]|].
    destruct Hleaf as (r' & og & t' & Hrun & _ & _ & _ & Ht' & Hc & Hw1 & Hw2 & _);
      [by vm_compute|].
    exists r', og, t'. split_and!; try done. by rewrite Ht'.
  - destruct (addOutgroup_shape half_int sample_tree "outgroup" 4 sample_tree_is_tree)
      as [_ Hinner]; [by vm_compute|by_evaluation| |].
    { intros Hleaf. by vm_compute in Hleaf. }
    destruct Hinner as (og & t' & Hrun & _ & Ht' & _); [by vm_compute|].
    exists og, t'. split; [done|]. by rewrite Ht'.
Defined.

Example sample_tree_root_unwanted : ¬ wants_self sample_tree 0.
Proof. unfold wants_self. intros [_ Hroot]. apply Hroot. by vm_compute. Qed.

Example sample_tree_third_wanted :
  filter (wants_self sample_tree) (breadthFirstTraversal sample_tree) !! 2%nat
  = Some 2.
Proof. by vm_compute. Qed.

Example sample_tree_facts :
  getNextIndex sample_tree + Z.of_nat 2 = 7
  ∧ getParent sample_tree 2 = Some 1
  ∧ makeSelfName (getName sample_tree 2) "_self" = "A_self"%string
  ∧ getParent sample_tree 0 = None
  ∧ 0 ∈ g_nodes (nxDg sample_tree)
  ∧ g_nodes (nxDg sample_tree)
    ++ fresh_ids (getNextIndex sample_tree)
         (length (filter (wants_self sample_tree)
                    (breadthFirstTraversal sample_tree)))
    = [0; 1; 2; 3; 4; 5; 6; 7; 8].
Proof.
  split; [by vm_compute|]. split; [by vm_compute|]. split; [by vm_compute|].
  split; [by vm_compute|]. split; [by_evaluation|]. by vm_compute.
Qed.

Lemma addSelfEdges_self_nodes_witness :
  ∃ t', addSelfEdges "_self" sample_tree = (Ok tt, t')
    ∧ g_nodes (nxDg t') = [0; 1; 2; 3; 4; 5; 6; 7; 8]
    ∧ getParent t' 2 = Some 7 ∧ getChildren t' 7 = [2]
    ∧ getParent t' 7 = Some 1 ∧ 7 ∈ subtreeRoots t'
    ∧ getName t' 7 = "A_self"%string
    ∧ getParent t' 0 = None.
Proof.
  destruct (addSelfEdges_self_nodes sample_tree "_self" sample_tree_is_tree)
    as (t' & Hrun & Hnodes & _ & _ & _ & Hself & Hother & _);
    [by_evaluation|by_evaluation|].
  destruct sample_tree_facts as (Hs & Hp2 & Hn2 & Hp0 & H0 & Hn).
  destruct (Hself 2%nat 2 sample_tree_third_wanted)
    as (_ & Hp & Hc & Hps & Hsr & Hnm).
  rewrite Hs in Hp, Hc, Hps, Hsr, Hnm. rewrite Hp2 in Hps. rewrite Hn2 in Hnm.
  rewrite Hn in Hnodes.
  pose proof (Hother 0 H0 sample_tree_root_unwanted) as Hroot.
  rewrite Hp0 in Hroot.
  exists t'. repeat (split; [eassumption|]). exact Hroot.
Defined.

(** No two nodes of [sample_tree] share the name of a subtree-root. *)
Lemma sample_tree_root_names x m :
  x ∈ subtreeRoots sample_tree -> m ∈ g_nodes (nxDg sample_tree) ->
  getName sample_tree m = getName sample_tree x -> m = x.
Proof.
  intros Hx%elem_of_elements Hm.
  assert (Forall (λ x, Forall (λ m, getName sample_tree m = getName sample_tree x
                                    -> m = x)
                         (g_nodes (nxDg sample_tree)))
                 (elements (subtreeRoots sample_tree))) as Hall by by_evaluation.
  rewrite Forall_forall in Hall. specialize (Hall x Hx).
  rewrite Forall_forall in Hall. by apply Hall.
Qed.

Lemma extractSubTree_clade_witness :
  ∃ cpy, extractSubTree sample_tree "Anc1" = Ok cpy
    ∧ rootId cpy = 1
    ∧ (∀ m, m ∈ g_nodes (nxDg cpy) <-> in_clade sample_tree 1 m)
    ∧ (∀ m, m ∈ g_nodes (nxDg cpy) ->
            (m ∈ subtreeRoots cpy <-> m ∈ subtreeRoots sample_tree)).
Proof.
  destruct (extractSubTree_clade sample_tree "Anc1" 1 sample_tree_is_tree)
    as (cpy & Hrun & Hroot & Hnodes & _ & _ & Hsr);
    [by vm_compute|by_evaluation|apply sample_tree_root_names|].
  exists cpy. split; [exact Hrun|]. split; [exact Hroot|].
  split; [exact Hnodes|exact Hsr].
Defined.

(** C10 on [sample_tree]: node 1 hangs under the root, whose id is 0, by an
    edge of weight 1.  After [addSelfEdges] the edge from the root to the
    self-node 5 has weight 1, and the edge from 5 down to node 1 has none:
    [if parent:] took the parent 0 for no parent. *)
Theorem addSelfEdges_loses_weight_under_node_zero :
  getParent sample_tree 1 = Some 0
  ∧ getWeight sample_tree 0 1 = Some 1
  ∧ let t' := (addSelfEdges "_self" sample_tree).2 in
    getParent t' 1 = Some 5
    ∧ getParent t' 5 = Some 0
    ∧ getWeight t' 0 5 = Some 1
    ∧ getWeight t' 5 1 = None.
Proof. by vm_compute. Qed.

(** C4, as stated, fails: with ["B"] the follow-on of ["A"], the driver can
    run [ProgressiveDown "B"] before [ProgressiveUp "A"] has run at all. *)
Lemma follow_on_after_work_counterexample :
  ¬ follow_on_after_work chain_deps chain_followOn chain_isVirtual false
      chain_alreadyDone "A".
Proof.
  intros Hclaim.
  assert (∃ j, exec chain_deps chain_followOn chain_isVirtual false
                 chain_alreadyDone (Pending (ProgressiveDown "A"))
                 [ProgressiveDown "A"; ProgressiveNext "A"; ProgressiveDown "B"] j)
    as [j Hexec].
  { eexists. eapply exec_run; [apply step_run|]. cbn.
    eapply exec_silent; [apply step_follow; constructor|].
    eapply exec_run; [apply step_run|]. cbn.
    eapply exec_run; [apply step_child with (before := [_]); apply step_run|].
    constructor. }
  specialize (Hclaim _ _ "A"%string "B"%string
                [ProgressiveDown "A"; ProgressiveNext "A"] [] Hexec
                eq_refl eq_refl eq_refl).
  repeat (apply elem_of_cons in Hclaim as [Hclaim|Hclaim]; [discriminate|]).
  by apply not_elem_of_nil in Hclaim.
Qed.

Lemma followOn_submitted_with_work_witness :
  (∃ j, exec chain_deps chain_followOn chain_isVirtual false chain_alreadyDone
          (Pending (ProgressiveNext "A"))
          [ProgressiveNext "A"; ProgressiveDown "B"; ProgressiveUp "A"] j)
  ∧ (∃ j, exec chain_deps chain_followOn chain_isVirtual true chain_alreadyDone
            (Pending (ProgressiveNext "A"))
            [ProgressiveNext "A"; ProgressiveDown "B"; ProgressiveUp "A"] j).
Proof.
  split.
  - destruct (followOn_submitted_with_work chain_deps chain_followOn
                chain_isVirtual false chain_alreadyDone "A" "B" eq_refl eq_refl)
      as (_ & _ & Hexec & _).
    exact Hexec.
  - destruct (followOn_submitted_with_work chain_deps chain_followOn
                chain_isVirtual true chain_alreadyDone "A" "B" eq_refl eq_refl)
      as (_ & _ & Hexec & _).
    exact Hexec.
Defined.

(** * The further properties at work on the sample trees *)

Lemma getSubtreeRoot_below_root_witness :
  getSubtreeRoot sample_tree "A" = Raise UnboundLocalError.
Proof.
  apply (getSubtreeRoot_below_root sample_tree "A" 2); by vm_compute.
Defined.

Lemma traverseSubtree_clade_witness :
  ∃ l, traverseSubtree (S (length (g_edges (nxDg sample_tree)))) sample_tree 1 1
       = Some l
       ∧ head l = Some 1
       ∧ (∀ m, m ∈ l <-> in_clade sample_tree 1 m).
Proof.
  destruct (traverseSubtree_clade sample_tree 1 sample_tree_is_tree)
    as (l & Hrun & Hhead & Hclade & _); [by_evaluation|].
  exists l. split; [exact Hrun|]. split; [exact Hhead|exact Hclade].
Defined.

Lemma insertAbove_at_root_witness :
  ∃ t', insertAbove 0 1 "top" (Some 3) lone_leaf = (Ok tt, t')
    ∧ is_tree t' ∧ rootId t' = 1
    ∧ getParent t' 0 = Some 1 ∧ getWeight t' 1 0 = Some 3.
Proof.
  destruct (insertAbove_at_root lone_leaf 0 1 "top" (Some 3)) as [_ Hroot];
    [by vm_compute|].
  destruct Hroot as (t' & Hrun & Ht' & _ & Hr & Hp & _ & _ & Hw & _);
    [by vm_compute|apply lone_leaf_is_tree|by_evaluation| |].
  { apply name_free_not_taken. by_evaluation. }
  exists t'. split; [exact Hrun|]. split; [exact Ht'|]. split; [exact Hr|].
  split; [exact Hp|exact Hw].
Defined.

Lemma insertAbove_below_parent_witness :
  ∃ t', insertAbove 2 9 "above" (Some 3) sample_tree = (Ok tt, t')
    ∧ is_tree t'
    ∧ getParent t' 2 = Some 9 ∧ getParent t' 9 = Some 1
    ∧ getChildren t' 9 = [2].
Proof.
  destruct (insertAbove_below_parent sample_tree 2 1 9 "above" (Some 3)
              sample_tree_is_tree)
    as (t' & Hrun & Ht' & _ & Hp & Hp' & Hc & _);
    [by vm_compute|by_evaluation| |].
  { apply name_free_not_taken. by_evaluation. }
  exists t'. split; [exact Hrun|]. split; [exact Ht'|]. split; [exact Hp|].
  split; [exact Hp'|exact Hc].
Defined.

Example sample_tree_first_wanted :
  filter (wants_self sample_tree) (breadthFirstTraversal sample_tree) !! 0%nat
  = Some 1
  ∧ getParent sample_tree 1 = Some 0
  ∧ getNextIndex sample_tree + Z.of_nat 0 = 5
  ∧ getWeight sample_tree 0 1 = Some 1.
Proof. by vm_compute. Qed.

Lemma addSelfEdges_weights_witness :
  ∃ t', addSelfEdges "_self" sample_tree = (Ok tt, t')
    ∧ getWeight t' 0 5 = Some 1 ∧ getWeight t' 5 1 = None.
Proof.
  destruct (addSelfEdges_weights sample_tree "_self" sample_tree_is_tree)
    as (t' & Hrun & Hw); [by_evaluation|by_evaluation|].
  destruct sample_tree_first_wanted as (Hi & Hp & Hs & Hw01).
  destruct (Hw 0%nat 1 0 Hi Hp) as [Hup Hdown].
  rewrite Hs, Hw01 in Hup, Hdown.
  exists t'. split; [exact Hrun|]. split; [exact Hup|exact Hdown].
Defined.

Lemma nameUnlabeledInternalNodes_index_witness :
  ∃ t', nameUnlabeledInternalNodes "Anc" 0 sample_raw = (Ok tt, t')
    ∧ nameToId t' !! "Anc1"%string = Some 1
    ∧ nameToId t' !! "A"%string = Some 2
    ∧ nameToId t' !! "zebra"%string = None.
Proof.
  destruct (nameUnlabeledInternalNodes_index "Anc" 0 sample_raw sample_raw_is_tree)
    as (t' & Hrun & Hidx & _).
  { rewrite sample_raw_unnamed. intros [|[|k]] Hk; [by_evaluation..|].
    cbn in Hk. lia. }
  assert (t' = (nameUnlabeledInternalNodes "Anc" 0 sample_raw).2) as Heq
    by (by rewrite Hrun).
  exists t'. split; [exact Hrun|].
  rewrite !Hidx, Heq. by vm_compute.
Defined.

Lemma addOutgroup_keeps_tree_witness :
  ∃ t' og, addOutgroup half_int "outgroup" 4 sample_tree = (Ok tt, t')
    ∧ is_tree t'
    ∧ getParent t' og = Some (rootId t')
    ∧ nameToId t' !! "outgroup"%string = Some og.
Proof.
  destruct (addOutgroup_keeps_tree half_int sample_tree "outgroup" 4
              sample_tree_is_tree)
    as (t' & og & Hrun & Ht' & _ & Hp & _ & _ & Hidx & _);
    [by vm_compute|by_evaluation| |].
  { intros Hleaf. by vm_compute in Hleaf. }
  exists t', og. split; [exact Hrun|]. split; [exact Ht'|].
  split; [exact Hp|exact Hidx].
Defined.
